(** * TempMap: a Map with temporary elements (src/tempmap.js)

    A shallow embedding of the [TempMap] class and a verification of its
    entry lifecycle, its tri-state timeout rule, the timing-preserving copy
    primitive and the derived-collection operations built on it.

    Modelling choices, all local to this file:
    - JavaScript values that the container stores or uses as keys are the
      primitives; numbers are the integral ones ([Z]).
    - The built-in [Map] underneath [TempMap] is an insertion-ordered
      association list; [Map_set] on a present key keeps its position.
    - Item objects are stored by value; every in-place mutation of an item
      reachable from a container is written back at its key.
    - The host clock ([Date.now]) and the host timers ([setTimeout],
      [clearTimeout], [Timeout.refresh]) are components of an explicit world
      that every method threads; a synchronous method observes one instant.
    - Callbacks handed to the container (predicates, mappers, default
      factories) are observers: they read the world and do not mutate it. *)

From Stdlib Require Import ZArith List Bool Lia String Ascii DecimalString Sorted.
From stdpp Require Import base option list gmap strings.

Open Scope Z_scope.

(** ** JavaScript values *)

(** The primitive values the model covers.  [VNum n] is the number with the
    integer value [n]; [VStr s] is the string whose code units are the
    characters of [s], so every code unit is below 256 and comparing code
    units is comparing characters. *)
Inductive JsVal : Type :=
  | VUndefined
  | VNull
  | VBool (b : bool)
  | VNum (n : Z)
  | VStr (s : string).

#[global] Instance JsVal_eq_dec : EqDecision JsVal.
Proof. solve_decision. Defined.

(** [ToBoolean]. *)
Definition truthy (v : JsVal) : bool :=
  match v with
  | VUndefined | VNull => false
  | VBool b => b
  | VNum n => negb (n =? 0)
  | VStr s => negb (String.eqb s EmptyString)
  end.

(** The [timeout] argument of the mutators: [{undefined|null|Number}]. *)
Inductive TimeoutArg : Type :=
  | TUndefined
  | TNull
  | TNumber (n : Z).

#[global] Instance TimeoutArg_eq_dec : EqDecision TimeoutArg.
Proof. solve_decision. Defined.

(** ** Items and the underlying Map *)

(** [item.timer = { timer, timeout, timestamp }]; the host handle stored in
    the field [timer] is called [handle] here. *)
Record Timer : Type := mkTimer {
  handle : nat;
  timeout : Z;
  timestamp : Z
}.

Record Item : Type := mkItem {
  value : JsVal;
  timer : option Timer
}.

#[global] Instance Timer_eq_dec : EqDecision Timer.
Proof. solve_decision. Defined.

#[global] Instance Item_eq_dec : EqDecision Item.
Proof. solve_decision. Defined.

(** The data of the built-in Map, in insertion order. *)
Abbreviation Store := (list (JsVal * Item)).

Fixpoint Map_get (s : Store) (k : JsVal) : option Item :=
  match s with
  | [] => None
  | (k', it) :: s' => if decide (k' = k) then Some it else Map_get s' k
  end.

Definition Map_has (s : Store) (k : JsVal) : bool :=
  match Map_get s k with Some _ => true | None => false end.

(** [Map.prototype.set]: a present key keeps its position, a new key is
    appended. *)
Fixpoint Map_set (s : Store) (k : JsVal) (it : Item) : Store :=
  match s with
  | [] => [(k, it)]
  | (k', it') :: s' =>
      if decide (k' = k) then (k', it) :: s' else (k', it') :: Map_set s' k it
  end.

Fixpoint Map_delete (s : Store) (k : JsVal) : Store :=
  match s with
  | [] => []
  | (k', it) :: s' =>
      if decide (k' = k) then s' else (k', it) :: Map_delete s' k
  end.

Definition Map_size (s : Store) : Z := Z.of_nat (length s).

Definition keys (s : Store) : list JsVal := map fst s.

(** ** The host: clock, timers, heap of containers *)

(** A host [Timeout] object whose callback is the closure
    [() => super.delete(key)] of the container [owner].  [due] is [None]
    once the callback has run; a cleared timeout is dropped from the table. *)
Record Timeout : Type := mkTimeout {
  after : Z;
  due : option Z;
  owner : nat;
  target : JsVal
}.

Record World : Type := mkWorld {
  now : Z;
  next_handle : nat;
  timeouts : gmap nat Timeout;
  next_ref : nat;
  heap : gmap nat Store
}.

Definition store_of (w : World) (r : nat) : Store := default [] (heap w !! r).

Definition set_store (r : nat) (s : Store) (w : World) : World :=
  mkWorld (now w) (next_handle w) (timeouts w) (next_ref w) (<[r := s]> (heap w)).

Definition set_timeouts (t : gmap nat Timeout) (w : World) : World :=
  mkWorld (now w) (next_handle w) t (next_ref w) (heap w).

Definition empty_world (t0 : Z) : World := mkWorld t0 0 ∅ 0 ∅.

(** Methods are state transformers over the world. *)
Definition M (A : Type) : Type := World -> A * World.

Definition ret {A} (a : A) : M A := fun w => (a, w).

Definition bind {A B} (m : M A) (f : A -> M B) : M B :=
  fun w => let r := m w in f (fst r) (snd r).

Notation "x <- c ;; k" := (bind c (fun x => k))
  (at level 100, c at next level, right associativity).
Notation "c ;;; k" := (bind c (fun _ => k))
  (at level 100, right associativity).

(** [for (const x of xs) body(x)] over a sequence fixed before the loop. *)
Fixpoint for_each {A} (xs : list A) (body : A -> M unit) : M unit :=
  match xs with
  | [] => ret tt
  | x :: xs' => body x ;;; for_each xs' body
  end.

(** [Date.now()]. *)
Definition Date_now : M Z := fun w => (now w, w).

(** [TIMEOUT_MAX] of node:timers: [2 ** 31 - 1]. *)
Definition TIMEOUT_MAX : Z := 2147483647.

(** The delay that node:timers gives a new [Timeout]:
    [if (!(after >= 1 && after <= TIMEOUT_MAX)) after = 1]. *)
Definition host_delay (ms : Z) : Z :=
  if (1 <=? ms) && (ms <=? TIMEOUT_MAX) then ms else 1.
Arguments host_delay : simpl never.

(** [setTimeout(() => super.delete(key), ms)] issued by container [self]:
    the callback is scheduled [host_delay ms] time units from now. *)
Definition host_setTimeout (self : nat) (key : JsVal) (ms : Z) : M nat :=
  fun w =>
    let h := next_handle w in
    (h, mkWorld (now w) (S h)
          (<[h := mkTimeout (host_delay ms) (Some (now w + host_delay ms))
                   self key]> (timeouts w))
          (next_ref w) (heap w)).

(** [clearTimeout(item.timer?.timer)]. *)
Definition host_clearTimeout (t : option Timer) : M unit :=
  fun w =>
    match t with
    | Some tm => (tt, set_timeouts (delete (handle tm) (timeouts w)) w)
    | None => (tt, w)
    end.

(** [timeout.refresh()]: restart the countdown of a timeout that has not
    been cleared. *)
Definition host_refresh (h : nat) : M unit :=
  fun w =>
    (tt, set_timeouts
           (alter (fun t => mkTimeout (after t) (Some (now w + after t))
                              (owner t) (target t)) h (timeouts w)) w).

Definition read_store (self : nat) : M Store := fun w => (store_of w self, w).

Definition write_store (self : nat) (s : Store) : M unit :=
  fun w => (tt, set_store self s w).

(** [new TempMap()]. *)
Definition new_TempMap : M nat :=
  fun w =>
    let r := next_ref w in
    (r, mkWorld (now w) (next_handle w) (timeouts w) (S r) (<[r := []]> (heap w))).

(** ** Module-level helpers of tempmap.js *)

(** [getItemTimeout(item, remaining)]. *)
Definition getItemTimeout (item : option Item) (remaining : bool) : M TimeoutArg :=
  match item with
  | Some (mkItem _ (Some tm)) =>
      if remaining then
        t <- Date_now ;;
        let timeout := timeout tm - (t - timestamp tm) in
        ret (if 0 <? timeout then TNumber timeout else TNull)
      else ret (TNumber (timeout tm))
  | _ => ret TUndefined
  end.

(** [refreshItemTimeout(item)]; returns the item as mutated. *)
Definition refreshItemTimeout (item : option Item) : M (option Item) :=
  match item with
  | Some (mkItem v (Some tm)) =>
      host_refresh (handle tm) ;;;
      t <- Date_now ;;
      ret (Some (mkItem v (Some (mkTimer (handle tm) (timeout tm) t))))
  | _ => ret item
  end.

(** Writing a mutated item object back at its key. *)
Definition put_item (self : nat) (key : JsVal) (item : option Item) : M unit :=
  match item with
  | Some it => s <- read_store self ;; write_store self (Map_set s key it)
  | None => ret tt
  end.

(** Reading the world from a callback. *)
Definition ask {A} (f : World -> A) : M A := fun w => (f w, w).

(** [defaultValue]: a value, or a [function(key, map)] that generates it.
    The function of this type reads the containers and writes to none;
    [TempMap.ensure_with] takes a function that calls methods of the
    container. *)
Inductive DefaultValue : Type :=
  | DValue (v : JsVal)
  | DFactory (f : JsVal -> nat -> World -> JsVal).

(** [getValue(fn, ...args)]. *)
Definition getValue (fn : DefaultValue) (key : JsVal) (self : nat) : M JsVal :=
  match fn with
  | DFactory f => ask (f key self)
  | DValue v => ret v
  end.

(** A [function(value, key, map)] used to test entries; it reads the
    containers and writes to none. *)
Definition Predicate : Type := JsVal -> JsVal -> nat -> World -> bool.

(** A [function(firstValue, secondValue, firstKey, secondKey)]. *)
Definition Comparator : Type := JsVal -> JsVal -> JsVal -> JsVal -> Z.

(** [Array.prototype.sort(cmp)]: a stable sort; an element moves behind
    another one only when the comparator says it is greater.  For a
    comparator that is consistent on the elements the stable sorted
    arrangement is unique and this is the one computed; for any other
    comparator ECMAScript leaves the order to the implementation, and this
    is the order a linear insertion gives. *)
Fixpoint sort_insert {A} (cmp : A -> A -> Z) (x : A) (l : list A) : list A :=
  match l with
  | [] => [x]
  | y :: l' => if 0 <? cmp x y then y :: sort_insert cmp x l' else x :: l
  end.

Fixpoint Array_sort {A} (cmp : A -> A -> Z) (l : list A) : list A :=
  match l with
  | [] => []
  | x :: l' => sort_insert cmp x (Array_sort cmp l')
  end.

(** A strict-mode function value with an observable effect on a state [S]
    of its own: [call f this a b c]. *)
Record JsFun (S : Type) : Type := mkFun {
  call : JsVal -> JsVal -> JsVal -> nat -> S -> S
}.
Arguments mkFun {S} _.
Arguments call {S} _ _ _ _ _ _.

(** [Function.prototype.bind(thisArg)]. *)
Definition Function_bind {S} (fn : JsFun S) (thisArg : JsVal) : JsFun S :=
  mkFun (fun _ => call fn thisArg).

(** ** The relational operators used by [defaultSort] *)

Section Relational.

(** [StringToNumber] of the host on the strings it can meet; [None] is
    [NaN]. *)
Variable StringToNumber : string -> option Z.

Definition ToNumber (v : JsVal) : option Z :=
  match v with
  | VUndefined => None
  | VNull => Some 0
  | VBool b => Some (if b then 1 else 0)
  | VNum n => Some n
  | VStr s => StringToNumber s
  end.

(** [a > b]. *)
Definition js_gt (a b : JsVal) : bool :=
  match a, b with
  | VStr s, VStr t =>
      match String.compare s t with Gt => true | _ => false end
  | _, _ =>
      match ToNumber a, ToNumber b with
      | Some x, Some y => y <? x
      | _, _ => false
      end
  end.

(** [a === b]. *)
Definition js_strict_eq (a b : JsVal) : bool := bool_decide (a = b).

(** [static defaultSort(firstValue, secondValue)]. *)
Definition defaultSort (firstValue secondValue : JsVal) : Z :=
  let gt := if js_gt firstValue secondValue then 1 else 0 in
  if negb (gt =? 0) then gt
  else (if js_strict_eq firstValue secondValue then 1 else 0) - 1.

End Relational.

(** [ToString] on the values of the model; a number is printed in decimal
    digits, as JavaScript prints the integers below [10 ** 21]. *)
Definition ToString (v : JsVal) : string :=
  match v with
  | VUndefined => "undefined"
  | VNull => "null"
  | VBool true => "true"
  | VBool false => "false"
  | VNum n => NilZero.string_of_int (Z.to_int n)
  | VStr s => s
  end.

(** ** The class *)

Module TempMap.

(** [#getItem(key, refreshTimeout)]. *)
Definition getItem (self : nat) (key : JsVal) (refreshTimeout : bool)
  : M (option Item) :=
  s <- read_store self ;;
  if refreshTimeout then
    item <- refreshItemTimeout (Map_get s key) ;;
    put_item self key item ;;;
    ret item
  else ret (Map_get s key).

(** [#setTimeout(key, item, timeout)]. *)
Definition setTimeout (self : nat) (key : JsVal) (item : Item) (timeout : Z)
  : M Item :=
  if 0 <? timeout then
    h <- host_setTimeout self key timeout ;;
    t <- Date_now ;;
    ret (mkItem (value item) (Some (mkTimer h timeout t)))
  else ret (mkItem (value item) None).

(** [#setItem(key, item, value, timeout)]. *)
Definition setItem (self : nat) (key : JsVal) (item : option Item)
    (v : JsVal) (timeout : TimeoutArg) : M JsVal :=
  match item with
  | Some it =>
      let it1 := mkItem v (timer it) in
      it2 <- match timeout with
             | TNumber n =>
                 host_clearTimeout (timer it1) ;;;
                 x <- setTimeout self key it1 n ;;
                 ret (Some x)
             | TUndefined =>
                 match timer it1 with
                 | Some _ => refreshItemTimeout (Some it1)
                 | None => ret (Some it1)
                 end
             | TNull => ret (Some it1)
             end ;;
      put_item self key it2 ;;;
      ret v
  | None =>
      it <- setTimeout self key (mkItem v None)
              (match timeout with TNumber n => n | _ => 0 end) ;;
      s <- read_store self ;;
      write_store self (Map_set s key it) ;;;
      ret v
  end.

(** [#deleteItem(key, item)]. *)
Definition deleteItem (self : nat) (key : JsVal) (item : option Item)
  : M (option Item) :=
  match item with
  | Some it =>
      s <- read_store self ;;
      if Map_has s key then
        write_store self (Map_delete s key) ;;;
        host_clearTimeout (timer it) ;;;
        ret item
      else ret item
  | None => ret item
  end.

(** [at(index, refreshTimeout=true)]: the loop [if (index === i++)]. *)
Fixpoint at_loop (s : Store) (index i : Z) : option (JsVal * Item) :=
  match s with
  | [] => None
  | (k, it) :: s' => if index =? i then Some (k, it) else at_loop s' index (i + 1)
  end.

Definition at_ (self : nat) (index : Z) (refreshTimeout : bool)
  : M (option (JsVal * JsVal)) :=
  s <- read_store self ;;
  let index := if index <? 0 then Map_size s + index else index in
  match at_loop s index 0 with
  | Some (key, item) =>
      if refreshTimeout then
        item' <- refreshItemTimeout (Some item) ;;
        put_item self key item' ;;;
        ret (Some (key, value item))
      else ret (Some (key, value item))
  | None => ret None
  end.

(** [get(key, refreshTimeout=true)]. *)
Definition get (self : nat) (key : JsVal) (refreshTimeout : bool) : M JsVal :=
  item <- getItem self key refreshTimeout ;;
  ret (match item with Some it => value it | None => VUndefined end).

(** [ensure(key, defaultValue, timeout, refreshTimeout=true)]. *)
Definition ensure (self : nat) (key : JsVal) (defaultValue : DefaultValue)
    (timeout : TimeoutArg) (refreshTimeout : bool) : M JsVal :=
  item <- getItem self key refreshTimeout ;;
  match item with
  | Some it => ret (value it)
  | None =>
      v <- getValue defaultValue key self ;;
      setItem self key None v timeout
  end.

(** [ensure(key, defaultValue, timeout, refreshTimeout=true)] where
    [defaultValue] is a function that calls methods of the container: it
    runs between the lookup and [#setItem], which is handed the [item] of
    the lookup. *)
Definition ensure_with (self : nat) (key : JsVal)
    (defaultValue : JsVal -> nat -> M JsVal)
    (timeout : TimeoutArg) (refreshTimeout : bool) : M JsVal :=
  item <- getItem self key refreshTimeout ;;
  match item with
  | Some it => ret (value it)
  | None =>
      v <- defaultValue key self ;;
      setItem self key None v timeout
  end.

(** [set(key, value, timeout)]. *)
Definition set (self : nat) (key v : JsVal) (timeout : TimeoutArg) : M JsVal :=
  s <- read_store self ;;
  setItem self key (Map_get s key) v timeout.

(** [add(key, value, timeout)]. *)
Definition add (self : nat) (key v : JsVal) (timeout : TimeoutArg) : M JsVal :=
  s <- read_store self ;;
  match Map_get s key with
  | Some _ => ret VUndefined
  | None => setItem self key None v timeout
  end.

(** [update(key, value, timeout)]. *)
Definition update (self : nat) (key v : JsVal) (timeout : TimeoutArg)
  : M JsVal :=
  s <- read_store self ;;
  match Map_get s key with
  | None => ret VUndefined
  | Some it => setItem self key (Some it) v timeout
  end.

(** [delete(key)]. *)
Definition delete (self : nat) (key : JsVal) : M JsVal :=
  s <- read_store self ;;
  item <- deleteItem self key (Map_get s key) ;;
  ret (match item with Some it => value it | None => VUndefined end).

(** [sweep(fn)]. *)
Definition sweep (self : nat) (fn : Predicate) : M Z :=
  s <- read_store self ;;
  let size := Map_size s in
  for_each s (fun e =>
    b <- ask (fn (value (snd e)) (fst e) self) ;;
    if b then deleteItem self (fst e) (Some (snd e)) ;;; ret tt else ret tt) ;;;
  s' <- read_store self ;;
  ret (size - Map_size s').

(** [clear()]. *)
Definition clear (self : nat) : M Z := sweep self (fun _ _ _ _ => true).

(** [#copyItem(key, item, ensure, refreshTimeout)]. *)
Definition copyItem (self : nat) (key : JsVal) (item : Item)
    (ens refreshTimeout : bool) : M JsVal :=
  timeout <- getItemTimeout (Some item) (negb refreshTimeout) ;;
  match timeout with
  | TNull => ret VUndefined
  | _ =>
      if ens then ensure self key (DFactory (fun _ _ _ => value item)) timeout true
      else set self key (value item) timeout
  end.

(** [first(count=1)]: the loop [if (index++ >= count) break]. *)
Fixpoint first_loop (s : Store) (count index : Z) : list (JsVal * JsVal) :=
  match s with
  | [] => []
  | (key, item) :: s' =>
      if count <=? index then []
      else (key, value item) :: first_loop s' count (index + 1)
  end.

Definition first (self : nat) (count : Z) : M (list (JsVal * JsVal)) :=
  s <- read_store self ;;
  ret (first_loop s count 0).

(** [last(count=1)]: the loop [if (index++ >= this.size - count)]. *)
Fixpoint last_loop (s : Store) (size count index : Z) : list (JsVal * JsVal) :=
  match s with
  | [] => []
  | (key, item) :: s' =>
      if size - count <=? index
      then (key, value item) :: last_loop s' size count (index + 1)
      else last_loop s' size count (index + 1)
  end.

Definition last (self : nat) (count : Z) : M (list (JsVal * JsVal)) :=
  s <- read_store self ;;
  ret (last_loop s (Map_size s) count 0).

(** The loop shared by [clone], [filter], [concat] and [sort]:
    [for (const [key, item] of entries) dest.#copyItem(key, item, ...)]. *)
Definition copy_entry (dest : nat) (ens refreshTimeout : bool)
    (e : JsVal * Item) : M unit :=
  copyItem dest (fst e) (snd e) ens refreshTimeout ;;; ret tt.

(** [clone(refreshTimeout=true)]. *)
Definition clone (self : nat) (refreshTimeout : bool) : M nat :=
  map <- new_TempMap ;;
  s <- read_store self ;;
  for_each s (copy_entry map false refreshTimeout) ;;;
  ret map.

(** [map(fn)]. *)
Definition map {A} (self : nat) (fn : JsVal -> JsVal -> nat -> World -> A)
  : M (list A) :=
  s <- read_store self ;;
  ask (fun w => List.map (fun e => fn (value (snd e)) (fst e) self w) s).

(** [filter(fn, refreshTimeout=true)]. *)
Definition filter (self : nat) (fn : Predicate) (refreshTimeout : bool)
  : M nat :=
  map <- new_TempMap ;;
  s <- read_store self ;;
  for_each s (fun e =>
    b <- ask (fn (value (snd e)) (fst e) self) ;;
    if b then copy_entry map false refreshTimeout e else ret tt) ;;;
  ret map.

(** [partition(fn, refreshTimeout=true)]. *)
Definition partition (self : nat) (fn : Predicate) (refreshTimeout : bool)
  : M (nat * nat) :=
  m0 <- new_TempMap ;;
  m1 <- new_TempMap ;;
  s <- read_store self ;;
  for_each s (fun e =>
    b <- ask (fn (value (snd e)) (fst e) self) ;;
    copy_entry (if b then m0 else m1) false refreshTimeout e) ;;;
  ret (m0, m1).

(** [concat(other, refreshTimeout=true)]. *)
Definition concat (self other : nat) (refreshTimeout : bool) : M nat :=
  if decide (self = other) then ret self
  else
    s <- read_store other ;;
    for_each s (copy_entry self true refreshTimeout) ;;;
    ret self.

(** [difference(other, refreshTimeout=true)]; the inner [concat] is called
    with its default flag. *)
Definition difference (self other : nat) (refreshTimeout : bool) : M nat :=
  a <- filter self
         (fun _ key _ w => negb (Map_has (store_of w other) key))
         refreshTimeout ;;
  b <- filter other
         (fun _ key _ w => negb (Map_has (store_of w self) key))
         refreshTimeout ;;
  concat a b true.

(** [intersect(other, refreshTimeout=true)]. *)
Definition intersect (self other : nat) (refreshTimeout : bool) : M nat :=
  filter self
    (fun v key _ w =>
       match Map_get (store_of w other) key with
       | Some item => bool_decide (v = value item)
       | None => false
       end)
    refreshTimeout.

(** [sort(fn, refreshTimeout=true)]. *)
Definition sort (StringToNumber : string -> option Z)
    (fn : option Comparator) (self : nat) (refreshTimeout : bool) : M nat :=
  let fn := match fn with
            | Some f => f
            | None => fun a b _ _ => defaultSort StringToNumber a b
            end in
  s <- read_store self ;;
  let entries :=
    Array_sort (fun a b => fn (value (snd a)) (value (snd b)) (fst a) (fst b)) s in
  clear self ;;;
  for_each entries (copy_entry self false refreshTimeout) ;;;
  ret self.


(** [*entries()]. *)
Definition entries (self : nat) : M (list (JsVal * JsVal)) :=
  s <- read_store self ;;
  ret (List.map (fun e => (fst e, value (snd e))) s).

(** [forEach(fn, thisArg)]: the callback is invoked as a plain function,
    so an unbound one sees [this === undefined]. *)
Definition forEach {S} (self : nat) (fn : JsFun S) (thisArg : JsVal) (acc : S)
  : M (nat * S) :=
  let fn := if truthy thisArg then Function_bind fn thisArg else fn in
  es <- entries self ;;
  ret (self,
       fold_left (fun a e => call fn VUndefined (fst e) (snd e) self a) es acc).

(** [equals(other)]; [other] is a container, so [instanceof] holds. *)
Definition equals (self other : nat) : M bool :=
if decide (self = other) then ret true
else
  s <- read_store self ;;
  o <- read_store other ;;
  if negb (Map_size o =? Map_size s) then ret false
  else
    ret (forallb
           (fun e =>
              match Map_get o (fst e) with
              | Some otherItem => bool_decide (value otherItem = value (snd e))
              | None => false
              end) s).

(** [every(fn)]. *)
Definition every (self : nat) (fn : Predicate) : M bool :=
s <- read_store self ;;
ask (fun w => forallb (fun e => fn (value (snd e)) (fst e) self w) s).

(** [hasAll(...keys)]. *)
Definition hasAll (self : nat) (ks : list JsVal) : M bool :=
s <- read_store self ;;
ret (forallb (Map_has s) ks).

(** [hasAny(...keys)]. *)
Definition hasAny (self : nat) (ks : list JsVal) : M bool :=
s <- read_store self ;;
ret (existsb (Map_has s) ks).

(** [find(fn)]: the loop [if (fn(item.value, key, this)) return ...]. *)
Fixpoint find_loop (s : Store) (self : nat) (fn : Predicate) (w : World)
  : option (JsVal * JsVal) :=
match s with
| [] => None
| (key, item) :: s' =>
    if fn (value item) key self w then Some (key, value item)
    else find_loop s' self fn w
end.

Definition find (self : nat) (fn : Predicate) : M (option (JsVal * JsVal)) :=
s <- read_store self ;;
ask (find_loop s self fn).

(** [str.slice(0, -n)] for a positive [n]. *)
Definition slice_off (str : string) (n : nat) : string :=
String.substring 0 (String.length str - n) str.

(** [toString(sep=' ', filter, map)]; a template literal converts with
    [ToString]. *)
Definition toString (self : nat) (sep : string) (filter : option Predicate)
    (map : option (JsVal -> JsVal -> nat -> World -> JsVal)) : M string :=
es <- entries self ;;
ask (fun w =>
       let str :=
         fold_left
           (fun str e =>
              if match filter with
                 | Some f => f (snd e) (fst e) self w
                 | None => true
                 end
              then
                (str ++ ToString
                          match map with
                          | Some m => m (snd e) (fst e) self w
                          | None => snd e
                          end ++ sep)%string
              else str)
           es EmptyString in
       if (0 <? String.length sep)%nat
       then slice_off str (String.length sep) else str).

End TempMap.

(** ** The event loop *)

(** Time passes without any callback running. *)
Definition tick (dt : Z) (w : World) : World :=
  mkWorld (now w + dt) (next_handle w) (timeouts w) (next_ref w) (heap w).

(** The host runs the callback of the timeout [h] once it is due:
    [super.delete(key)] on the container that armed it. *)
Definition fire (h : nat) (w : World) : World :=
  match timeouts w !! h with
  | Some t =>
      match due t with
      | Some d =>
          if d <=? now w then
            mkWorld (now w) (next_handle w)
              (<[h := mkTimeout (after t) None (owner t) (target t)]> (timeouts w))
              (next_ref w)
              (alter (fun s => Map_delete s (target t)) (owner t) (heap w))
          else w
      | None => w
      end
  | None => w
  end.

(** ** Views and predicates used in the statements *)

(** The key/value pairs of a store, in iteration order. *)
Definition kv (s : Store) : list (JsVal * JsVal) :=
  List.map (fun e => (fst e, value (snd e))) s.

(** [timeout - (Date.now() - timestamp)] at the instant [t]. *)
Definition remaining_time (t : Z) (tm : Timer) : Z :=
  timeout tm - (t - timestamp tm).

(** The item carries a timer whose remaining time has reached zero. *)
Definition expired (t : Z) (item : Item) : bool :=
  match timer item with
  | Some tm => remaining_time t tm <=? 0
  | None => false
  end.

(** The timeout that a copy made at instant [t] transplants. *)
Definition transplant (refreshTimeout : bool) (t : Z) (item : Item) : TimeoutArg :=
  match timer item with
  | None => TUndefined
  | Some tm =>
      if refreshTimeout then TNumber (timeout tm)
      else if 0 <? remaining_time t tm then TNumber (remaining_time t tm)
      else TNull
  end.

(** The entries of a loop that [#copyItem] does not skip. *)
Definition copied (refreshTimeout : bool) (t : Z) (e : JsVal * Item) : bool :=
  refreshTimeout || negb (expired t (snd e)).

(** Every stored timer was armed with a positive duration. *)
Definition timer_ok (e : JsVal * Item) : Prop :=
  match timer (snd e) with
  | Some tm => 0 < timeout tm
  | None => True
  end.

#[global] Instance timer_ok_dec e : Decision (timer_ok e).
Proof. unfold timer_ok. destruct (timer (snd e)); apply _. Defined.

Definition wf_store (s : Store) : Prop := NoDup (keys s) /\ Forall timer_ok s.

#[global] Instance wf_store_dec s : Decision (wf_store s).
Proof. unfold wf_store. apply _. Defined.

(** Every container of the heap was allocated by [new TempMap()] and holds
    a well-formed store. *)
Definition wf_world (w : World) : Prop :=
  map_Forall (fun r s => (r < next_ref w)%nat /\ wf_store s) (heap w).

#[global] Instance wf_world_dec w : Decision (wf_world w).
Proof. unfold wf_world. apply _. Defined.

(** Two worlds show the same clock and the same containers, [dest] apart. *)
Definition same_but (dest : nat) (w w' : World) : Prop :=
  now w' = now w /\ forall r, r <> dest -> store_of w' r = store_of w r.

(** The footprint of a method that works on the entry [k] of the container
    [dest]: the clock and the other containers are untouched, and the store
    of [dest] is either unchanged or rewritten at [k]. *)
Definition touches (dest : nat) (k : JsVal) (w w' : World) : Prop :=
  now w' = now w /\ next_ref w' = next_ref w /\
  (next_handle w <= next_handle w')%nat /\
  (heap w' = heap w \/
   exists it, heap w' = <[dest := Map_set (store_of w dest) k it]> (heap w) /\
              (Forall timer_ok (store_of w dest) -> timer_ok (k, it))).

(** An item whose timer, if any, was restarted at the instant [t]. *)
Definition refresh_at (t : Z) (item : Item) : Item :=
  mkItem (value item)
    (match timer item with
     | Some tm => Some (mkTimer (handle tm) (timeout tm) t)
     | None => None
     end).

(** The item that a copy made at instant [t] stores in the destination,
    [h] being the handle the host hands out next; [None] when the entry is
    skipped. *)
Definition copy_item (refreshTimeout : bool) (t : Z) (h : nat) (item : Item)
  : option Item :=
  match transplant refreshTimeout t item with
  | TNull => None
  | TNumber n =>
      Some (mkItem (value item)
              (if 0 <? n then Some (mkTimer h n t) else None))
  | TUndefined => Some (mkItem (value item) None)
  end.

(** What a copy loop appends to a destination that holds none of the keys. *)
Fixpoint copy_items (refreshTimeout : bool) (t : Z) (h : nat) (l : Store)
  : Store :=
  match l with
  | [] => []
  | (k, item) :: l' =>
      match copy_item refreshTimeout t h item with
      | None => copy_items refreshTimeout t h l'
      | Some item' =>
          (k, item') ::
          copy_items refreshTimeout t
            (match timer item' with Some _ => S h | None => h end) l'
      end
  end.

(** The test of [intersect], read off the store of [other]. *)
Definition in_both (other : Store) (e : JsVal * Item) : bool :=
  match Map_get other (fst e) with
  | Some item => bool_decide (value (snd e) = value item)
  | None => false
  end.

(** The test of [difference], read off the store of the opposite side. *)
Definition not_in (other : Store) (e : JsVal * Item) : bool :=
  negb (Map_has other (fst e)).

(** The footprint of [#deleteItem]: the store of [self] is unchanged or
    loses the key [k]. *)
Definition removes (self : nat) (k : JsVal) (w w' : World) : Prop :=
  now w' = now w /\ next_ref w' = next_ref w /\
  next_handle w' = next_handle w /\
  (heap w' = heap w \/
   (is_Some (heap w !! self) /\
    heap w' = <[self := Map_delete (store_of w self) k]> (heap w))).

(** ** Sample worlds *)

(** Container 0 holds [a => 1] armed for 1000 ms and the permanent
    [b => 2]; container 1 holds the permanent [a => 7]. *)
Definition demo0 : World :=
  let w := snd (new_TempMap (empty_world 0)) in
  let w := snd (TempMap.set 0%nat (VStr "a") (VNum 1) (TNumber 1000) w) in
  let w := snd (TempMap.set 0%nat (VStr "b") (VNum 2) TUndefined w) in
  let w := snd (new_TempMap w) in
  snd (TempMap.set 1%nat (VStr "a") (VNum 7) TUndefined w).

(** 1000 ms later, before the event loop has run the callback of [a]. *)
Definition demo_due : World := tick 1000 demo0.

(** 400 ms after [demo0]: [a] has 600 ms left. *)
Definition demo_half : World := tick 400 demo0.

(** A container that holds [a => 1] set with a timeout of [2 ** 31] ms,
    one more than [TIMEOUT_MAX]. *)
Definition demo_long : World :=
  let w := snd (new_TempMap (empty_world 0)) in
  snd (TempMap.set 0%nat (VStr "a") (VNum 1) (TNumber 2147483648) w).

(** The entry under [k] of the container that a method returns. *)
Definition entry_of_result (m : M nat) (w : World) (k : JsVal) : option Item :=
  Map_get (store_of (snd (m w)) (fst (m w))) k.

(** [other] holds, under [k], an entry that a copy at instant [t] does not
    skip. *)
Definition offers (refreshTimeout : bool) (t : Z) (other : Store) (k : JsVal)
  : bool :=
  existsb (fun e => bool_decide (fst e = k) && copied refreshTimeout t e) other.

(** Container 0 holds [a => 1] armed for 1000 ms at instant 0, container 1
    holds the permanent [a => 2] and [c => 3]; the clock shows 500. *)
Definition demo_concat : World :=
  let w := snd (new_TempMap (empty_world 0)) in
  let w := snd (TempMap.set 0%nat (VStr "a") (VNum 1) (TNumber 1000) w) in
  let w := snd (new_TempMap w) in
  let w := snd (TempMap.set 1%nat (VStr "a") (VNum 2) TUndefined w) in
  let w := snd (TempMap.set 1%nat (VStr "c") (VNum 3) TUndefined w) in
  tick 500 w.

(** A callback that records how it was called: [this] and the three
    arguments, in call order. *)
Definition recorder : JsFun (list (JsVal * JsVal * JsVal * nat)) :=
  mkFun (fun this a b c log => log ++ [(this, a, b, c)]).

(** A container holding [p => 10] and [q => 9], both permanent. *)
Definition demo_numbers : World :=
  let w := snd (new_TempMap (empty_world 0)) in
  let w := snd (TempMap.set 0%nat (VStr "p") (VNum 10) TUndefined w) in
  snd (TempMap.set 0%nat (VStr "q") (VNum 9) TUndefined w).

(** The sign of comparing two strings code unit by code unit. *)
Definition string_order (s t : string) : Z :=
  match String.compare s t with
  | Lt => -1
  | Eq => 0
  | Gt => 1
  end.

(** [A = {x: 1, y: 2}] is container 0 and [B = {y: 2, z: 3}] container 1;
    no entry has a timer. *)
Definition demo_sets : World :=
  let w := snd (new_TempMap (empty_world 0)) in
  let w := snd (TempMap.set 0%nat (VStr "x") (VNum 1) TUndefined w) in
  let w := snd (TempMap.set 0%nat (VStr "y") (VNum 2) TUndefined w) in
  let w := snd (new_TempMap w) in
  let w := snd (TempMap.set 1%nat (VStr "y") (VNum 2) TUndefined w) in
  snd (TempMap.set 1%nat (VStr "z") (VNum 3) TUndefined w).

(** ** Runs of a program *)

(** One step of a program that uses containers: a constructor call, a call
    of a mutating or copying method on a container that exists, the passing
    of time, or the event loop running the callback of a timeout.  The
    tests, factories and comparators handed to the methods read the
    containers and write to none. *)
Inductive step : World -> World -> Prop :=
  | step_new w :
      step w (snd (new_TempMap w))
  | step_set self key v t w :
      (self < next_ref w)%nat -> step w (snd (TempMap.set self key v t w))
  | step_add self key v t w :
      (self < next_ref w)%nat -> step w (snd (TempMap.add self key v t w))
  | step_update self key v t w :
      (self < next_ref w)%nat -> step w (snd (TempMap.update self key v t w))
  | step_ensure self key d t rt w :
      (self < next_ref w)%nat -> step w (snd (TempMap.ensure self key d t rt w))
  | step_get self key rt w :
      (self < next_ref w)%nat -> step w (snd (TempMap.get self key rt w))
  | step_at self index rt w :
      (self < next_ref w)%nat -> step w (snd (TempMap.at_ self index rt w))
  | step_delete self key w :
      (self < next_ref w)%nat -> step w (snd (TempMap.delete self key w))
  | step_sweep self fn w :
      (self < next_ref w)%nat -> step w (snd (TempMap.sweep self fn w))
  | step_clear self w :
      (self < next_ref w)%nat -> step w (snd (TempMap.clear self w))
  | step_clone self rt w :
      (self < next_ref w)%nat -> step w (snd (TempMap.clone self rt w))
  | step_filter self fn rt w :
      (self < next_ref w)%nat -> step w (snd (TempMap.filter self fn rt w))
  | step_partition self fn rt w :
      (self < next_ref w)%nat -> step w (snd (TempMap.partition self fn rt w))
  | step_concat self other rt w :
      (self < next_ref w)%nat -> (other < next_ref w)%nat ->
      step w (snd (TempMap.concat self other rt w))
  | step_difference self other rt w :
      (self < next_ref w)%nat -> (other < next_ref w)%nat ->
      step w (snd (TempMap.difference self other rt w))
  | step_intersect self other rt w :
      (self < next_ref w)%nat -> (other < next_ref w)%nat ->
      step w (snd (TempMap.intersect self other rt w))
  | step_sort stn fn self rt w :
      (self < next_ref w)%nat -> step w (snd (TempMap.sort stn fn self rt w))
  | step_tick dt w :
      0 <= dt -> step w (tick dt w)
  | step_fire h w :
      step w (fire h w).

(** Insertion order is kept from the key sequence [l] to [l']: the keys
    that are in both stand in [l'] in the order they have in [l], and the
    keys that are new in [l'] come after all of them. *)
Definition order_kept (l l' : list JsVal) : Prop :=
  l' = filter (fun k => k ∈ l') l ++ filter (fun k => k ∉ l) l'.

#[global] Instance order_kept_dec l l' : Decision (order_kept l l').
Proof. unfold order_kept. apply _. Defined.

(** The worlds that a program whose callbacks write to no container can
    reach from an empty heap. *)
Definition reachable (w : World) : Prop :=
  exists t0, rtc step (empty_world t0) w.

(** A container holding [a => 1], [b => 2], [c => 3], [d => 4], all
    permanent. *)
Definition demo_four : World :=
  let w := snd (new_TempMap (empty_world 0)) in
  let w := snd (TempMap.set 0%nat (VStr "a") (VNum 1) TUndefined w) in
  let w := snd (TempMap.set 0%nat (VStr "b") (VNum 2) TUndefined w) in
  let w := snd (TempMap.set 0%nat (VStr "c") (VNum 3) TUndefined w) in
  snd (TempMap.set 0%nat (VStr "d") (VNum 4) TUndefined w).

(** The test "the value is an even number". *)
Definition is_even (v _k : JsVal) : bool :=
  match v with
  | VNum n => Z.even n
  | _ => false
  end.

(** A consistent comparator for the elements of [l], as ECMAScript asks of
    the argument of [Array.prototype.sort]: comparing equal is reflexive,
    symmetric and transitive, and ranking below and ranking above are
    transitive. *)
Definition consistent_on {A} (cmp : A -> A -> Z) (l : list A) : Prop :=
  Forall (fun a => cmp a a = 0) l /\
  Forall (fun a => Forall (fun b => cmp a b = 0 -> cmp b a = 0) l) l /\
  Forall (fun a => Forall (fun b => Forall (fun c =>
    (cmp a b = 0 -> cmp b c = 0 -> cmp a c = 0) /\
    (cmp a b < 0 -> cmp b c < 0 -> cmp a c < 0) /\
    (0 < cmp a b -> 0 < cmp b c -> 0 < cmp a c)) l) l) l.

#[global] Instance consistent_on_dec {A} (cmp : A -> A -> Z) (l : list A) :
  Decision (consistent_on cmp l).
Proof. unfold consistent_on. apply _. Defined.

(** A comparator [(a, b) => a - b] for numbers; other values compare
    equal. *)
Definition by_number (a b _ka _kb : JsVal) : Z :=
  match a, b with
  | VNum x, VNum y => x - y
  | _, _ => 0
  end.

(** ** Timers and the host table *)

(** The callback of the timer [tm], held by the entry [k] of container
    [r], is pending in the host table for the instant the delay that the
    host gave it runs out. *)
Definition armed (w : World) (r : nat) (k : JsVal) (tm : Timer) : Prop :=
  timeouts w !! handle tm
  = Some (mkTimeout (host_delay (timeout tm))
            (Some (timestamp tm + host_delay (timeout tm))) r k).

(** Entries and pending callbacks correspond: every stored timer is
    armed, every pending callback targets the entry that holds its
    handle, and the host has handed out only handles below the next
    one. *)
Definition timers_ok (w : World) : Prop :=
  (forall r k it tm,
      Map_get (store_of w r) k = Some it -> timer it = Some tm ->
      armed w r k tm) /\
  (forall h t d,
      timeouts w !! h = Some t -> due t = Some d ->
      exists it tm,
        Map_get (store_of w (owner t)) (target t) = Some it /\
        timer it = Some tm /\ handle tm = h) /\
  (forall h t, timeouts w !! h = Some t -> (h < next_handle w)%nat).

(** The timer of the entry under [k] of container [r], if any. *)
Definition timer_at (w : World) (r : nat) (k : JsVal) : option Timer :=
  match Map_get (store_of w r) k with
  | Some it => timer it
  | None => None
  end.

(** * Verification *)

(** ** The delay the host schedules *)

Lemma host_delay_pos n : 0 < host_delay n.
Proof.
  unfold host_delay. destruct (1 <=? n) eqn:E; simpl; [|lia].
  destruct (n <=? TIMEOUT_MAX); [|lia]. apply Z.leb_le in E. lia.
Qed.

Lemma host_delay_in_range n : 0 < n -> n <= TIMEOUT_MAX -> host_delay n = n.
Proof.
  intros H0 H1. unfold host_delay.
  replace (1 <=? n) with true by (symmetry; apply Z.leb_le; lia).
  replace (n <=? TIMEOUT_MAX) with true by (symmetry; by apply Z.leb_le).
  reflexivity.
Qed.

Lemma host_delay_overflow n : TIMEOUT_MAX < n -> host_delay n = 1.
Proof.
  intros H. unfold host_delay.
  replace (n <=? TIMEOUT_MAX) with false by (symmetry; by apply Z.leb_gt).
  by rewrite andb_false_r.
Qed.

Lemma host_delay_le n : 0 < n -> host_delay n <= n.
Proof.
  intros H. unfold host_delay.
  destruct ((1 <=? n) && (n <=? TIMEOUT_MAX)); lia.
Qed.

(** ** The underlying Map *)

Section MapFacts.

Implicit Types (s : Store) (k : JsVal) (it : Item).

Lemma Map_get_None s k : Map_get s k = None <-> k ∉ keys s.
Proof.
  induction s as [|[k' it] s IH]; simpl.
  - split; [intros _; apply not_elem_of_nil | done].
  - rewrite not_elem_of_cons. destruct (decide (k' = k)); subst.
    + split; [done | intros [? _]; done].
    + rewrite IH. split; [intros; split; auto | intros [_ ?]; done].
Qed.

Lemma Map_get_elem s k it : Map_get s k = Some it -> (k, it) ∈ s.
Proof.
  induction s as [|[k' it'] s IH]; simpl; [done|].
  destruct (decide (k' = k)); subst.
  - intros [= ->]. apply list_elem_of_here.
  - intros H. apply list_elem_of_further; auto.
Qed.

Lemma elem_keys s k it : (k, it) ∈ s -> k ∈ keys s.
Proof. intros H. apply (list_elem_of_fmap_2 fst) in H. exact H. Qed.

Lemma Map_get_unique s k it :
  NoDup (keys s) -> (k, it) ∈ s -> Map_get s k = Some it.
Proof.
  induction s as [|[k' it'] s IH]; simpl.
  - intros _ H. by apply elem_of_nil in H.
  - intros Hnd H. apply NoDup_cons in Hnd as [Hnotin Hnd].
    apply elem_of_cons in H as [[= <- <-]|H].
    + by rewrite decide_True.
    + destruct (decide (k' = k)); subst.
      * exfalso. apply Hnotin. eapply elem_keys; eauto.
      * auto.
Qed.

Lemma Map_get_set_eq s k it : Map_get (Map_set s k it) k = Some it.
Proof.
  induction s as [|[k' it'] s IH]; simpl.
  - by rewrite decide_True.
  - destruct (decide (k' = k)); simpl.
    + by rewrite decide_True.
    + by rewrite decide_False.
Qed.

Lemma Map_get_set_ne s k k' it :
  k <> k' -> Map_get (Map_set s k it) k' = Map_get s k'.
Proof.
  intros Hne. induction s as [|[k0 it0] s IH]; simpl.
  - by rewrite decide_False.
  - destruct (decide (k0 = k)); simpl; subst.
    + by rewrite !decide_False.
    + destruct (decide (k0 = k')); auto.
Qed.

Lemma Map_set_present s k it it0 :
  Map_get s k = Some it0 -> keys (Map_set s k it) = keys s.
Proof.
  induction s as [|[k0 i0] s IH]; simpl; [done|].
  destruct (decide (k0 = k)); simpl; [done|].
  intros H. by rewrite IH.
Qed.

Lemma Map_set_absent s k it :
  Map_get s k = None -> Map_set s k it = s ++ [(k, it)].
Proof.
  induction s as [|[k0 i0] s IH]; simpl; [done|].
  destruct (decide (k0 = k)); simpl; [done|].
  intros H. by rewrite IH.
Qed.

Lemma keys_Map_set s k it :
  keys (Map_set s k it) = keys s \/ keys (Map_set s k it) = keys s ++ [k].
Proof.
  destruct (Map_get s k) eqn:E.
  - left. eapply Map_set_present; eauto.
  - right. rewrite Map_set_absent by done. unfold keys. by rewrite map_app.
Qed.

Lemma NoDup_Map_set s k it : NoDup (keys s) -> NoDup (keys (Map_set s k it)).
Proof.
  intros Hnd. destruct (Map_get s k) eqn:E.
  - erewrite Map_set_present; eauto.
  - rewrite Map_set_absent by done. unfold keys. rewrite map_app. simpl.
    apply NoDup_app. split; [exact Hnd|]. split.
    + intros x Hx Hx'. apply list_elem_of_singleton in Hx'. subst.
      apply Map_get_None in E. by apply E.
    + apply NoDup_singleton.
Qed.

Lemma Forall_Map_set (P : JsVal * Item -> Prop) s k it :
  Forall P s -> P (k, it) -> Forall P (Map_set s k it).
Proof.
  intros Hs Hp. induction Hs as [|[k0 i0] s H0 Hs IH]; simpl.
  - by constructor.
  - destruct (decide (k0 = k)); subst; constructor; auto.
Qed.

Lemma Map_delete_keys s k x : x ∈ keys (Map_delete s k) -> x ∈ keys s.
Proof.
  induction s as [|[k0 i0] s IH]; simpl; [done|].
  destruct (decide (k0 = k)); simpl.
  - intros. by apply list_elem_of_further.
  - intros H. apply elem_of_cons in H as [->|H].
    + apply list_elem_of_here.
    + apply list_elem_of_further; auto.
Qed.

Lemma NoDup_Map_delete s k : NoDup (keys s) -> NoDup (keys (Map_delete s k)).
Proof.
  induction s as [|[k0 i0] s IH]; simpl; [done|].
  intros Hnd. apply NoDup_cons in Hnd as [Hnotin Hnd].
  destruct (decide (k0 = k)); simpl; [done|].
  apply NoDup_cons. split; auto.
  intros H. apply Hnotin. eapply Map_delete_keys; eauto.
Qed.

Lemma Forall_Map_delete (P : JsVal * Item -> Prop) s k :
  Forall P s -> Forall P (Map_delete s k).
Proof.
  intros Hs. induction Hs as [|[k0 i0] s H0 Hs IH]; simpl; [constructor|].
  destruct (decide (k0 = k)); auto.
Qed.

Lemma Map_get_delete_eq s k : NoDup (keys s) -> Map_get (Map_delete s k) k = None.
Proof.
  induction s as [|[k0 i0] s IH]; simpl; [done|].
  intros Hnd. apply NoDup_cons in Hnd as [Hnotin Hnd].
  destruct (decide (k0 = k)); simpl; subst.
  - by apply Map_get_None.
  - rewrite decide_False by done. auto.
Qed.

Lemma Map_get_delete_ne s k k' :
  k <> k' -> Map_get (Map_delete s k) k' = Map_get s k'.
Proof.
  intros Hne. induction s as [|[k0 i0] s IH]; simpl; [done|].
  destruct (decide (k0 = k)); simpl; subst.
  - by rewrite decide_False.
  - destruct (decide (k0 = k')); auto.
Qed.

Lemma wf_store_Map_set s k it :
  wf_store s -> timer_ok (k, it) -> wf_store (Map_set s k it).
Proof.
  intros [Hnd Hok] Hit. split.
  - by apply NoDup_Map_set.
  - by apply Forall_Map_set.
Qed.

Lemma wf_store_Map_delete s k : wf_store s -> wf_store (Map_delete s k).
Proof.
  intros [Hnd Hok]. split.
  - by apply NoDup_Map_delete.
  - by apply Forall_Map_delete.
Qed.

Lemma kv_keys s : List.map fst (kv s) = keys s.
Proof. unfold kv, keys. rewrite map_map. reflexivity. Qed.

Lemma kv_app s1 s2 : kv (s1 ++ s2) = kv s1 ++ kv s2.
Proof. unfold kv. apply map_app. Qed.

End MapFacts.

(** ** Footprints of the primitives *)

Ltac run :=
  unfold TempMap.set, TempMap.add, TempMap.update, TempMap.ensure, TempMap.get,
    TempMap.copyItem, TempMap.copy_entry, TempMap.setItem, TempMap.getItem,
    TempMap.setTimeout, TempMap.deleteItem, getValue, getItemTimeout,
    refreshItemTimeout, put_item, host_setTimeout, host_clearTimeout,
    host_refresh, read_store, write_store, Date_now, ask, bind, ret;
  cbn [fst snd].

Lemma store_of_set_store_eq r s w : store_of (set_store r s w) r = s.
Proof. unfold store_of, set_store; simpl. by rewrite lookup_insert_eq. Qed.

Lemma store_of_heap w w' r : heap w' = heap w -> store_of w' r = store_of w r.
Proof. unfold store_of. by intros ->. Qed.

Lemma store_of_insert w w' r s :
  heap w' = <[r := s]> (heap w) -> store_of w' r = s.
Proof. unfold store_of. intros ->. by rewrite lookup_insert_eq. Qed.

Lemma store_of_insert_ne w w' r r' s :
  heap w' = <[r := s]> (heap w) -> r <> r' -> store_of w' r' = store_of w r'.
Proof. unfold store_of. intros -> Hne. by rewrite lookup_insert_ne. Qed.

Lemma touches_refl dest k w : touches dest k w w.
Proof. unfold touches. auto. Qed.

Lemma touches_other dest k w w' r :
  touches dest k w w' -> r <> dest -> store_of w' r = store_of w r.
Proof.
  intros (_ & _ & _ & [H | (it & H & _)]) Hne.
  - by apply store_of_heap.
  - eapply store_of_insert_ne; eauto.
Qed.

Lemma touches_get_ne dest k w w' r k' :
  touches dest k w w' -> k <> k' ->
  Map_get (store_of w' r) k' = Map_get (store_of w r) k'.
Proof.
  intros (_ & _ & _ & [H | (it & H & _)]) Hne.
  - by rewrite (store_of_heap _ _ _ H).
  - destruct (decide (dest = r)) as [->|Hr].
    + rewrite (store_of_insert _ _ _ _ H). by apply Map_get_set_ne.
    + by rewrite (store_of_insert_ne _ _ _ _ _ H Hr).
Qed.

Lemma touches_keys dest k w w' r :
  touches dest k w w' ->
  keys (store_of w' r) = keys (store_of w r) \/
  keys (store_of w' r) = keys (store_of w r) ++ [k].
Proof.
  intros (_ & _ & _ & [H | (it & H & _)]).
  - left. by rewrite (store_of_heap _ _ _ H).
  - destruct (decide (dest = r)) as [->|Hr].
    + rewrite (store_of_insert _ _ _ _ H). apply keys_Map_set.
    + left. by rewrite (store_of_insert_ne _ _ _ _ _ H Hr).
Qed.

Lemma wf_world_store w r : wf_world w -> wf_store (store_of w r).
Proof.
  intros Hwf. unfold store_of. destruct (heap w !! r) as [s|] eqn:E; simpl.
  - by destruct (Hwf _ _ E).
  - split; constructor.
Qed.

Lemma touches_wf dest k w w' :
  touches dest k w w' -> (dest < next_ref w)%nat -> wf_world w -> wf_world w'.
Proof.
  intros (_ & Hr & _ & [H | (it & H & Hok)]) Hdest Hwf; unfold wf_world; rewrite Hr.
  - by rewrite H.
  - rewrite H. apply map_Forall_insert_2; [|exact Hwf].
    split; [exact Hdest|].
    pose proof (wf_world_store w dest Hwf) as Hs.
    apply wf_store_Map_set; [exact Hs|]. apply Hok. by destruct Hs.
Qed.

Lemma getItemTimeout_eq it rt w :
  getItemTimeout (Some it) (negb rt) w = (transplant rt (now w) it, w).
Proof.
  unfold getItemTimeout, transplant, remaining_time.
  destruct it as [v [tm|]]; simpl; [|done].
  destruct rt; simpl; done.
Qed.

Lemma setItem_touches self key item v t w :
  (forall it, item = Some it -> (key, it) ∈ store_of w self) ->
  touches self key w (snd (TempMap.setItem self key item v t w)).
Proof.
  intros Hin. unfold touches.
  destruct item as [[v0 tmo]|].
  - assert (Forall timer_ok (store_of w self) -> timer_ok (key, mkItem v0 tmo)) as Hok0.
    { intros HF. rewrite Forall_forall in HF. by apply HF, Hin. }
    destruct t as [| |n]; run.
    + destruct tmo as [tm|]; run; simpl.
      * repeat split; auto. right. eexists. split; [reflexivity|].
        intros HF. specialize (Hok0 HF). exact Hok0.
      * repeat split; auto. right. eexists. split; [reflexivity|]. done.
    + simpl. repeat split; auto. right. eexists. split; [reflexivity|].
      intros HF. exact (Hok0 HF).
    + destruct tmo as [tm|]; simpl; destruct (0 <? n) eqn:En; simpl;
        repeat split; auto; right; eexists; (split; [reflexivity|]);
        intros _; unfold timer_ok; simpl; auto; by apply Z.ltb_lt.
  - run. destruct t as [| |n]; simpl;
      try (repeat split; auto; right; eexists; (split; [reflexivity|]); done).
    destruct (0 <? n) eqn:En; simpl;
      repeat split; auto; right; eexists; (split; [reflexivity|]);
      intros _; unfold timer_ok; simpl; auto; by apply Z.ltb_lt.
Qed.

Lemma getItem_touches self key rt w :
  touches self key w (snd (TempMap.getItem self key rt w)).
Proof.
  unfold touches. run. destruct rt; [|simpl; auto].
  destruct (Map_get (store_of w self) key) as [[v [tm|]]|] eqn:E; run; simpl.
  - repeat split; auto. right. eexists. split; [reflexivity|].
    intros HF. rewrite Forall_forall in HF.
    exact (HF _ (Map_get_elem _ _ _ E)).
  - repeat split; auto. right. eexists. split; [reflexivity|]. done.
  - auto.
Qed.

Lemma getItem_refresh self key w :
  fst (TempMap.getItem self key true w)
    = refresh_at (now w) <$> Map_get (store_of w self) key /\
  Map_get (store_of (snd (TempMap.getItem self key true w)) self) key
    = refresh_at (now w) <$> Map_get (store_of w self) key.
Proof.
  run. destruct (Map_get (store_of w self) key) as [[v [tm|]]|] eqn:E; run; simpl.
  - split; [done|]. rewrite store_of_set_store_eq. apply Map_get_set_eq.
  - split; [done|]. rewrite store_of_set_store_eq. apply Map_get_set_eq.
  - split; [done|]. exact E.
Qed.

Lemma getItem_keep self key w :
  TempMap.getItem self key false w = (Map_get (store_of w self) key, w).
Proof. reflexivity. Qed.

Lemma getItem_miss self key rt w :
  Map_get (store_of w self) key = None ->
  TempMap.getItem self key rt w = (None, w).
Proof. intros E. run. rewrite E. by destruct rt. Qed.

Lemma set_touches self key v t w :
  touches self key w (snd (TempMap.set self key v t w)).
Proof.
  unfold TempMap.set, bind, read_store; cbn [fst snd].
  apply setItem_touches. intros it E. by apply Map_get_elem.
Qed.

Lemma set_fresh self key v t w :
  Map_get (store_of w self) key = None ->
  TempMap.set self key v t w = TempMap.setItem self key None v t w.
Proof. intros E. unfold TempMap.set, bind, read_store; cbn [fst snd]. by rewrite E. Qed.

Lemma ensure_fresh self key v t rt w :
  Map_get (store_of w self) key = None ->
  TempMap.ensure self key (DFactory (fun _ _ _ => v)) t rt w
    = TempMap.setItem self key None v t w.
Proof.
  intros E. unfold TempMap.ensure, bind; cbn [fst snd].
  rewrite (getItem_miss _ _ _ _ E). reflexivity.
Qed.

Lemma ensure_hit self key d t it w :
  Map_get (store_of w self) key = Some it ->
  TempMap.ensure self key d t true w
    = (value it, snd (TempMap.getItem self key true w)).
Proof.
  intros E. unfold TempMap.ensure, bind; cbn [fst snd].
  destruct (getItem_refresh self key w) as [H1 _]. rewrite E in H1.
  rewrite H1. reflexivity.
Qed.

Lemma getValue_world d key self w : snd (getValue d key self w) = w.
Proof. by destruct d. Qed.

Lemma ensure_touches self key d t rt w :
  touches self key w (snd (TempMap.ensure self key d t rt w)).
Proof.
  destruct (Map_get (store_of w self) key) as [it|] eqn:E.
  - unfold TempMap.ensure, bind; cbn [fst snd].
    destruct rt.
    + destruct (getItem_refresh self key w) as [H1 _]. rewrite E in H1.
      rewrite H1. apply getItem_touches.
    + rewrite getItem_keep, E. simpl. apply touches_refl.
  - unfold TempMap.ensure, bind; cbn [fst snd].
    rewrite (getItem_miss _ _ _ _ E). cbn [fst snd].
    rewrite getValue_world. apply setItem_touches; done.
Qed.

Lemma add_touches self key v t w :
  touches self key w (snd (TempMap.add self key v t w)).
Proof.
  unfold TempMap.add, bind, read_store; cbn [fst snd].
  destruct (Map_get (store_of w self) key).
  - apply touches_refl.
  - apply setItem_touches. done.
Qed.

Lemma update_touches self key v t w :
  touches self key w (snd (TempMap.update self key v t w)).
Proof.
  unfold TempMap.update, bind, read_store; cbn [fst snd].
  destruct (Map_get (store_of w self) key) eqn:E.
  - apply setItem_touches. intros it [= <-]. by apply Map_get_elem.
  - apply touches_refl.
Qed.

Lemma get_touches self key rt w :
  touches self key w (snd (TempMap.get self key rt w)).
Proof. unfold TempMap.get, bind; cbn [fst snd]. apply getItem_touches. Qed.

Lemma copyItem_eq self key it ens rt w :
  TempMap.copyItem self key it ens rt w =
  match transplant rt (now w) it with
  | TNull => (VUndefined, w)
  | t => if ens
         then TempMap.ensure self key (DFactory (fun _ _ _ => value it)) t true w
         else TempMap.set self key (value it) t w
  end.
Proof.
  unfold TempMap.copyItem, bind. rewrite getItemTimeout_eq. cbn [fst snd].
  destruct (transplant rt (now w) it); destruct ens; reflexivity.
Qed.

Lemma copyItem_touches self key it ens rt w :
  touches self key w (snd (TempMap.copyItem self key it ens rt w)).
Proof.
  rewrite copyItem_eq.
  destruct (transplant rt (now w) it); destruct ens;
    try apply touches_refl; try apply ensure_touches; apply set_touches.
Qed.

(** An entry whose remaining time has run out is skipped by a copy that
    keeps the countdown. *)
Lemma copyItem_expired self key it ens w :
  expired (now w) it = true ->
  TempMap.copyItem self key it ens false w = (VUndefined, w).
Proof.
  intros He. rewrite copyItem_eq. unfold transplant, expired in *.
  destruct (timer it) as [tm|]; [|done].
  apply Z.leb_le in He.
  destruct (0 <? remaining_time (now w) tm) eqn:E; [|done].
  apply Z.ltb_lt in E. lia.
Qed.

Lemma copy_entry_touches dest ens rt e w :
  touches dest (fst e) w (snd (TempMap.copy_entry dest ens rt e w)).
Proof. unfold TempMap.copy_entry, bind, ret; cbn [fst snd]. apply copyItem_touches. Qed.

(** ** Loops *)

Lemma for_each_inv {A} (P : World -> Prop) (l : list A) (body : A -> M unit) :
  (forall e w, e ∈ l -> P w -> P (snd (body e w))) ->
  forall w, P w -> P (snd (for_each l body w)).
Proof.
  induction l as [|x l IH]; intros Hstep w Hw; simpl; [exact Hw|].
  unfold bind; cbn [fst snd]. apply IH.
  - intros e w' He. apply Hstep. by apply list_elem_of_further.
  - apply Hstep; [apply list_elem_of_here | exact Hw].
Qed.

Lemma for_each_cons {A} (x : A) (l : list A) (body : A -> M unit) w :
  snd (for_each (x :: l) body w) = snd (for_each l body (snd (body x w))).
Proof. reflexivity. Qed.


Lemma fold_recorder this self (es : list (JsVal * JsVal)) :
  forall log,
    fold_left (fun a e => call recorder this (fst e) (snd e) self a) es log
    = log ++ List.map (fun e => (this, fst e, snd e, self)) es.
Proof.
  induction es as [|e es IH]; intros log; simpl.
  - by rewrite app_nil_r.
  - rewrite IH. by rewrite <- app_assoc.
Qed.

(** ** Copying into a destination that does not hold the key *)

Lemma setItem_new_timer self key v n w :
  0 < n ->
  snd (TempMap.setItem self key None v (TNumber n) w) =
  mkWorld (now w) (S (next_handle w))
    (<[next_handle w := mkTimeout (host_delay n) (Some (now w + host_delay n)) self key]> (timeouts w))
    (next_ref w)
    (<[self := Map_set (store_of w self) key
                 (mkItem v (Some (mkTimer (next_handle w) n (now w))))]> (heap w)).
Proof.
  intros Hn. apply Z.ltb_lt in Hn. run. rewrite Hn. reflexivity.
Qed.

Lemma setItem_new_plain self key v t w :
  match t with TNumber n => n <= 0 | _ => True end ->
  snd (TempMap.setItem self key None v t w) =
  set_store self (Map_set (store_of w self) key (mkItem v None)) w.
Proof.
  intros Ht. run. destruct t as [| |n]; simpl; try reflexivity.
  apply Z.ltb_ge in Ht. rewrite Ht. reflexivity.
Qed.

Lemma copyItem_fresh dest key it ens rt w :
  Map_get (store_of w dest) key = None ->
  snd (TempMap.copyItem dest key it ens rt w) =
  match copy_item rt (now w) (next_handle w) it with
  | None => w
  | Some it' =>
      mkWorld (now w)
        (match timer it' with Some _ => S (next_handle w) | None => next_handle w end)
        (match timer it' with
         | Some tm => <[next_handle w :=
                         mkTimeout (host_delay (timeout tm)) (Some (now w + host_delay (timeout tm))) dest key]>
                        (timeouts w)
         | None => timeouts w
         end)
        (next_ref w)
        (<[dest := store_of w dest ++ [(key, it')]]> (heap w))
  end.
Proof.
  intros E. rewrite copyItem_eq. unfold copy_item.
  destruct (transplant rt (now w) it) as [| |n] eqn:Et.
  - assert (snd (TempMap.setItem dest key None (value it) TUndefined w) =
            set_store dest (Map_set (store_of w dest) key (mkItem (value it) None)) w)
      as H by (by apply setItem_new_plain).
    destruct ens; rewrite ?ensure_fresh, ?set_fresh by done; rewrite H;
      rewrite Map_set_absent by done; reflexivity.
  - reflexivity.
  - destruct (0 <? n) eqn:En.
    + apply Z.ltb_lt in En.
      destruct ens; rewrite ?ensure_fresh, ?set_fresh by done;
        rewrite setItem_new_timer by done;
        rewrite Map_set_absent by done; reflexivity.
    + apply Z.ltb_ge in En.
      assert (snd (TempMap.setItem dest key None (value it) (TNumber n) w) =
              set_store dest (Map_set (store_of w dest) key (mkItem (value it) None)) w)
        as H by (by apply setItem_new_plain).
      destruct ens; rewrite ?ensure_fresh, ?set_fresh by done; rewrite H;
        rewrite Map_set_absent by done; reflexivity.
Qed.

Lemma Map_get_app_None (s1 s2 : Store) k :
  Map_get s1 k = None -> Map_get (s1 ++ s2) k = Map_get s2 k.
Proof.
  induction s1 as [|[k0 i0] s1 IH]; simpl; [done|].
  destruct (decide (k0 = k)); [done|]. auto.
Qed.

Lemma copy_item_timer rt t h it it' tm :
  copy_item rt t h it = Some it' -> timer it' = Some tm ->
  handle tm = h /\ timestamp tm = t /\ 0 < timeout tm /\
  transplant rt t it = TNumber (timeout tm).
Proof.
  unfold copy_item. destruct (transplant rt t it) as [| |n]; try done.
  - intros [= <-]. done.
  - intros [= <-]. simpl. destruct (0 <? n) eqn:En; [|done].
    intros [= <-]. simpl. apply Z.ltb_lt in En. done.
Qed.

Lemma copy_item_value rt t h it it' :
  copy_item rt t h it = Some it' -> value it' = value it.
Proof.
  unfold copy_item. destruct (transplant rt t it) as [| |n]; try done;
    by intros [= <-].
Qed.

(** The copy loop of [clone], [filter], [concat] and [sort] when the
    destination holds none of the keys it is fed. *)
Lemma copy_loop_fresh dest ens rt (l : Store) :
  forall w,
    NoDup (keys l) ->
    (forall k, k ∈ keys l -> Map_get (store_of w dest) k = None) ->
    let w' := snd (for_each l (TempMap.copy_entry dest ens rt) w) in
    store_of w' dest
      = store_of w dest ++ copy_items rt (now w) (next_handle w) l /\
    (forall h, (h < next_handle w)%nat -> timeouts w' !! h = timeouts w !! h) /\
    (forall k it tm,
        (k, it) ∈ copy_items rt (now w) (next_handle w) l ->
        timer it = Some tm ->
        timeouts w' !! handle tm
          = Some (mkTimeout (host_delay (timeout tm)) (Some (now w + host_delay (timeout tm))) dest k)).
Proof.
  induction l as [|[k it] l IH]; intros w Hnd Hfresh; cbn zeta.
  - simpl. rewrite app_nil_r. split; [done|]. split; [done|].
    intros k it tm H. by apply elem_of_nil in H.
  - simpl in Hnd. apply NoDup_cons in Hnd as [Hk Hnd].
    assert (Map_get (store_of w dest) k = None) as Ek
      by (apply Hfresh; simpl; apply list_elem_of_here).
    rewrite for_each_cons.
    set (w1 := snd (TempMap.copy_entry dest ens rt (k, it) w)).
    assert (w1 = snd (TempMap.copyItem dest k it ens rt w)) as Hw1 by reflexivity.
    rewrite (copyItem_fresh _ _ _ _ _ _ Ek) in Hw1.
    cbn [copy_items].
    destruct (copy_item rt (now w) (next_handle w) it) as [it'|] eqn:Ec.
    + assert (now w1 = now w) as Hnow by (by rewrite Hw1).
      assert (store_of w1 dest = store_of w dest ++ [(k, it')]) as Hst.
      { rewrite Hw1. unfold store_of at 1. simpl. by rewrite lookup_insert_eq. }
      assert (next_handle w1 =
              match timer it' with Some _ => S (next_handle w) | None => next_handle w end)
        as Hnh by (by rewrite Hw1).
      destruct (IH w1 Hnd) as (H1 & H2 & H3).
      { intros k' Hk'. rewrite Hst. rewrite Map_get_app_None.
        - simpl. rewrite decide_False; [done|]. intros ->. by apply Hk.
        - apply Hfresh. simpl. by apply list_elem_of_further. }
      rewrite Hnow, Hnh in H1, H3. rewrite Hnh in H2.
      split; [|split].
      * rewrite H1, Hst. by rewrite <- app_assoc.
      * intros h Hh. rewrite H2.
        -- rewrite Hw1. simpl. destruct (timer it'); [|done].
           rewrite lookup_insert_ne; [done|lia].
        -- destruct (timer it'); lia.
      * intros k0 it0 tm0 Hin Htm. apply elem_of_cons in Hin as [[= -> ->]|Hin].
        -- destruct (copy_item_timer _ _ _ _ _ _ Ec Htm) as (Hh & _ & _ & _).
           rewrite H2.
           ++ rewrite Hw1. simpl. rewrite Htm, Hh. by rewrite lookup_insert_eq.
           ++ rewrite Htm, Hh. lia.
        -- eapply H3; eauto.
    + subst w1. rewrite Hw1. apply (IH w Hnd).
      intros k' Hk'. apply Hfresh. simpl. by apply list_elem_of_further.
Qed.

(** ** What a copy loop appends *)

Lemma copy_item_copied rt t h e :
  copied rt t e = match copy_item rt t h (snd e) with Some _ => true | None => false end.
Proof.
  unfold copied, copy_item, transplant, expired.
  destruct (timer (snd e)) as [tm|]; destruct rt; simpl; try done.
  destruct (0 <? remaining_time t tm) eqn:E1, (remaining_time t tm <=? 0) eqn:E2;
    try done.
  - apply Z.ltb_lt in E1. apply Z.leb_le in E2. lia.
  - apply Z.ltb_ge in E1. apply Z.leb_gt in E2. lia.
Qed.

Lemma kv_copy_items rt t (l : Store) :
  forall h, kv (copy_items rt t h l) = kv (List.filter (copied rt t) l).
Proof.
  induction l as [|[k it] l IH]; intros h; simpl; [done|].
  rewrite (copy_item_copied rt t h (k, it)). simpl.
  destruct (copy_item rt t h it) as [it'|] eqn:E; simpl.
  - rewrite IH. by rewrite (copy_item_value _ _ _ _ _ E).
  - apply IH.
Qed.

Lemma keys_filter_elem (p : JsVal * Item -> bool) (l : Store) k :
  k ∈ keys (List.filter p l) -> k ∈ keys l.
Proof.
  induction l as [|e l IH]; simpl; [done|].
  destruct (p e); simpl.
  - intros H. apply elem_of_cons in H as [->|H].
    + apply list_elem_of_here.
    + apply list_elem_of_further; auto.
  - intros H. apply list_elem_of_further; auto.
Qed.

Lemma NoDup_keys_filter (p : JsVal * Item -> bool) (l : Store) :
  NoDup (keys l) -> NoDup (keys (List.filter p l)).
Proof.
  induction l as [|e l IH]; simpl; [done|].
  intros Hnd. apply NoDup_cons in Hnd as [Hnotin Hnd].
  destruct (p e); simpl; auto.
  apply NoDup_cons. split; auto.
  intros H. apply Hnotin. eapply keys_filter_elem; eauto.
Qed.

Lemma keys_copy_items rt t h (l : Store) :
  keys (copy_items rt t h l) = keys (List.filter (copied rt t) l).
Proof. rewrite <- !kv_keys. by rewrite kv_copy_items. Qed.

Lemma NoDup_copy_items rt t h (l : Store) :
  NoDup (keys l) -> NoDup (keys (copy_items rt t h l)).
Proof. intros H. rewrite keys_copy_items. by apply NoDup_keys_filter. Qed.

Lemma copy_items_keys_elem rt t h (l : Store) k :
  k ∈ keys (copy_items rt t h l) -> k ∈ keys l.
Proof. rewrite keys_copy_items. apply keys_filter_elem. Qed.

(** A copied entry that carries a timer: the value is the source's, the
    duration is the transplanted one, the start instant is the instant of
    the copy. *)
Lemma copy_items_entry rt t (l : Store) k it n :
  forall h,
    (k, it) ∈ l -> transplant rt t it = TNumber n -> 0 < n ->
    exists h', (k, mkItem (value it) (Some (mkTimer h' n t))) ∈ copy_items rt t h l.
Proof.
  induction l as [|[k0 it0] l IH]; intros h Hin Ht Hn.
  - by apply elem_of_nil in Hin.
  - simpl. apply elem_of_cons in Hin as [[= <- <-]|Hin].
    + unfold copy_item at 1. rewrite Ht.
      apply Z.ltb_lt in Hn. rewrite Hn.
      exists h. apply list_elem_of_here.
    + destruct (copy_item rt t h it0) as [it'|].
      * destruct (IH (match timer it' with Some _ => S h | None => h end)
                    Hin Ht Hn) as [h' Hh'].
        exists h'. apply list_elem_of_further. exact Hh'.
      * by apply IH.
Qed.

Lemma copy_items_skip rt t (l : Store) k :
  forall h,
    (forall it, (k, it) ∈ l -> copied rt t (k, it) = false) ->
    k ∉ keys (copy_items rt t h l).
Proof.
  intros h Hall. rewrite keys_copy_items.
  induction l as [|[k0 it0] l IH]; simpl.
  - apply not_elem_of_nil.
  - destruct (copied rt t (k0, it0)) eqn:E; simpl.
    + apply not_elem_of_cons. split.
      * intros ->. rewrite Hall in E; [done|]. apply list_elem_of_here.
      * apply IH. intros it Hit. apply Hall. by apply list_elem_of_further.
    + apply IH. intros it Hit. apply Hall. by apply list_elem_of_further.
Qed.

(** ** Frames *)

Lemma same_but_refl dest w : same_but dest w w.
Proof. by split. Qed.

Lemma same_but_trans dest w1 w2 w3 :
  same_but dest w1 w2 -> same_but dest w2 w3 -> same_but dest w1 w3.
Proof.
  intros [Ha Hb] [Hc Hd]. split; [congruence|].
  intros r Hr. rewrite Hd, Hb; auto.
Qed.

Lemma touches_same_but dest k w w' : touches dest k w w' -> same_but dest w w'.
Proof.
  intros H. split; [apply H|]. intros r Hr. eapply touches_other; eauto.
Qed.

Lemma copy_loop_same_but dest ens rt (l : Store) w :
  same_but dest w (snd (for_each l (TempMap.copy_entry dest ens rt) w)).
Proof.
  apply (for_each_inv (same_but dest w)); [|apply same_but_refl].
  intros e w' _ Hw'. eapply same_but_trans; [exact Hw'|].
  eapply touches_same_but, copy_entry_touches.
Qed.

Lemma copy_loop_wf dest ens rt (l : Store) w :
  wf_world w -> (dest < next_ref w)%nat ->
  wf_world (snd (for_each l (TempMap.copy_entry dest ens rt) w)).
Proof.
  intros Hwf Hd.
  apply (for_each_inv (fun w' => wf_world w' /\ next_ref w' = next_ref w));
    [|by split].
  intros e w' _ [Hw' Hr]. pose proof (copy_entry_touches dest ens rt e w') as Ht.
  split.
  - eapply touches_wf; eauto. lia.
  - destruct Ht as (_ & -> & _). exact Hr.
Qed.

(** ** [new TempMap()] *)

Lemma wf_world_fresh_ref w : wf_world w -> heap w !! next_ref w = None.
Proof.
  intros Hwf. destruct (heap w !! next_ref w) as [s|] eqn:E; [|done].
  destruct (Hwf _ _ E) as [Hlt _]. lia.
Qed.

Lemma new_TempMap_store w r :
  wf_world w -> store_of (snd (new_TempMap w)) r = store_of w r.
Proof.
  intros Hwf. unfold new_TempMap, store_of; simpl.
  destruct (decide (next_ref w = r)) as [<-|Hne].
  - rewrite lookup_insert_eq. by rewrite wf_world_fresh_ref.
  - by rewrite lookup_insert_ne.
Qed.

Lemma new_TempMap_wf w : wf_world w -> wf_world (snd (new_TempMap w)).
Proof.
  intros Hwf. unfold new_TempMap, wf_world; simpl.
  apply map_Forall_insert_2.
  - split; [lia|]. split; constructor.
  - intros r s Hrs. destruct (Hwf _ _ Hrs) as [Hlt Hs]. split; [lia|done].
Qed.

(** ** Building a new container by a copy loop *)

Lemma build_spec (l : Store) rt w :
  wf_world w -> NoDup (keys l) ->
  let m := next_ref w in
  let w' := snd (for_each l (TempMap.copy_entry m false rt) (snd (new_TempMap w))) in
  now w' = now w /\
  store_of w' m = copy_items rt (now w) (next_handle w) l /\
  (forall r, r <> m -> store_of w' r = store_of w r) /\
  (forall k it tm,
      (k, it) ∈ store_of w' m -> timer it = Some tm ->
      timeouts w' !! handle tm
        = Some (mkTimeout (host_delay (timeout tm)) (Some (now w + host_delay (timeout tm))) m k)) /\
  wf_world w' /\ next_ref w' = S (next_ref w).
Proof.
  intros Hwf Hnd. cbn zeta.
  set (w0 := snd (new_TempMap w)).
  assert (store_of w0 (next_ref w) = []) as Hd.
  { unfold w0, new_TempMap, store_of; simpl. by rewrite lookup_insert_eq. }
  destruct (copy_loop_fresh (next_ref w) false rt l w0 Hnd) as (H1 & H2 & H3).
  { intros k _. by rewrite Hd. }
  pose proof (copy_loop_same_but (next_ref w) false rt l w0) as [Hnow Hfr].
  rewrite Hd in H1. simpl in H1.
  change (now w0) with (now w) in *. change (next_handle w0) with (next_handle w) in *.
  split; [exact Hnow|]. split; [exact H1|]. split; [|split; [|split]].
  - intros r Hr. rewrite Hfr by done. by apply new_TempMap_store.
  - intros k it tm Hin Htm. rewrite H1 in Hin. eapply H3; eauto.
  - apply copy_loop_wf; [by apply new_TempMap_wf|]. simpl. lia.
  - apply (for_each_inv (fun w' => next_ref w' = S (next_ref w))); [|done].
    intros e w1 _ Hw1. pose proof (copy_entry_touches (next_ref w) false rt e w1) as Ht.
    destruct Ht as (_ & -> & _). exact Hw1.
Qed.

(** ** [clone] *)

Lemma clone_eq self rt w :
  wf_world w ->
  TempMap.clone self rt w =
  (next_ref w,
   snd (for_each (store_of w self) (TempMap.copy_entry (next_ref w) false rt)
          (snd (new_TempMap w)))).
Proof.
  intros Hwf. unfold TempMap.clone, bind, ret, read_store; cbn [fst snd].
  rewrite new_TempMap_store by done. reflexivity.
Qed.

(** ** [filter] *)

Lemma filter_loop dest self (fn : Predicate) rt (p : JsVal * Item -> bool)
    (l : Store) :
  forall w,
    (forall w' e, same_but dest w w' -> e ∈ l ->
                  fn (value (snd e)) (fst e) self w' = p e) ->
    snd (for_each l
           (fun e => b <- ask (fn (value (snd e)) (fst e) self) ;;
                     if b then TempMap.copy_entry dest false rt e else ret tt) w)
    = snd (for_each (List.filter p l) (TempMap.copy_entry dest false rt) w).
Proof.
  induction l as [|e l IH]; intros w Hp; [done|].
  rewrite for_each_cons. simpl List.filter.
  assert (fn (value (snd e)) (fst e) self w = p e) as He.
  { apply Hp; [apply same_but_refl | apply list_elem_of_here]. }
  unfold bind at 2, ask. cbn [fst snd]. rewrite He.
  destruct (p e).
  - rewrite for_each_cons. apply IH.
    intros w' e' Hw' He'. apply Hp; [|by apply list_elem_of_further].
    eapply same_but_trans; [|exact Hw'].
    eapply touches_same_but, copy_entry_touches.
  - cbn [snd ret]. apply IH.
    intros w' e' Hw' He'. apply Hp; [exact Hw'|by apply list_elem_of_further].
Qed.

Lemma filter_eq self (fn : Predicate) rt (p : JsVal * Item -> bool) w :
  wf_world w ->
  (forall w' e, same_but (next_ref w) w w' -> e ∈ store_of w self ->
                fn (value (snd e)) (fst e) self w' = p e) ->
  TempMap.filter self fn rt w =
  (next_ref w,
   snd (for_each (List.filter p (store_of w self))
          (TempMap.copy_entry (next_ref w) false rt) (snd (new_TempMap w)))).
Proof.
  intros Hwf Hp. unfold TempMap.filter. unfold bind at 1 2 3, ret, read_store.
  cbn [fst snd]. rewrite new_TempMap_store by done.
  change (fst (new_TempMap w)) with (next_ref w). f_equal.
  apply filter_loop. intros w' e Hw' He. apply Hp; [|exact He].
  eapply same_but_trans; [|exact Hw']. split; [done|].
  intros r Hr. by apply new_TempMap_store.
Qed.

Lemma keys_filter_inv (p : JsVal * Item -> bool) (l : Store) k :
  k ∈ keys (List.filter p l) -> exists it, (k, it) ∈ l /\ p (k, it) = true.
Proof.
  induction l as [|[k0 it0] l IH]; simpl; [by intros H; apply elem_of_nil in H|].
  destruct (p (k0, it0)) eqn:E; simpl.
  - intros H. apply elem_of_cons in H as [->|H].
    + exists it0. split; [apply list_elem_of_here | exact E].
    + destruct (IH H) as (it & Hin & Hp). exists it.
      split; [by apply list_elem_of_further | exact Hp].
  - intros H. destruct (IH H) as (it & Hin & Hp). exists it.
    split; [by apply list_elem_of_further | exact Hp].
Qed.

Lemma filter_all {A} (p : A -> bool) (l : list A) :
  (forall x, p x = true) -> List.filter p l = l.
Proof.
  intros Hp. induction l as [|x l IH]; simpl; [done|]. by rewrite Hp, IH.
Qed.

Lemma kv_copy_items_refresh t h (l : Store) : kv (copy_items true t h l) = kv l.
Proof. rewrite kv_copy_items. by rewrite filter_all. Qed.

Lemma Map_has_true (s : Store) k : Map_has s k = true <-> k ∈ keys s.
Proof.
  unfold Map_has. destruct (Map_get s k) eqn:E.
  - split; [|done]. intros _. apply Map_get_elem in E. eapply elem_keys; eauto.
  - split; [done|]. intros H. apply Map_get_None in E. done.
Qed.

(** ** [concat] *)

Lemma concat_eq self other rt w :
  self <> other ->
  TempMap.concat self other rt w =
  (self, snd (for_each (store_of w other) (TempMap.copy_entry self true rt) w)).
Proof.
  intros Hne. unfold TempMap.concat. rewrite decide_False by done.
  reflexivity.
Qed.

Lemma concat_self m rt w : TempMap.concat m m rt w = (m, w).
Proof. unfold TempMap.concat. by rewrite decide_True. Qed.

(** ** [intersect] and [difference] *)

Lemma intersect_spec self other rt w :
  wf_world w -> (other < next_ref w)%nat ->
  let m := fst (TempMap.intersect self other rt w) in
  let w' := snd (TempMap.intersect self other rt w) in
  m = next_ref w /\
  store_of w' m
    = copy_items rt (now w) (next_handle w)
        (List.filter (in_both (store_of w other)) (store_of w self)) /\
  wf_world w'.
Proof.
  intros Hwf Ho. cbn zeta. unfold TempMap.intersect.
  rewrite (filter_eq self _ rt (in_both (store_of w other)) w Hwf).
  - cbn [fst snd].
    destruct (build_spec (List.filter (in_both (store_of w other)) (store_of w self))
                rt w Hwf) as (_ & H2 & _ & _ & H5 & _).
    { apply NoDup_keys_filter. by destruct (wf_world_store w self Hwf). }
    done.
  - intros w' e [_ Hfr] _. unfold in_both. rewrite Hfr by lia. reflexivity.
Qed.

Lemma difference_spec self other rt w :
  wf_world w -> (self < next_ref w)%nat -> (other < next_ref w)%nat ->
  let m := fst (TempMap.difference self other rt w) in
  let w' := snd (TempMap.difference self other rt w) in
  m = next_ref w /\
  kv (store_of w' m)
    = kv (List.filter (copied rt (now w))
            (List.filter (not_in (store_of w other)) (store_of w self))) ++
      kv (List.filter (copied rt (now w))
            (List.filter (not_in (store_of w self)) (store_of w other))) /\
  wf_world w'.
Proof.
  intros Hwf Hs Ho.
  set (A := List.filter (not_in (store_of w other)) (store_of w self)).
  set (B := List.filter (not_in (store_of w self)) (store_of w other)).
  destruct (build_spec A rt w Hwf) as (Hnow1 & Ha1 & Hfr1 & _ & Hwf1 & Href1).
  { apply NoDup_keys_filter. by destruct (wf_world_store w self Hwf). }
  set (w1 := snd (for_each A (TempMap.copy_entry (next_ref w) false rt)
                    (snd (new_TempMap w)))) in *.
  destruct (build_spec B rt w1 Hwf1) as (Hnow2 & Hb2 & Hfr2 & _ & Hwf2 & Href2).
  { apply NoDup_keys_filter. by destruct (wf_world_store w other Hwf). }
  set (w2 := snd (for_each B (TempMap.copy_entry (next_ref w1) false rt)
                    (snd (new_TempMap w1)))) in *.
  assert (TempMap.difference self other rt w =
          (next_ref w,
           snd (for_each (store_of w2 (next_ref w1))
                  (TempMap.copy_entry (next_ref w) true true) w2))) as Heq.
  { unfold TempMap.difference. unfold bind at 1. cbv beta.
    rewrite (filter_eq self _ rt (not_in (store_of w other)) w Hwf);
      [|intros w' e [_ Hfr] _; unfold not_in; rewrite Hfr by lia; reflexivity].
    cbn [fst snd]. fold A. fold w1.
    unfold bind at 1. cbv beta.
    rewrite (filter_eq other _ rt (not_in (store_of w self)) w1 Hwf1);
      [|intros w' e [_ Hfr] _; unfold not_in; rewrite Hfr by lia;
        rewrite Hfr1 by lia; reflexivity].
    cbn [fst snd]. rewrite (Hfr1 other) by lia. fold B. fold w2.
    rewrite concat_eq by lia. reflexivity. }
  cbn zeta. rewrite Heq. cbn [fst snd].
  split; [done|].
  assert (store_of w2 (next_ref w) = copy_items rt (now w) (next_handle w) A) as Ha2.
  { rewrite Hfr2 by lia. exact Ha1. }
  destruct (copy_loop_fresh (next_ref w) true true (store_of w2 (next_ref w1)) w2)
    as (H1 & _ & _).
  { by destruct (wf_world_store w2 (next_ref w1) Hwf2). }
  { intros k Hk. apply Map_get_None. rewrite Ha2. intros Hka.
    rewrite Hb2 in Hk. apply copy_items_keys_elem in Hk.
    apply copy_items_keys_elem in Hka.
    apply keys_filter_inv in Hk as (it & _ & Hp).
    apply keys_filter_elem in Hka.
    unfold not_in in Hp. simpl in Hp. apply negb_true_iff in Hp.
    apply Map_has_true in Hka. congruence. }
  split.
  - rewrite H1, Ha2, Hb2, kv_app, kv_copy_items_refresh, !kv_copy_items.
    by rewrite Hnow1.
  - apply copy_loop_wf; [exact Hwf2|]. lia.
Qed.

(** ** [delete], [sweep] and [clear] *)

Lemma Map_has_store w self k : Map_has (store_of w self) k = true -> is_Some (heap w !! self).
Proof.
  unfold store_of. destruct (heap w !! self); [by eexists|]. simpl. done.
Qed.

Lemma deleteItem_removes self key item w :
  removes self key w (snd (TempMap.deleteItem self key item w)).
Proof.
  unfold removes, TempMap.deleteItem. destruct item as [it|]; [|run; auto].
  run. destruct (Map_has (store_of w self) key) eqn:E; cbn [fst snd]; [|auto].
  apply Map_has_store in E.
  destruct (timer it); simpl; repeat split; auto.
Qed.

Lemma removes_wf self k w w' : removes self k w w' -> wf_world w -> wf_world w'.
Proof.
  intros (_ & Hr & _ & [H | ([s Hs] & H)]) Hwf; unfold wf_world; rewrite Hr, H.
  - exact Hwf.
  - apply map_Forall_insert_2; [|exact Hwf].
    destruct (Hwf _ _ Hs) as [Hlt Hst]. split; [exact Hlt|].
    apply wf_store_Map_delete. by apply wf_world_store.
Qed.

Lemma removes_other self k w w' r :
  removes self k w w' -> r <> self -> store_of w' r = store_of w r.
Proof.
  intros (_ & _ & _ & [H | (_ & H)]) Hne.
  - by apply store_of_heap.
  - eapply store_of_insert_ne; eauto.
Qed.

Lemma delete_removes self key w :
  removes self key w (snd (TempMap.delete self key w)).
Proof.
  unfold TempMap.delete, bind, read_store, ret; cbn [fst snd].
  apply deleteItem_removes.
Qed.

Lemma sweep_world self (fn : Predicate) w :
  snd (TempMap.sweep self fn w) =
  snd (for_each (store_of w self)
         (fun e => b <- ask (fn (value (snd e)) (fst e) self) ;;
                   if b then TempMap.deleteItem self (fst e) (Some (snd e)) ;;; ret tt
                   else ret tt) w).
Proof. reflexivity. Qed.

Lemma sweep_step self (fn : Predicate) e w :
  removes self (fst e) w
    (snd ((b <- ask (fn (value (snd e)) (fst e) self) ;;
           if b then TempMap.deleteItem self (fst e) (Some (snd e)) ;;; ret tt
           else ret tt) w)).
Proof.
  unfold bind at 1, ask. cbn [fst snd].
  destruct (fn (value (snd e)) (fst e) self w).
  - unfold bind, ret. cbn [fst snd]. apply deleteItem_removes.
  - unfold removes. simpl. auto.
Qed.

Lemma sweep_frame self (fn : Predicate) w :
  let w' := snd (TempMap.sweep self fn w) in
  now w' = now w /\ next_ref w' = next_ref w /\ next_handle w' = next_handle w /\
  (forall r, r <> self -> store_of w' r = store_of w r) /\
  (wf_world w -> wf_world w').
Proof.
  cbn zeta. rewrite sweep_world.
  apply (for_each_inv
           (fun w' => now w' = now w /\ next_ref w' = next_ref w /\
                      next_handle w' = next_handle w /\
                      (forall r, r <> self -> store_of w' r = store_of w r) /\
                      (wf_world w -> wf_world w'))).
  - intros e w1 _ (H1 & H2 & H3 & H4 & H5).
    pose proof (sweep_step self fn e w1) as Hrm.
    destruct Hrm as (R1 & R2 & R3 & R4).
    split; [congruence|]. split; [congruence|]. split; [congruence|]. split.
    + intros r Hr. rewrite <- H4 by done.
      eapply removes_other; [|exact Hr]. exact (conj R1 (conj R2 (conj R3 R4))).
    + intros Hwf. eapply removes_wf; [|exact (H5 Hwf)].
      exact (conj R1 (conj R2 (conj R3 R4))).
  - split; [done|]. split; [done|]. split; [done|]. split; done.
Qed.

Lemma clear_loop self (l : Store) :
  forall w,
    store_of w self = l ->
    store_of
      (snd (for_each l
              (fun e => b <- ask ((fun _ _ _ _ => true) (value (snd e)) (fst e) self) ;;
                        if b then TempMap.deleteItem self (fst e) (Some (snd e)) ;;; ret tt
                        else ret tt) w)) self = [].
Proof.
  induction l as [|[k it] l IH]; intros w Hs; [exact Hs|].
  rewrite for_each_cons. apply IH.
  run. rewrite Hs. unfold Map_has. simpl. rewrite decide_True by done.
  cbn [fst snd]. rewrite decide_True by done.
  destruct (timer it); cbn [snd]; unfold store_of; simpl;
    by rewrite lookup_insert_eq.
Qed.

Lemma clear_empties self w : store_of (snd (TempMap.clear self w)) self = [].
Proof. unfold TempMap.clear. rewrite sweep_world. by apply clear_loop. Qed.

(** ** [Array.prototype.sort] *)

Lemma sort_insert_perm {A} (cmp : A -> A -> Z) x (l : list A) :
  sort_insert cmp x l ≡ₚ x :: l.
Proof.
  induction l as [|y l IH]; simpl; [done|].
  destruct (0 <? cmp x y); [|done].
  rewrite IH. apply Permutation_swap.
Qed.

Lemma Array_sort_perm {A} (cmp : A -> A -> Z) (l : list A) :
  Array_sort cmp l ≡ₚ l.
Proof.
  induction l as [|x l IH]; simpl; [done|].
  rewrite sort_insert_perm. by rewrite IH.
Qed.

Lemma Array_sort_keys (cmp : JsVal * Item -> JsVal * Item -> Z) (s : Store) :
  NoDup (keys s) -> NoDup (keys (Array_sort cmp s)).
Proof.
  intros H. unfold keys.
  assert (List.map fst (Array_sort cmp s) ≡ₚ List.map fst s) as Hp
    by (apply Permutation_map, Array_sort_perm).
  by rewrite Hp.
Qed.

(** ** [sort] *)

(** The comparator that [sort] hands to [Array.prototype.sort]. *)
Lemma sort_eq stn fn self rt w :
  TempMap.sort stn fn self rt w =
  (self,
   snd (for_each
          (Array_sort
             (fun a b =>
                match fn with
                | Some f => f
                | None => fun a b _ _ => defaultSort stn a b
                end (value (snd a)) (value (snd b)) (fst a) (fst b))
             (store_of w self))
          (TempMap.copy_entry self false rt)
          (snd (TempMap.clear self w)))).
Proof. reflexivity. Qed.

Lemma sort_spec stn fn self rt w :
  wf_world w -> (self < next_ref w)%nat ->
  let w' := snd (TempMap.sort stn fn self rt w) in
  store_of w' self
    = copy_items rt (now w) (next_handle w)
        (Array_sort
           (fun a b =>
              match fn with
              | Some f => f
              | None => fun a b _ _ => defaultSort stn a b
              end (value (snd a)) (value (snd b)) (fst a) (fst b))
           (store_of w self)) /\
  (forall r, r <> self -> store_of w' r = store_of w r) /\
  now w' = now w /\ wf_world w'.
Proof.
  intros Hwf Hself. cbn zeta. rewrite sort_eq. cbn [snd].
  set (l := Array_sort _ (store_of w self)).
  destruct (sweep_frame self (fun _ _ _ _ => true) w) as (C1 & C2 & C3 & C4 & C5).
  fold (TempMap.clear self w) in C1, C2, C3, C4, C5.
  pose proof (clear_empties self w) as Hemp.
  set (wc := snd (TempMap.clear self w)) in *.
  destruct (copy_loop_fresh self false rt l wc) as (H1 & _ & _).
  { apply Array_sort_keys. by destruct (wf_world_store w self Hwf). }
  { intros k _. by rewrite Hemp. }
  pose proof (copy_loop_same_but self false rt l wc) as [Hnow Hfr].
  rewrite Hemp, C1, C3 in H1. simpl in H1.
  split; [exact H1|]. split; [|split].
  - intros r Hr. rewrite Hfr by done. by apply C4.
  - congruence.
  - apply copy_loop_wf; [by apply C5|]. lia.
Qed.

(** ** The entry a clone holds, and when it expires *)

Lemma fire_early h t d w :
  timeouts w !! h = Some t -> due t = Some d -> now w < d -> fire h w = w.
Proof.
  intros Ht Hd Hlt. unfold fire. rewrite Ht, Hd.
  apply Z.leb_gt in Hlt. by rewrite Hlt.
Qed.

Lemma fire_due h t d w :
  timeouts w !! h = Some t -> due t = Some d -> d <= now w ->
  store_of (fire h w) (owner t) = Map_delete (store_of w (owner t)) (target t).
Proof.
  intros Ht Hd Hle. unfold fire. rewrite Ht, Hd.
  apply Z.leb_le in Hle. rewrite Hle. unfold store_of. cbn [heap].
  rewrite lookup_alter_eq. destruct (heap w !! owner t); reflexivity.
Qed.

Lemma clone_entry self rt k it n w :
  wf_world w ->
  Map_get (store_of w self) k = Some it ->
  transplant rt (now w) it = TNumber n -> 0 < n ->
  let m := fst (TempMap.clone self rt w) in
  let w' := snd (TempMap.clone self rt w) in
  exists h,
    Map_get (store_of w' m) k
      = Some (mkItem (value it) (Some (mkTimer h n (now w)))) /\
    timeouts w' !! h
      = Some (mkTimeout (host_delay n) (Some (now w + host_delay n)) m k) /\
    forall dt,
      (0 <= dt < host_delay n -> fire h (tick dt w') = tick dt w') /\
      (host_delay n <= dt -> Map_get (store_of (fire h (tick dt w')) m) k = None).
Proof.
  intros Hwf Hget Ht Hn. cbn zeta. rewrite clone_eq by done. cbn [fst snd].
  pose proof (wf_world_store w self Hwf) as [Hnd _].
  destruct (build_spec (store_of w self) rt w Hwf Hnd)
    as (Hnow & Hst & _ & Htm & Hwf' & _).
  cbn zeta in *.
  set (w' := snd (for_each (store_of w self)
                    (TempMap.copy_entry (next_ref w) false rt)
                    (snd (new_TempMap w)))) in *.
  destruct (copy_items_entry rt (now w) (store_of w self) k it n (next_handle w)
              (Map_get_elem _ _ _ Hget) Ht Hn) as [h Hin].
  rewrite <- Hst in Hin.
  pose proof (wf_world_store w' (next_ref w) Hwf') as [Hnd' _].
  pose proof (Htm _ _ _ Hin eq_refl) as Hto. simpl in Hto.
  exists h. split; [by apply Map_get_unique|]. split; [exact Hto|].
  intros dt. split.
  - intros [Hd0 Hd1]. eapply fire_early; [exact Hto|reflexivity|]. simpl. lia.
  - intros Hd.
    pose proof (fire_due h _ (now w + host_delay n) (tick dt w') Hto eq_refl) as Hf.
    simpl in Hf. rewrite Hf by lia.
    change (store_of (tick dt w') (next_ref w)) with (store_of w' (next_ref w)).
    by apply Map_get_delete_eq.
Qed.

(** ** The expired-skip law *)

Lemma copy_entry_keeps dest ens e r k w :
  (fst e = k -> dest = r -> expired (now w) (snd e) = true) ->
  now (snd (TempMap.copy_entry dest ens false e w)) = now w /\
  Map_get (store_of (snd (TempMap.copy_entry dest ens false e w)) r) k
    = Map_get (store_of w r) k.
Proof.
  intros He. pose proof (copy_entry_touches dest ens false e w) as Ht.
  split; [apply Ht|].
  destruct (decide (fst e = k)) as [Hk|Hk].
  - destruct (decide (dest = r)) as [Hr|Hr].
    + unfold TempMap.copy_entry, bind, ret; cbn [fst snd].
      rewrite copyItem_expired; [done|]. by apply He.
    + by rewrite (touches_other _ _ _ _ r Ht).
  - eapply touches_get_ne; eauto.
Qed.

Lemma copy_entry_other_key dest ens rt e r k w :
  fst e <> k ->
  Map_get (store_of (snd (TempMap.copy_entry dest ens rt e w)) r) k
    = Map_get (store_of w r) k.
Proof.
  intros Hk. eapply touches_get_ne; [apply copy_entry_touches | exact Hk].
Qed.

Lemma expired_unique (s : Store) k it t e :
  NoDup (keys s) -> Map_get s k = Some it -> expired t it = true ->
  e ∈ s -> fst e = k -> expired t (snd e) = true.
Proof.
  intros Hnd Hget Hexp Hin Hk. destruct e as [k' it']. simpl in *. subst k'.
  rewrite (Map_get_unique _ _ _ Hnd Hin) in Hget. by injection Hget as ->.
Qed.

Lemma expired_not_copied (s : Store) k it t :
  NoDup (keys s) -> Map_get s k = Some it -> expired t it = true ->
  forall it', (k, it') ∈ s -> copied false t (k, it') = false.
Proof.
  intros Hnd Hget Hexp it' Hin. unfold copied.
  by rewrite (expired_unique s k it t (k, it') Hnd Hget Hexp Hin eq_refl).
Qed.

Lemma filter_skips self (fn : Predicate) k it w :
  wf_world w ->
  Map_get (store_of w self) k = Some it -> expired (now w) it = true ->
  Map_get (store_of (snd (TempMap.filter self fn false w))
             (fst (TempMap.filter self fn false w))) k = None.
Proof.
  intros Hwf Hget Hexp.
  unfold TempMap.filter, bind, ret, read_store, ask.
  cbn [fst snd]. rewrite new_TempMap_store by done.
  change (fst (new_TempMap w)) with (next_ref w).
  pose proof (wf_world_store w self Hwf) as [Hnd _].
  set (P := fun w' : World => now w' = now w /\
                              Map_get (store_of w' (next_ref w)) k = None).
  assert (P (snd (new_TempMap w))) as H0.
  { split; [done|]. unfold store_of, new_TempMap; simpl.
    by rewrite lookup_insert_eq. }
  match goal with
  | |- Map_get (store_of ?W _) _ = _ => enough (P W) as [_ HP]; [exact HP|]
  end.
  apply for_each_inv; [|exact H0].
  intros e w1 He [Hn Hg].
  destruct (fn (value (snd e)) (fst e) self w1); [|by split].
  destruct (copy_entry_keeps (next_ref w) false e (next_ref w) k w1) as [K1 K2].
  { intros Hk _. rewrite Hn. eapply expired_unique; eauto. }
  split; congruence.
Qed.

Lemma partition_skips self (fn : Predicate) k it w :
  wf_world w ->
  Map_get (store_of w self) k = Some it -> expired (now w) it = true ->
  let r := TempMap.partition self fn false w in
  Map_get (store_of (snd r) (fst (fst r))) k = None /\
  Map_get (store_of (snd r) (snd (fst r))) k = None.
Proof.
  intros Hwf Hget Hexp. cbn zeta.
  unfold TempMap.partition, bind, ret, read_store, ask. cbn [fst snd].
  pose proof (new_TempMap_wf w Hwf) as Hwf0.
  rewrite !new_TempMap_store by done.
  change (fst (new_TempMap w)) with (next_ref w).
  change (fst (new_TempMap (snd (new_TempMap w)))) with (S (next_ref w)).
  pose proof (wf_world_store w self Hwf) as [Hnd _].
  set (P := fun w' : World =>
              now w' = now w /\
              Map_get (store_of w' (next_ref w)) k = None /\
              Map_get (store_of w' (S (next_ref w))) k = None).
  match goal with
  | |- Map_get (store_of ?W _) _ = _ /\ _ => enough (P W) as (_ & HP); [exact HP|]
  end.
  apply for_each_inv.
  - intros e w1 He (Hn & Hg0 & Hg1).
    set (d := if fn (value (snd e)) (fst e) self w1
              then next_ref w else S (next_ref w)).
    assert (fst e = k -> expired (now w1) (snd e) = true) as Hk.
    { intros Hk. rewrite Hn. eapply expired_unique; eauto. }
    destruct (copy_entry_keeps d false e (next_ref w) k w1) as [K1 K2]; [auto|].
    destruct (copy_entry_keeps d false e (S (next_ref w)) k w1) as [_ K3]; [auto|].
    split; [congruence|]. split; congruence.
  - split; [done|]. unfold store_of, new_TempMap; simpl.
    rewrite lookup_insert_ne by lia. rewrite !lookup_insert_eq. done.
Qed.

Lemma concat_skips dest self k it w :
  wf_world w -> dest <> self ->
  Map_get (store_of w self) k = Some it -> expired (now w) it = true ->
  Map_get (store_of (snd (TempMap.concat dest self false w)) dest) k
    = Map_get (store_of w dest) k.
Proof.
  intros Hwf Hne Hget Hexp. rewrite concat_eq by done. cbn [snd].
  pose proof (wf_world_store w self Hwf) as [Hnd _].
  set (P := fun w' : World =>
              now w' = now w /\
              Map_get (store_of w' dest) k = Map_get (store_of w dest) k).
  match goal with
  | |- Map_get (store_of ?W _) _ = _ => enough (P W) as [_ HP]; [exact HP|]
  end.
  apply for_each_inv; [|by split].
  intros e w1 He [Hn Hg].
  destruct (copy_entry_keeps dest true e dest k w1) as [K1 K2].
  { intros Hk _. rewrite Hn. eapply expired_unique; eauto. }
  split; congruence.
Qed.

Lemma Map_get_allocated w self k it :
  wf_world w -> Map_get (store_of w self) k = Some it -> (self < next_ref w)%nat.
Proof.
  intros Hwf. unfold store_of. destruct (heap w !! self) as [s|] eqn:E; simpl.
  - intros _. by destruct (Hwf _ _ E).
  - done.
Qed.

Lemma elem_filter (p : JsVal * Item -> bool) (l : Store) e :
  e ∈ List.filter p l <-> e ∈ l /\ p e = true.
Proof. rewrite !list_elem_of_In. apply filter_In. Qed.

Lemma Map_get_kv_None (s : Store) k :
  k ∉ List.map fst (kv s) -> Map_get s k = None.
Proof. rewrite kv_keys. apply Map_get_None. Qed.

Lemma difference_skips self other k it w :
  wf_world w -> (other < next_ref w)%nat ->
  Map_get (store_of w self) k = Some it -> expired (now w) it = true ->
  Map_get (store_of (snd (TempMap.difference self other false w))
             (fst (TempMap.difference self other false w))) k = None /\
  Map_get (store_of (snd (TempMap.difference other self false w))
             (fst (TempMap.difference other self false w))) k = None.
Proof.
  intros Hwf Ho Hget Hexp.
  pose proof (Map_get_allocated _ _ _ _ Hwf Hget) as Hs.
  pose proof (wf_world_store w self Hwf) as [Hnd _].
  assert (forall p : JsVal * Item -> bool,
             k ∉ keys (List.filter (copied false (now w))
                         (List.filter p (store_of w self)))) as Hmine.
  { intros p Hk. apply keys_filter_inv in Hk as (it' & Hin & Hc).
    apply elem_filter in Hin as [Hin _].
    rewrite (expired_not_copied _ _ _ _ Hnd Hget Hexp _ Hin) in Hc. done. }
  assert (forall s : Store,
             k ∉ keys (List.filter (copied false (now w))
                         (List.filter (not_in (store_of w self)) s))) as Htheirs.
  { intros s Hk. apply keys_filter_elem in Hk.
    apply keys_filter_inv in Hk as (it' & _ & Hp).
    unfold not_in, Map_has in Hp. simpl in Hp. by rewrite Hget in Hp. }
  split; apply Map_get_kv_None.
  - destruct (difference_spec self other false w Hwf Hs Ho) as (_ & -> & _).
    rewrite map_app, !kv_keys. apply not_elem_of_app. split; auto.
  - destruct (difference_spec other self false w Hwf Ho Hs) as (_ & -> & _).
    rewrite map_app, !kv_keys. apply not_elem_of_app. split; auto.
Qed.

(** C1, as the code has it.  An entry of [self] whose remaining time has
    reached zero and that the event loop has not removed yet is skipped by
    every derived-collection copy made with [refreshTimeout = false]: it is
    absent from the result of [clone], [filter], both halves of [partition],
    [intersect], [difference] (on either side) and [sort], and [concat]
    leaves whatever the destination held under that key as it was.  With
    [refreshTimeout = true] the copy transplants the configured duration,
    so the entry is not skipped: [clone(true)] holds it, armed at the
    instant of the copy for its full duration. *)
Theorem expired_entry_skipped_without_refresh
    (w : World) (self other dest : nat) (k : JsVal) (it : Item)
    (fn : Predicate) (stn : string -> option Z) (cmp : option Comparator) :
  wf_world w -> (other < next_ref w)%nat -> dest <> self ->
  Map_get (store_of w self) k = Some it ->
  expired (now w) it = true ->
  entry_of_result (TempMap.clone self false) w k = None /\
  entry_of_result (TempMap.filter self fn false) w k = None /\
  (let r := TempMap.partition self fn false w in
   Map_get (store_of (snd r) (fst (fst r))) k = None /\
   Map_get (store_of (snd r) (snd (fst r))) k = None) /\
  entry_of_result (TempMap.intersect self other false) w k = None /\
  entry_of_result (TempMap.difference self other false) w k = None /\
  entry_of_result (TempMap.difference other self false) w k = None /\
  entry_of_result (TempMap.sort stn cmp self false) w k = None /\
  entry_of_result (TempMap.concat dest self false) w k
    = Map_get (store_of w dest) k /\
  (exists tm h,
      timer it = Some tm /\
      entry_of_result (TempMap.clone self true) w k
        = Some (mkItem (value it) (Some (mkTimer h (timeout tm) (now w))))).
Proof.
  intros Hwf Ho Hne Hget Hexp. unfold entry_of_result.
  pose proof (wf_world_store w self Hwf) as [Hnd Hok].
  pose proof (Map_get_allocated _ _ _ _ Hwf Hget) as Hs.
  split; [|split; [|split; [|split; [|split; [|split; [|split; [|split]]]]]]];
    cycle 8.
  { unfold expired in Hexp. destruct (timer it) as [tm|] eqn:Etm; [|done].
    rewrite Forall_forall in Hok.
    specialize (Hok _ (Map_get_elem _ _ _ Hget)).
    unfold timer_ok in Hok. simpl in Hok. rewrite Etm in Hok.
    destruct (clone_entry self true k it (timeout tm) w Hwf Hget) as (h & Hh & _).
    - unfold transplant. by rewrite Etm.
    - exact Hok.
    - exists tm, h. split; [done | exact Hh]. }
  - rewrite clone_eq by done. cbn [fst snd].
    destruct (build_spec (store_of w self) false w Hwf Hnd) as (_ & -> & _).
    apply Map_get_None, copy_items_skip.
    by apply (expired_not_copied _ _ it).
  - by apply (filter_skips self fn k it).
  - by apply (partition_skips self fn k it).
  - unfold TempMap.intersect. by apply (filter_skips self _ k it).
  - by apply (difference_skips self other k it).
  - by apply (difference_skips self other k it).
  - destruct (sort_spec stn cmp self false w Hwf Hs) as (Hst & _).
    rewrite sort_eq in *. cbn [fst snd] in *. rewrite Hst.
    apply Map_get_None, copy_items_skip. intros it' Hin.
    apply (expired_not_copied (store_of w self) k it); try done.
    rewrite Array_sort_perm in Hin. exact Hin.
  - rewrite (concat_eq dest self false w Hne) at 2. cbn [fst].
    by apply (concat_skips dest self k it).
Qed.

Lemma expired_entry_skipped_witness :
  wf_world demo_due /\
  Map_get (store_of demo_due 0%nat) (VStr "a")
    = Some (mkItem (VNum 1) (Some (mkTimer 0 1000 0))) /\
  entry_of_result (TempMap.clone 0%nat false) demo_due (VStr "a") = None /\
  entry_of_result (TempMap.concat 1%nat 0%nat false) demo_due (VStr "a")
    = Some (mkItem (VNum 7) None).
Proof.
  assert (wf_world demo_due) as Hwf
    by (apply (bool_decide_unpack _); vm_compute; reflexivity).
  pose proof (expired_entry_skipped_without_refresh demo_due 0%nat 1%nat 1%nat
                (VStr "a") (mkItem (VNum 1) (Some (mkTimer 0 1000 0)))
                (fun _ _ _ _ => true) (fun _ => None) None
                Hwf ltac:(vm_compute; lia) ltac:(lia)
                ltac:(vm_compute; reflexivity) ltac:(vm_compute; reflexivity))
    as (H1 & _ & _ & _ & _ & _ & _ & H8 & _).
  split; [exact Hwf|]. split; [vm_compute; reflexivity|].
  split; [exact H1|]. rewrite H8. vm_compute. reflexivity.
Defined.

(** C1 as stated fails for [refreshTimeout = true]: the entry [a] of
    container 0 is due in [demo_due] and still stored, and [clone(true)]
    copies it, armed for the full 1000 ms. *)
Lemma expired_entry_cloned_with_refresh :
  Map_get (store_of demo_due 0%nat) (VStr "a")
    = Some (mkItem (VNum 1) (Some (mkTimer 0 1000 0))) /\
  expired (now demo_due) (mkItem (VNum 1) (Some (mkTimer 0 1000 0))) = true /\
  entry_of_result (TempMap.clone 0%nat true) demo_due (VStr "a")
    = Some (mkItem (VNum 1) (Some (mkTimer 1 1000 1000))) /\
  ~ (forall rt : bool,
        entry_of_result (TempMap.clone 0%nat rt) demo_due (VStr "a") = None).
Proof.
  split; [vm_compute; reflexivity|]. split; [vm_compute; reflexivity|].
  split; [vm_compute; reflexivity|].
  intros H. specialize (H true). vm_compute in H. discriminate.
Qed.

(** ** The tri-state timeout law *)

(** C2.  [set(key, value, timeout)] on a key that is present stores and
    returns [value] and treats the timer by the kind of [timeout]:
    omitted, the timer (if any) keeps its duration and restarts now, and no
    timer is created for a permanent entry; [null], the timer is left as it
    is; a positive number, the pending callback is cancelled and a new timer
    of that duration is armed now: the entry records the duration and the
    instant, and the host schedules the callback after [host_delay n], which
    is [n] itself up to [TIMEOUT_MAX]; zero or a negative number, the
    pending callback is cancelled and the entry becomes permanent. *)
Theorem set_existing_tri_state
    (w : World) (self : nat) (key v : JsVal) (it : Item) :
  Map_get (store_of w self) key = Some it ->
  (forall t, fst (TempMap.set self key v t w) = v /\
             keys (store_of (snd (TempMap.set self key v t w)) self)
               = keys (store_of w self)) /\
  (let w' := snd (TempMap.set self key v TUndefined w) in
   Map_get (store_of w' self) key
     = Some (mkItem v
               (match timer it with
                | Some tm => Some (mkTimer (handle tm) (timeout tm) (now w))
                | None => None
                end)) /\
   timeouts w'
     = match timer it with
       | Some tm =>
           alter (fun t => mkTimeout (after t) (Some (now w + after t))
                             (owner t) (target t))
             (handle tm) (timeouts w)
       | None => timeouts w
       end) /\
  (let w' := snd (TempMap.set self key v TNull w) in
   Map_get (store_of w' self) key = Some (mkItem v (timer it)) /\
   timeouts w' = timeouts w) /\
  (forall n, 0 < n ->
     let w' := snd (TempMap.set self key v (TNumber n) w) in
     Map_get (store_of w' self) key
       = Some (mkItem v (Some (mkTimer (next_handle w) n (now w)))) /\
     timeouts w'
       = <[next_handle w :=
             mkTimeout (host_delay n) (Some (now w + host_delay n)) self key]>
           (match timer it with
            | Some tm => delete (handle tm) (timeouts w)
            | None => timeouts w
            end) /\
     (n <= TIMEOUT_MAX -> host_delay n = n)) /\
  (forall n, n <= 0 ->
     let w' := snd (TempMap.set self key v (TNumber n) w) in
     Map_get (store_of w' self) key = Some (mkItem v None) /\
     timeouts w'
       = match timer it with
         | Some tm => delete (handle tm) (timeouts w)
         | None => timeouts w
         end).
Proof.
  intros Hget. destruct it as [v0 tmo]. simpl.
  split; [|split; [|split; [|split]]].
  - intros t. split.
    + unfold TempMap.set, TempMap.setItem, bind, ret, read_store; cbn [fst snd].
      rewrite Hget. reflexivity.
    + pose proof (set_touches self key v t w) as (_ & _ & _ & [H|(it' & H & _)]).
      * by rewrite (store_of_heap _ _ _ H).
      * rewrite (store_of_insert _ _ _ _ H). eapply Map_set_present; eauto.
  - run. rewrite Hget. cbn [timer]. destruct tmo as [tm|]; run; simpl.
    + rewrite store_of_set_store_eq. split; [apply Map_get_set_eq | done].
    + rewrite store_of_set_store_eq. split; [apply Map_get_set_eq | done].
  - run. rewrite Hget. simpl.
    rewrite store_of_set_store_eq. split; [apply Map_get_set_eq | done].
  - intros n Hn0. pose proof Hn0 as Hn. apply Z.ltb_lt in Hn.
    run. rewrite Hget. cbn [timer value].
    destruct tmo as [tm|]; simpl; rewrite Hn; simpl;
      (split; [unfold store_of; simpl; rewrite lookup_insert_eq;
               apply Map_get_set_eq
              | split; [done | by apply host_delay_in_range]]).
  - intros n Hn. apply Z.ltb_ge in Hn. run. rewrite Hget. cbn [timer value].
    destruct tmo as [tm|]; simpl; rewrite Hn; simpl;
      (split; [unfold store_of; simpl; rewrite lookup_insert_eq;
               apply Map_get_set_eq | done]).
Qed.

Lemma set_existing_tri_state_witness :
  Map_get (store_of demo_half 0%nat) (VStr "a")
    = Some (mkItem (VNum 1) (Some (mkTimer 0 1000 0))) /\
  Map_get (store_of (snd (TempMap.set 0%nat (VStr "a") (VNum 5) TUndefined demo_half))
             0%nat) (VStr "a")
    = Some (mkItem (VNum 5) (Some (mkTimer 0 1000 400))) /\
  Map_get (store_of (snd (TempMap.set 0%nat (VStr "a") (VNum 5) TNull demo_half))
             0%nat) (VStr "a")
    = Some (mkItem (VNum 5) (Some (mkTimer 0 1000 0))) /\
  Map_get (store_of (snd (TempMap.set 0%nat (VStr "a") (VNum 5) (TNumber 50) demo_half))
             0%nat) (VStr "a")
    = Some (mkItem (VNum 5) (Some (mkTimer 1 50 400))) /\
  Map_get (store_of (snd (TempMap.set 0%nat (VStr "a") (VNum 5) (TNumber 0) demo_half))
             0%nat) (VStr "a")
    = Some (mkItem (VNum 5) None).
Proof.
  assert (Map_get (store_of demo_half 0%nat) (VStr "a")
            = Some (mkItem (VNum 1) (Some (mkTimer 0 1000 0)))) as Hget
    by (vm_compute; reflexivity).
  destruct (set_existing_tri_state demo_half 0%nat (VStr "a") (VNum 5) _ Hget)
    as (_ & [Hu _] & [Hk _] & Hp & Hz).
  split; [exact Hget|].
  split; [exact Hu|]. split; [exact Hk|].
  split; [exact (proj1 (Hp 50 ltac:(lia)))|].
  exact (proj1 (Hz 0 ltac:(lia))).
Defined.

(** ** Copy fidelity *)

(** C3.  For an entry whose timer has the positive remaining time [r],
    [clone(false)] yields a container whose entry under the same key holds
    the same value and a timer of duration [r] armed at the instant of the
    copy.  The host schedules its callback after [host_delay r]: running it
    earlier does nothing and running it from then on removes the entry from
    the clone.  For [r] up to [TIMEOUT_MAX] that delay is [r], so the entry
    of the clone expires in [r] more time units.  [clone(true)] does the
    same with the full configured duration. *)
Theorem clone_preserves_remaining_time
    (w : World) (self : nat) (k : JsVal) (it : Item) (tm : Timer) :
  wf_world w ->
  Map_get (store_of w self) k = Some it ->
  timer it = Some tm ->
  0 < remaining_time (now w) tm ->
  (let r := remaining_time (now w) tm in
   let m := fst (TempMap.clone self false w) in
   let w' := snd (TempMap.clone self false w) in
   exists h,
     Map_get (store_of w' m) k
       = Some (mkItem (value it) (Some (mkTimer h r (now w)))) /\
     timeouts w' !! h
       = Some (mkTimeout (host_delay r) (Some (now w + host_delay r)) m k) /\
     (r <= TIMEOUT_MAX -> host_delay r = r) /\
     forall dt,
       (0 <= dt < host_delay r -> fire h (tick dt w') = tick dt w') /\
       (host_delay r <= dt ->
        Map_get (store_of (fire h (tick dt w')) m) k = None)) /\
  (let d := timeout tm in
   let m := fst (TempMap.clone self true w) in
   let w' := snd (TempMap.clone self true w) in
   exists h,
     Map_get (store_of w' m) k
       = Some (mkItem (value it) (Some (mkTimer h d (now w)))) /\
     timeouts w' !! h
       = Some (mkTimeout (host_delay d) (Some (now w + host_delay d)) m k) /\
     (d <= TIMEOUT_MAX -> host_delay d = d) /\
     forall dt,
       (0 <= dt < host_delay d -> fire h (tick dt w') = tick dt w') /\
       (host_delay d <= dt ->
        Map_get (store_of (fire h (tick dt w')) m) k = None)).
Proof.
  intros Hwf Hget Htm Hr.
  assert (0 < timeout tm) as Hd.
  { pose proof (wf_world_store w self Hwf) as [_ Hok].
    rewrite Forall_forall in Hok.
    specialize (Hok _ (Map_get_elem _ _ _ Hget)).
    unfold timer_ok in Hok. simpl in Hok. by rewrite Htm in Hok. }
  split; cbn zeta.
  - destruct (clone_entry self false k it (remaining_time (now w) tm) w Hwf Hget)
      as (h & H1 & H2 & H3); [|done|].
    { unfold transplant. rewrite Htm. apply Z.ltb_lt in Hr. by rewrite Hr. }
    exists h. split; [exact H1|]. split; [exact H2|].
    split; [by apply host_delay_in_range | exact H3].
  - destruct (clone_entry self true k it (timeout tm) w Hwf Hget)
      as (h & H1 & H2 & H3); [|done|].
    { unfold transplant. by rewrite Htm. }
    exists h. split; [exact H1|]. split; [exact H2|].
    split; [by apply host_delay_in_range | exact H3].
Qed.

Lemma clone_preserves_remaining_time_witness :
  remaining_time (now demo_half) (mkTimer 0 1000 0) = 600 /\
  (exists h,
      Map_get (store_of (snd (TempMap.clone 0%nat false demo_half))
                 (fst (TempMap.clone 0%nat false demo_half))) (VStr "a")
        = Some (mkItem (VNum 1) (Some (mkTimer h 600 400))) /\
      timeouts (snd (TempMap.clone 0%nat false demo_half)) !! h
        = Some (mkTimeout 600 (Some 1000)
                  (fst (TempMap.clone 0%nat false demo_half)) (VStr "a"))) /\
  (exists h,
      Map_get (store_of (snd (TempMap.clone 0%nat true demo_half))
                 (fst (TempMap.clone 0%nat true demo_half))) (VStr "a")
        = Some (mkItem (VNum 1) (Some (mkTimer h 1000 400)))).
Proof.
  assert (wf_world demo_half) as Hwf
    by (apply (bool_decide_unpack _); vm_compute; reflexivity).
  destruct (clone_preserves_remaining_time demo_half 0%nat (VStr "a")
              (mkItem (VNum 1) (Some (mkTimer 0 1000 0))) (mkTimer 0 1000 0)
              Hwf ltac:(vm_compute; reflexivity) eq_refl ltac:(vm_compute; reflexivity))
    as [(h1 & H1 & T1 & _) (h2 & H2 & _)].
  split; [vm_compute; reflexivity|].
  split; [exists h1; split; [exact H1 | exact T1] | exists h2; exact H2].
Defined.

(** C3, as it is worded, fails for a remaining time above [TIMEOUT_MAX]:
    the entry [a] of [demo_long] has [2 ** 31] ms left; its copy in
    [clone(false)] carries a timer of that duration, yet the host runs the
    callback 1 ms later and the entry is gone from the clone. *)
Lemma clone_of_long_delay_expires_early :
  let w := demo_long in
  let m := fst (TempMap.clone 0%nat false w) in
  let w' := snd (TempMap.clone 0%nat false w) in
  Map_get (store_of w 0%nat) (VStr "a")
    = Some (mkItem (VNum 1) (Some (mkTimer 0 2147483648 0))) /\
  remaining_time (now w) (mkTimer 0 2147483648 0) = 2147483648 /\
  Map_get (store_of w' m) (VStr "a")
    = Some (mkItem (VNum 1) (Some (mkTimer 1 2147483648 0))) /\
  Map_get (store_of (fire 1%nat (tick 1 w')) m) (VStr "a") = None.
Proof. vm_compute. repeat split; reflexivity. Qed.

(** ** [concat] and the entries already present *)

Lemma refresh_at_idem t it : refresh_at t (refresh_at t it) = refresh_at t it.
Proof. destruct it as [v [tm|]]; reflexivity. Qed.

(** One step of the [concat] loop, seen from a key the destination holds. *)
Lemma concat_step dest rt e k it w :
  Map_get (store_of w dest) k = Some it ->
  Map_get (store_of (snd (TempMap.copy_entry dest true rt e w)) dest) k
    = Some (if bool_decide (fst e = k) && copied rt (now w) e
            then refresh_at (now w) it else it).
Proof.
  intros Hget. destruct (decide (fst e = k)) as [Hk|Hk].
  - rewrite bool_decide_eq_true_2 by done. cbn [andb].
    unfold TempMap.copy_entry, bind, ret; cbn [fst snd].
    rewrite copyItem_eq. rewrite Hk.
    rewrite (copy_item_copied rt (now w) 0%nat e). unfold copy_item.
    destruct (transplant rt (now w) (snd e)) as [| |n]; cbn [snd].
    + rewrite (ensure_hit _ _ _ _ _ _ Hget). cbn [snd].
      destruct (getItem_refresh dest k w) as [_ ->]. by rewrite Hget.
    + exact Hget.
    + rewrite (ensure_hit _ _ _ _ _ _ Hget). cbn [snd].
      destruct (getItem_refresh dest k w) as [_ ->]. by rewrite Hget.
  - rewrite bool_decide_eq_false_2 by done. cbn [andb].
    rewrite copy_entry_other_key by done. exact Hget.
Qed.

Lemma concat_loop dest rt k (l : Store) :
  forall it w,
    Map_get (store_of w dest) k = Some it ->
    Map_get (store_of (snd (for_each l (TempMap.copy_entry dest true rt) w)) dest) k
      = Some (if offers rt (now w) l k then refresh_at (now w) it else it).
Proof.
  induction l as [|e l IH]; intros it w Hget; [exact Hget|].
  rewrite for_each_cons.
  pose proof (concat_step dest rt e k it w Hget) as Hstep.
  pose proof (copy_entry_touches dest true rt e w) as (Hnow & _).
  rewrite (IH _ _ Hstep). rewrite Hnow. unfold offers. simpl.
  destruct (bool_decide (fst e = k) && copied rt (now w) e); simpl.
  - rewrite refresh_at_idem. by destruct (existsb _ l).
  - reflexivity.
Qed.

Lemma copy_loop_prefix dest ens rt (l : Store) w :
  keys (store_of w dest)
    `prefix_of` keys (store_of (snd (for_each l (TempMap.copy_entry dest ens rt) w)) dest).
Proof.
  apply (for_each_inv
           (fun w' => keys (store_of w dest) `prefix_of` keys (store_of w' dest)));
    [|done].
  intros e w1 _ Hp. etrans; [exact Hp|].
  destruct (touches_keys dest (fst e) w1 _ dest (copy_entry_touches dest ens rt e w1))
    as [-> | ->]; [done|]. by apply prefix_app_r.
Qed.

(** C4, as the code has it.  [concat] into a different container leaves
    the value, the timer duration and handle, and the position of every
    entry the destination already holds as they were; its timer, if it has
    one, is restarted at the instant of the call exactly when [other] holds
    an entry under the same key that the copy does not skip, because
    [ensure] refreshes the entry it finds.  [m.concat(m)] changes nothing
    and returns [m]. *)
Theorem concat_keeps_existing_entries
    (w : World) (self other : nat) (rt : bool) (k : JsVal) (it : Item) :
  self <> other ->
  Map_get (store_of w self) k = Some it ->
  fst (TempMap.concat self other rt w) = self /\
  Map_get (store_of (snd (TempMap.concat self other rt w)) self) k
    = Some (if offers rt (now w) (store_of w other) k
            then refresh_at (now w) it else it) /\
  keys (store_of w self)
    `prefix_of` keys (store_of (snd (TempMap.concat self other rt w)) self) /\
  TempMap.concat self self rt w = (self, w).
Proof.
  intros Hne Hget. rewrite concat_eq by done. cbn [fst snd].
  split; [done|]. split; [by apply concat_loop|].
  split; [apply copy_loop_prefix | apply concat_self].
Qed.

Lemma concat_keeps_existing_entries_witness :
  Map_get (store_of demo_concat 0%nat) (VStr "a")
    = Some (mkItem (VNum 1) (Some (mkTimer 0 1000 0))) /\
  Map_get (store_of (snd (TempMap.concat 0%nat 1%nat true demo_concat)) 0%nat)
    (VStr "a")
    = Some (mkItem (VNum 1) (Some (mkTimer 0 1000 500))) /\
  keys (store_of (snd (TempMap.concat 0%nat 1%nat true demo_concat)) 0%nat)
    = [VStr "a"; VStr "c"].
Proof.
  destruct (concat_keeps_existing_entries demo_concat 0%nat 1%nat true (VStr "a")
              (mkItem (VNum 1) (Some (mkTimer 0 1000 0)))
              ltac:(lia) ltac:(vm_compute; reflexivity)) as (_ & H & _ & _).
  split; [vm_compute; reflexivity|]. split; [exact H|].
  vm_compute. reflexivity.
Defined.

(** C4 as stated fails on the timer state: in [demo_concat] the entry [a]
    of container 0 was armed at instant 0, and after [concat] with a
    container that also holds [a] its timer has been restarted at 500. *)
Lemma concat_refreshes_existing_timer :
  Map_get (store_of demo_concat 0%nat) (VStr "a")
    = Some (mkItem (VNum 1) (Some (mkTimer 0 1000 0))) /\
  Map_get (store_of (snd (TempMap.concat 0%nat 1%nat true demo_concat)) 0%nat)
    (VStr "a")
    = Some (mkItem (VNum 1) (Some (mkTimer 0 1000 500))) /\
  timeouts demo_concat !! 0%nat
    = Some (mkTimeout 1000 (Some 1000) 0%nat (VStr "a")) /\
  timeouts (snd (TempMap.concat 0%nat 1%nat true demo_concat)) !! 0%nat
    = Some (mkTimeout 1000 (Some 1500) 0%nat (VStr "a")) /\
  Map_get (store_of (snd (TempMap.concat 0%nat 1%nat true demo_concat)) 0%nat)
    (VStr "a")
    <> Map_get (store_of demo_concat 0%nat) (VStr "a").
Proof.
  split; [vm_compute; reflexivity|]. split; [vm_compute; reflexivity|].
  split; [vm_compute; reflexivity|]. split; [vm_compute; reflexivity|].
  vm_compute. discriminate.
Qed.

(** ** The default comparator and the stability of [sort] *)

(** On two strings [defaultSort] is the code-unit order. *)
Lemma defaultSort_on_strings stn (s t : string) :
  defaultSort stn (VStr s) (VStr t) = string_order s t.
Proof.
  unfold defaultSort, js_gt, js_strict_eq, string_order.
  destruct (String.compare s t) eqn:E; simpl.
  - apply String.compare_eq_iff in E. subst. by rewrite bool_decide_eq_true_2.
  - rewrite bool_decide_eq_false_2; [done|].
    intros [= ->]. pose proof (String.compare_antisym t t) as Ha.
    rewrite E in Ha. discriminate.
  - reflexivity.
Qed.

(** C5 at the failing input.  [defaultSort(10, 9)] is [1], so [sort()]
    with no comparator puts [q => 9] before [p => 10]; the string
    conversions compare the other way round, ["10"] before ["9"].  The
    values are compared with [>] and [===] as they are, with no string
    conversion. *)
Theorem defaultSort_compares_numbers_numerically (stn : string -> option Z) :
  defaultSort stn (VNum 10) (VNum 9) = 1 /\
  string_order (ToString (VNum 10)) (ToString (VNum 9)) = -1 /\
  kv (store_of (snd (TempMap.sort stn None 0%nat true demo_numbers)) 0%nat)
    = [(VStr "q", VNum 9); (VStr "p", VNum 10)].
Proof.
  split; [reflexivity|]. split; [reflexivity|]. vm_compute. reflexivity.
Qed.

Lemma sort_insert_filter {A} (cmp : A -> A -> Z) (z x : A) (l : list A) :
  (forall y, cmp z x = 0 -> 0 < cmp x y -> cmp z y <> 0) ->
  List.filter (fun y => cmp z y =? 0) (sort_insert cmp x l)
  = List.filter (fun y => cmp z y =? 0) (x :: l).
Proof.
  intros Hc. induction l as [|y l IH]; [done|].
  cbn [sort_insert]. destruct (0 <? cmp x y) eqn:E; [|done].
  apply Z.ltb_lt in E. cbn [List.filter] in *. rewrite IH.
  destruct (cmp z x =? 0) eqn:Ex, (cmp z y =? 0) eqn:Ey; try done.
  apply Z.eqb_eq in Ex, Ey. by destruct (Hc y Ex E).
Qed.

(** [Array.prototype.sort] keeps the elements that compare equal to a given
    one in their original relative order, for a comparator that does not
    rank two elements of one class apart. *)
Lemma Array_sort_stable {A} (cmp : A -> A -> Z) (z : A) (l : list A) :
  (forall x y, cmp z x = 0 -> 0 < cmp x y -> cmp z y <> 0) ->
  List.filter (fun y => cmp z y =? 0) (Array_sort cmp l)
  = List.filter (fun y => cmp z y =? 0) l.
Proof.
  intros Hc. induction l as [|x l IH]; [done|].
  cbn [Array_sort]. rewrite sort_insert_filter by (intros y; apply Hc).
  cbn [List.filter]. by rewrite IH.
Qed.

(** With [refreshTimeout = true], [sort] re-inserts every entry in the
    order [Array.prototype.sort] produced. *)
Lemma sort_order stn fn self w :
  wf_world w -> (self < next_ref w)%nat ->
  kv (store_of (snd (TempMap.sort stn fn self true w)) self)
  = kv (Array_sort
          (fun a b =>
             match fn with
             | Some f => f
             | None => fun a b _ _ => defaultSort stn a b
             end (value (snd a)) (value (snd b)) (fst a) (fst b))
          (store_of w self)).
Proof.
  intros Hwf Hs. destruct (sort_spec stn fn self true w Hwf Hs) as (-> & _).
  apply kv_copy_items_refresh.
Qed.

(** ** [intersect] and [difference] *)

Lemma elem_kv (s : Store) k v :
  (k, v) ∈ kv s <-> exists it, (k, it) ∈ s /\ value it = v.
Proof.
  unfold kv. rewrite list_elem_of_In, in_map_iff. split.
  - intros ([k' it] & [= <- <-] & Hin). exists it.
    split; [by apply list_elem_of_In | done].
  - intros (it & Hin & <-). exists (k, it).
    split; [done | by apply list_elem_of_In].
Qed.

Lemma elem_kv_filter (p : JsVal * Item -> bool) (s : Store) k v :
  (k, v) ∈ kv (List.filter p s) <->
  exists it, (k, it) ∈ s /\ value it = v /\ p (k, it) = true.
Proof.
  rewrite elem_kv. split.
  - intros (it & Hin & Hv). apply elem_filter in Hin as [Hin Hp]. eauto.
  - intros (it & Hin & Hv & Hp). exists it. split; [|done].
    apply elem_filter. done.
Qed.

Lemma not_in_spec (s : Store) e : not_in s e = true <-> fst e ∉ keys s.
Proof.
  unfold not_in. rewrite negb_true_iff, <- not_true_iff_false, Map_has_true. done.
Qed.

Lemma in_both_spec (s : Store) k it :
  NoDup (keys s) ->
  in_both s (k, it) = true <-> (k, value it) ∈ kv s.
Proof.
  intros Hnd. unfold in_both. simpl. rewrite elem_kv. split.
  - destruct (Map_get s k) as [io|] eqn:E; [|done].
    intros H. apply bool_decide_eq_true_1 in H. exists io.
    split; [by apply Map_get_elem | done].
  - intros (io & Hin & Hv). rewrite (Map_get_unique _ _ _ Hnd Hin).
    by apply bool_decide_eq_true_2.
Qed.

(** C6.  With the default flag, [difference(other)] returns a new
    container holding, in order, the entries of [this] whose key [other]
    lacks followed by the entries of [other] whose key [this] lacks, so a
    pair belongs to it exactly when its key is in exactly one of the two;
    [intersect(other)] returns a new container holding the entries of
    [this] that [other] holds under the same key with the same value.  On
    [A = {x: 1, y: 2}] and [B = {y: 2, z: 3}] this gives [{y: 2}] and
    [{x: 1, z: 3}]. *)
Theorem difference_and_intersect (w : World) (self other : nat) :
  wf_world w -> (self < next_ref w)%nat -> (other < next_ref w)%nat ->
  let A := store_of w self in
  let B := store_of w other in
  let d := TempMap.difference self other true w in
  let i := TempMap.intersect self other true w in
  fst d = next_ref w /\ fst i = next_ref w /\
  kv (store_of (snd d) (fst d))
    = kv (List.filter (not_in B) A) ++ kv (List.filter (not_in A) B) /\
  (forall k v,
      (k, v) ∈ kv (store_of (snd d) (fst d)) <->
      ((k, v) ∈ kv A /\ k ∉ keys B) \/ ((k, v) ∈ kv B /\ k ∉ keys A)) /\
  kv (store_of (snd i) (fst i)) = kv (List.filter (in_both B) A) /\
  (forall k v,
      (k, v) ∈ kv (store_of (snd i) (fst i)) <->
      (k, v) ∈ kv A /\ (k, v) ∈ kv B).
Proof.
  intros Hwf Hs Ho A B d i.
  destruct (difference_spec self other true w Hwf Hs Ho) as (Hd1 & Hd2 & _).
  destruct (intersect_spec self other true w Hwf Ho) as (Hi1 & Hi2 & _).
  fold d in Hd1, Hd2. fold i in Hi1, Hi2. fold A B in Hd2, Hi2.
  rewrite !(filter_all (copied true (now w))) in Hd2 by done.
  assert (kv (store_of (snd i) (fst i)) = kv (List.filter (in_both B) A)) as Hi3.
  { rewrite Hi2. apply kv_copy_items_refresh. }
  pose proof (wf_world_store w other Hwf) as [HndB _]. fold B in HndB.
  split; [exact Hd1|]. split; [exact Hi1|]. split; [exact Hd2|].
  split; [|split; [exact Hi3|]].
  - intros k v. rewrite Hd2, elem_of_app, !elem_kv_filter, !elem_kv.
    split.
    + intros [(it & Hin & Hv & Hp)|(it & Hin & Hv & Hp)];
        apply not_in_spec in Hp; simpl in Hp; [left|right]; eauto.
    + intros [[(it & Hin & Hv) Hk]|[(it & Hin & Hv) Hk]]; [left|right];
        exists it; (split; [done|]); (split; [done|]); by apply not_in_spec.
  - intros k v. rewrite Hi3, elem_kv_filter, elem_kv. split.
    + intros (it & Hin & Hv & Hp). apply in_both_spec in Hp; [|done].
      subst v. split; [eauto | done].
    + intros [(it & Hin & Hv) HB]. exists it. split; [done|]. split; [done|].
      apply in_both_spec; [done|]. by rewrite Hv.
Qed.

Lemma difference_and_intersect_witness :
  kv (store_of demo_sets 0%nat) = [(VStr "x", VNum 1); (VStr "y", VNum 2)] /\
  kv (store_of demo_sets 1%nat) = [(VStr "y", VNum 2); (VStr "z", VNum 3)] /\
  (let i := TempMap.intersect 0%nat 1%nat true demo_sets in
   kv (store_of (snd i) (fst i)) = [(VStr "y", VNum 2)]) /\
  (let d := TempMap.difference 0%nat 1%nat true demo_sets in
   kv (store_of (snd d) (fst d)) = [(VStr "x", VNum 1); (VStr "z", VNum 3)]).
Proof.
  assert (wf_world demo_sets) as Hwf
    by (apply (bool_decide_unpack _); vm_compute; reflexivity).
  destruct (difference_and_intersect demo_sets 0%nat 1%nat Hwf
              ltac:(vm_compute; lia) ltac:(vm_compute; lia))
    as (_ & _ & Hd & _ & Hi & _).
  split; [vm_compute; reflexivity|]. split; [vm_compute; reflexivity|].
  split.
  - cbn zeta. rewrite Hi. vm_compute. reflexivity.
  - cbn zeta. rewrite Hd. vm_compute. reflexivity.
Defined.

(** ** Unique keys and insertion order *)

Lemma at_loop_elem (s : Store) :
  forall index i e, TempMap.at_loop s index i = Some e -> e ∈ s.
Proof.
  induction s as [|[k it] s IH]; intros index i e; simpl; [done|].
  destruct (index =? i).
  - intros [= <-]. apply list_elem_of_here.
  - intros H. apply list_elem_of_further. eapply IH; eauto.
Qed.

Lemma at_wf self index rt w :
  wf_world w -> (self < next_ref w)%nat ->
  wf_world (snd (TempMap.at_ self index rt w)).
Proof.
  intros Hwf Hs. unfold TempMap.at_, bind, read_store, ret; cbn [fst snd].
  destruct (TempMap.at_loop _ _ _) as [[k it]|] eqn:E; [|exact Hwf].
  destruct rt; [|exact Hwf].
  apply at_loop_elem in E.
  pose proof (wf_world_store w self Hwf) as [_ Hok].
  rewrite Forall_forall in Hok. specialize (Hok _ E).
  apply (touches_wf self k w); [|exact Hs|exact Hwf].
  unfold touches. destruct it as [v [tm|]]; run; simpl.
  - repeat split; auto. right. eexists. split; [reflexivity|]. intros _. exact Hok.
  - repeat split; auto. right. eexists. split; [reflexivity|]. done.
Qed.

Lemma filter_wf self (fn : Predicate) rt w :
  wf_world w -> wf_world (snd (TempMap.filter self fn rt w)).
Proof.
  intros Hwf. unfold TempMap.filter, bind, ret, read_store, ask. cbn [fst snd].
  change (fst (new_TempMap w)) with (next_ref w).
  set (P := fun w' : World => wf_world w' /\ next_ref w' = S (next_ref w)).
  match goal with |- wf_world ?W => enough (P W) as [HP _]; [exact HP|] end.
  apply for_each_inv; [|split; [by apply new_TempMap_wf | done]].
  intros e w1 _ [Hw1 Hr].
  destruct (fn (value (snd e)) (fst e) self w1); [|by split].
  pose proof (copy_entry_touches (next_ref w) false rt e w1) as Ht. split.
  - eapply touches_wf; eauto. lia.
  - destruct Ht as (_ & -> & _). exact Hr.
Qed.

Lemma partition_wf self (fn : Predicate) rt w :
  wf_world w -> wf_world (snd (TempMap.partition self fn rt w)).
Proof.
  intros Hwf. unfold TempMap.partition, bind, ret, read_store, ask. cbn [fst snd].
  change (fst (new_TempMap w)) with (next_ref w).
  change (fst (new_TempMap (snd (new_TempMap w)))) with (S (next_ref w)).
  set (P := fun w' : World => wf_world w' /\ next_ref w' = S (S (next_ref w))).
  match goal with |- wf_world ?W => enough (P W) as [HP _]; [exact HP|] end.
  apply for_each_inv; [|split; [by apply new_TempMap_wf, new_TempMap_wf | done]].
  intros e w1 _ [Hw1 Hr].
  set (d := if fn (value (snd e)) (fst e) self w1 then next_ref w else S (next_ref w)).
  pose proof (copy_entry_touches d false rt e w1) as Ht. split.
  - eapply touches_wf; eauto. unfold d. destruct (fn _ _ _ _); lia.
  - destruct Ht as (_ & -> & _). exact Hr.
Qed.

Lemma fire_wf h w : wf_world w -> wf_world (fire h w).
Proof.
  intros Hwf. unfold fire.
  destruct (timeouts w !! h) as [t|]; [|exact Hwf].
  destruct (due t) as [d|]; [|exact Hwf].
  destruct (d <=? now w); [|exact Hwf].
  unfold wf_world. cbn [heap next_ref].
  intros r s Hrs. rewrite lookup_alter in Hrs.
  case_decide as Hr.
  - subst r. destruct (heap w !! owner t) as [s0|] eqn:E; [|done].
    injection Hrs as <-. destruct (Hwf _ _ E) as [Hlt Hst].
    split; [exact Hlt | by apply wf_store_Map_delete].
  - by apply Hwf.
Qed.

Lemma wf_empty t0 : wf_world (empty_world t0).
Proof. unfold wf_world, empty_world. simpl. apply map_Forall_empty. Qed.

Lemma step_wf w w' : wf_world w -> step w w' -> wf_world w'.
Proof.
  intros Hwf Hstep. destruct Hstep.
  - by apply new_TempMap_wf.
  - eapply touches_wf; [apply set_touches|done|done].
  - eapply touches_wf; [apply add_touches|done|done].
  - eapply touches_wf; [apply update_touches|done|done].
  - eapply touches_wf; [apply ensure_touches|done|done].
  - eapply touches_wf; [apply get_touches|done|done].
  - by apply at_wf.
  - eapply removes_wf; [apply delete_removes|done].
  - by apply sweep_frame.
  - by apply (sweep_frame self (fun _ _ _ _ => true)).
  - rewrite clone_eq by done. cbn [snd].
    apply build_spec; [done|]. by destruct (wf_world_store w self Hwf).
  - by apply filter_wf.
  - by apply partition_wf.
  - destruct (decide (self = other)) as [->|Hne].
    + by rewrite concat_self.
    + rewrite concat_eq by done. by apply copy_loop_wf.
  - by apply difference_spec.
  - by apply intersect_spec.
  - by apply sort_spec.
  - exact Hwf.
  - by apply fire_wf.
Qed.

Lemma reachable_wf w : reachable w -> wf_world w.
Proof.
  intros [t0 Hr]. revert w Hr. apply (rtc_ind_r (fun w => wf_world w)).
  - apply wf_empty.
  - intros y z _ Hstep Hy. eapply step_wf; eauto.
Qed.



Lemma touches_keys_present dest k it w w' :
  touches dest k w w' -> Map_get (store_of w dest) k = Some it ->
  keys (store_of w' dest) = keys (store_of w dest).
Proof.
  intros (_ & _ & _ & [H | (it' & H & _)]) Hget.
  - by rewrite (store_of_heap _ _ _ H).
  - rewrite (store_of_insert _ _ _ _ H). eapply Map_set_present; eauto.
Qed.

Lemma setItem_new_keys self key v t w :
  Map_get (store_of w self) key = None ->
  keys (store_of (snd (TempMap.setItem self key None v t w)) self)
  = keys (store_of w self) ++ [key].
Proof.
  intros Hget.
  assert (forall it, keys (Map_set (store_of w self) key it)
                     = keys (store_of w self) ++ [key]) as Hk.
  { intros it. rewrite Map_set_absent by done. unfold keys. by rewrite map_app. }
  destruct t as [| |n].
  - rewrite setItem_new_plain by done. rewrite store_of_set_store_eq. apply Hk.
  - rewrite setItem_new_plain by done. rewrite store_of_set_store_eq. apply Hk.
  - destruct (decide (0 < n)) as [Hn|Hn].
    + rewrite setItem_new_timer by done. unfold store_of at 1. cbn [heap].
      rewrite lookup_insert_eq. apply Hk.
    + rewrite setItem_new_plain by lia. rewrite store_of_set_store_eq. apply Hk.
Qed.

Lemma demo0_reachable : reachable demo0.
Proof.
  exists 0. unfold demo0. cbn zeta.
  eapply rtc_r; [|apply step_set; vm_compute; lia].
  eapply rtc_r; [|apply step_new].
  eapply rtc_r; [|apply step_set; vm_compute; lia].
  eapply rtc_r; [|apply step_set; vm_compute; lia].
  eapply rtc_r; [|apply step_new].
  apply rtc_refl.
Defined.


(** ** Insertion order under the mutators *)




























(** ** Absent results *)

Lemma at_loop_None (s : Store) :
  forall index i,
    index < i \/ i + Z.of_nat (length s) <= index ->
    TempMap.at_loop s index i = None.
Proof.
  induction s as [|[k it] s IH]; intros index i H; simpl; [done|].
  destruct (index =? i) eqn:E.
  - apply Z.eqb_eq in E. simpl in H. lia.
  - apply IH. simpl in H. lia.
Qed.

(** C8.  [add] on a key that is present and [update] on a key that is
    absent return [undefined] and leave the world as it was; [at] with an
    index that, once a negative one is counted from the end, falls outside
    the container returns [undefined] and changes nothing.  The three
    methods are total: no case raises. *)
Theorem absent_sentinel_results
    (w : World) (self : nat) (key v : JsVal) (t : TimeoutArg) :
  (forall it, Map_get (store_of w self) key = Some it ->
              TempMap.add self key v t w = (VUndefined, w)) /\
  (Map_get (store_of w self) key = None ->
   TempMap.update self key v t w = (VUndefined, w)) /\
  (forall index rt,
      let size := Map_size (store_of w self) in
      let i := if index <? 0 then size + index else index in
      i < 0 \/ size <= i ->
      TempMap.at_ self index rt w = (None, w)).
Proof.
  split; [|split].
  - intros it Hget. unfold TempMap.add, bind, read_store, ret; cbn [fst snd].
    by rewrite Hget.
  - intros Hget. unfold TempMap.update, bind, read_store, ret; cbn [fst snd].
    by rewrite Hget.
  - intros index rt size i Hi.
    unfold TempMap.at_, bind, read_store, ret; cbn [fst snd].
    fold size. fold i. rewrite at_loop_None; [done|].
    unfold size, Map_size in Hi. lia.
Qed.

Lemma absent_sentinel_results_witness :
  TempMap.add 0%nat (VStr "a") (VNum 9) (TNumber 5) demo0 = (VUndefined, demo0) /\
  TempMap.update 0%nat (VStr "zz") (VNum 9) TUndefined demo0 = (VUndefined, demo0) /\
  TempMap.at_ 0%nat 2 true demo0 = (None, demo0) /\
  TempMap.at_ 0%nat (-3) true demo0 = (None, demo0).
Proof.
  destruct (absent_sentinel_results demo0 0%nat (VStr "a") (VNum 9) (TNumber 5))
    as (Ha & _ & Hat).
  destruct (absent_sentinel_results demo0 0%nat (VStr "zz") (VNum 9) TUndefined)
    as (_ & Hu & _).
  split; [apply (Ha (mkItem (VNum 1) (Some (mkTimer 0 1000 0)))); vm_compute; reflexivity|].
  split; [apply Hu; vm_compute; reflexivity|].
  split; [apply (Hat 2 true); vm_compute; right; discriminate|].
  apply (Hat (-3) true); vm_compute; left; reflexivity.
Defined.

(** ** [last] with a count larger than the container *)

Lemma last_loop_all (s : Store) :
  forall size count index,
    size - count <= index -> TempMap.last_loop s size count index = kv s.
Proof.
  induction s as [|[k it] s IH]; intros size count index H; simpl; [done|].
  apply Z.leb_le in H as H'. rewrite H'. f_equal. apply IH. lia.
Qed.

(** C9.  When [count] exceeds the size of the container, [last(count)]
    returns every entry as a key/value pair, in iteration order, and
    changes nothing. *)
Theorem last_clamps_count (w : World) (self : nat) (count : Z) :
  Map_size (store_of w self) < count ->
  TempMap.last self count w = (kv (store_of w self), w).
Proof.
  intros H. unfold TempMap.last, bind, read_store, ret; cbn [fst snd].
  rewrite last_loop_all; [done|]. lia.
Qed.

Lemma last_clamps_count_witness :
  Map_size (store_of demo0 0%nat) = 2 /\
  TempMap.last 0%nat 5 demo0
    = ([(VStr "a", VNum 1); (VStr "b", VNum 2)], demo0).
Proof.
  split; [vm_compute; reflexivity|].
  rewrite (last_clamps_count demo0 0%nat 5); [|vm_compute; reflexivity].
  vm_compute. reflexivity.
Defined.

(** ** [forEach] *)

(** C10.  [forEach(fn, thisArg)] leaves the world as it is, returns the
    container itself and runs the callback over the entries in iteration
    order, each call receiving the key first, the value second and the
    container third; [this] is [thisArg] when [thisArg] is truthy and
    [undefined] otherwise.  Seen through a recording callback: one record
    per entry, in order. *)
Theorem forEach_calls_key_value_map
    (w : World) (self : nat) (thisArg : JsVal) :
  (forall (S : Type) (fn : JsFun S) (acc : S),
      TempMap.forEach self fn thisArg acc w =
      ((self,
        fold_left
          (fun a e =>
             call fn (if truthy thisArg then thisArg else VUndefined)
               (fst e) (snd e) self a)
          (kv (store_of w self)) acc), w)) /\
  TempMap.forEach self recorder thisArg [] w =
  ((self,
    List.map
      (fun e => (if truthy thisArg then thisArg else VUndefined,
                 fst e, value (snd e), self))
      (store_of w self)), w).
Proof.
  assert (forall (S : Type) (fn : JsFun S) (acc : S),
             TempMap.forEach self fn thisArg acc w =
             ((self,
               fold_left
                 (fun a e =>
                    call fn (if truthy thisArg then thisArg else VUndefined)
                      (fst e) (snd e) self a)
                 (kv (store_of w self)) acc), w)) as H.
  { intros S fn acc.
    unfold TempMap.forEach, TempMap.entries, bind, read_store, ret; cbn [fst snd].
    fold (kv (store_of w self)). by destruct (truthy thisArg). }
  split; [exact H|].
  rewrite H, fold_recorder. simpl. unfold kv. by rewrite map_map.
Qed.

(** * Further properties of the container *)

(** ** Writing and reading back *)

Lemma setItem_stores self key item v t w :
  (forall it, item = Some it -> Map_get (store_of w self) key = Some it) ->
  exists it', Map_get (store_of (snd (TempMap.setItem self key item v t w)) self) key
              = Some it' /\ value it' = v.
Proof.
  intros Hitem. destruct item as [[v0 tmo]|].
  - destruct t as [| |n]; run.
    + destruct tmo as [tm|]; run; simpl; rewrite store_of_set_store_eq;
        eexists; (split; [apply Map_get_set_eq | done]).
    + simpl. rewrite store_of_set_store_eq.
      eexists; (split; [apply Map_get_set_eq | done]).
    + destruct tmo as [tm|]; simpl; destruct (0 <? n); simpl;
        unfold store_of; simpl; rewrite lookup_insert_eq;
        eexists; (split; [apply Map_get_set_eq | done]).
  - run. destruct (0 <? _); simpl; unfold store_of; simpl;
      rewrite lookup_insert_eq; eexists; (split; [apply Map_get_set_eq | done]).
Qed.

Lemma get_value self key rt it w :
  Map_get (store_of w self) key = Some it ->
  fst (TempMap.get self key rt w) = value it.
Proof.
  intros Hget. unfold TempMap.get, bind, ret; cbn [fst snd]. destruct rt.
  - destruct (getItem_refresh self key w) as [-> _]. by rewrite Hget.
  - by rewrite getItem_keep, Hget.
Qed.

Lemma get_missing self key rt w :
  Map_get (store_of w self) key = None ->
  TempMap.get self key rt w = (VUndefined, w).
Proof.
  intros Hget. unfold TempMap.get, bind, ret; cbn [fst snd].
  by rewrite (getItem_miss _ _ _ _ Hget).
Qed.

Lemma set_get self key v t rt w :
  fst (TempMap.get self key rt (snd (TempMap.set self key v t w))) = v.
Proof.
  destruct (setItem_stores self key (Map_get (store_of w self) key) v t w)
    as (it' & Hget & Hv); [by intros it ->|].
  change (snd (TempMap.setItem self key (Map_get (store_of w self) key) v t w))
    with (snd (TempMap.set self key v t w)) in Hget.
  by rewrite (get_value _ _ _ _ _ Hget).
Qed.

(** X1.  What [set] stores is what [get] returns, whatever timeout was
    given and whether or not the key was there before; the entries under
    the other keys and the other containers are as they were. *)
Theorem set_then_get (w : World) (self : nat) (key v : JsVal) (t : TimeoutArg) :
  let w' := snd (TempMap.set self key v t w) in
  (forall rt, fst (TempMap.get self key rt w') = v) /\
  (forall key', key <> key' ->
                Map_get (store_of w' self) key' = Map_get (store_of w self) key') /\
  (forall r, r <> self -> store_of w' r = store_of w r) /\
  now w' = now w.
Proof.
  cbn zeta. pose proof (set_touches self key v t w) as Ht.
  split; [|split; [|split]].
  - intros rt. apply set_get.
  - intros key' Hne. eapply touches_get_ne; eauto.
  - intros r Hr. eapply touches_other; eauto.
  - apply Ht.
Qed.

(** ** Sliding reads *)

(** X2.  [get(key, false)] changes nothing.  [get(key, true)] returns the
    same value and restarts the timer of the entry: the stored start
    instant becomes the instant of the read, so the remaining time is the
    full duration again, and the pending callback is rescheduled.  For a
    key that is absent both return [undefined] and change nothing. *)
Theorem get_slides_expiration (w : World) (self : nat) (key : JsVal) :
  (forall it tm,
      Map_get (store_of w self) key = Some it -> timer it = Some tm ->
      let w' := snd (TempMap.get self key true w) in
      TempMap.get self key false w = (value it, w) /\
      fst (TempMap.get self key true w) = value it /\
      Map_get (store_of w' self) key
        = Some (mkItem (value it) (Some (mkTimer (handle tm) (timeout tm) (now w)))) /\
      remaining_time (now w') (mkTimer (handle tm) (timeout tm) (now w)) = timeout tm /\
      timeouts w'
        = alter (fun t => mkTimeout (after t) (Some (now w + after t))
                            (owner t) (target t))
            (handle tm) (timeouts w) /\
      keys (store_of w' self) = keys (store_of w self)) /\
  (Map_get (store_of w self) key = None ->
   forall rt, TempMap.get self key rt w = (VUndefined, w)).
Proof.
  split.
  - intros it tm Hget Htm. cbn zeta.
    pose proof (get_touches self key true w) as Ht.
    split; [|split; [|split; [|split; [|split]]]].
    + unfold TempMap.get, bind, ret; cbn [fst snd]. by rewrite getItem_keep, Hget.
    + by apply get_value.
    + unfold TempMap.get, bind, ret; cbn [fst snd].
      destruct (getItem_refresh self key w) as [_ ->]. rewrite Hget.
      cbn [fmap option_fmap option_map]. unfold refresh_at. by rewrite Htm.
    + destruct Ht as (-> & _). unfold remaining_time. simpl. lia.
    + destruct it as [v0 tmo]. simpl in Htm. subst tmo.
      run. rewrite Hget. reflexivity.
    + eapply touches_keys_present; eauto.
  - intros Hget rt. by apply get_missing.
Qed.

Lemma get_slides_expiration_witness :
  remaining_time (now demo_half) (mkTimer 0 1000 0) = 600 /\
  Map_get (store_of (snd (TempMap.get 0%nat (VStr "a") true demo_half)) 0%nat)
    (VStr "a")
    = Some (mkItem (VNum 1) (Some (mkTimer 0 1000 400))) /\
  TempMap.get 0%nat (VStr "zz") true demo_half = (VUndefined, demo_half).
Proof.
  destruct (get_slides_expiration demo_half 0%nat (VStr "a")) as [H _].
  destruct (get_slides_expiration demo_half 0%nat (VStr "zz")) as [_ H'].
  split; [vm_compute; reflexivity|]. split.
  - exact (proj1 (proj2 (proj2
      (H (mkItem (VNum 1) (Some (mkTimer 0 1000 0))) (mkTimer 0 1000 0)
         ltac:(vm_compute; reflexivity) eq_refl)))).
  - apply H'. vm_compute. reflexivity.
Defined.

(** ** Removing entries and cancelled callbacks *)

Lemma fire_cleared h w : timeouts w !! h = None -> fire h w = w.
Proof. intros H. unfold fire. by rewrite H. Qed.

Lemma Map_delete_length (s : Store) k it :
  Map_get s k = Some it -> S (length (Map_delete s k)) = length s.
Proof.
  induction s as [|[k0 i0] s IH]; simpl; [done|].
  destruct (decide (k0 = k)); simpl; [done|]. intros H. by rewrite IH.
Qed.

Lemma delete_present self key it w :
  Map_get (store_of w self) key = Some it ->
  TempMap.delete self key w =
  (value it,
   snd (host_clearTimeout (timer it)
          (set_store self (Map_delete (store_of w self) key) w))).
Proof.
  intros Hget. unfold TempMap.delete, TempMap.deleteItem, bind, ret, read_store,
    write_store; cbn [fst snd].
  rewrite Hget. unfold Map_has. rewrite Hget. cbn [fst snd].
  unfold host_clearTimeout. by destruct (timer it).
Qed.

(** X3.  [delete(key)] on a key that is present returns the stored value,
    removes exactly that entry (the others keep their entries and order
    of lookup), shrinks the container by one and cancels the entry's
    callback, so that running it at any later time changes nothing.  On a
    key that is absent it returns [undefined] and changes nothing. *)
Theorem delete_removes_entry_and_timer
    (w : World) (self : nat) (key : JsVal) :
  wf_world w ->
  (forall it,
      Map_get (store_of w self) key = Some it ->
      let w' := snd (TempMap.delete self key w) in
      fst (TempMap.delete self key w) = value it /\
      Map_get (store_of w' self) key = None /\
      (forall rt, TempMap.get self key rt w' = (VUndefined, w')) /\
      (forall key', key <> key' ->
                    Map_get (store_of w' self) key' = Map_get (store_of w self) key') /\
      Map_size (store_of w' self) = Map_size (store_of w self) - 1 /\
      (forall tm dt, timer it = Some tm ->
                     timeouts w' !! handle tm = None /\
                     fire (handle tm) (tick dt w') = tick dt w')) /\
  (Map_get (store_of w self) key = None ->
   TempMap.delete self key w = (VUndefined, w)).
Proof.
  intros Hwf. split.
  - intros it Hget. cbn zeta. rewrite (delete_present _ _ _ _ Hget). cbn [fst snd].
    pose proof (wf_world_store w self Hwf) as [Hnd _].
    set (w1 := set_store self (Map_delete (store_of w self) key) w).
    assert (store_of (snd (host_clearTimeout (timer it) w1)) self
            = Map_delete (store_of w self) key) as Hst.
    { unfold host_clearTimeout. destruct (timer it); cbn [snd];
        unfold store_of; simpl; by rewrite lookup_insert_eq. }
    assert (Map_get (Map_delete (store_of w self) key) key = None) as Hnone
      by (by apply Map_get_delete_eq).
    split; [done|]. split; [by rewrite Hst|]. split; [|split; [|split]].
    + intros rt. apply get_missing. by rewrite Hst.
    + intros key' Hne. rewrite Hst. by apply Map_get_delete_ne.
    + rewrite Hst. unfold Map_size.
      rewrite <- (Map_delete_length _ _ _ Hget). lia.
    + intros tm dt Htm. rewrite Htm. cbn [host_clearTimeout snd].
      assert (timeouts (set_timeouts (delete (handle tm) (timeouts w1)) w1)
                !! handle tm = None) as Hno
        by (simpl; apply lookup_delete_eq).
      split; [exact Hno|]. by apply fire_cleared.
  - intros Hget. unfold TempMap.delete, TempMap.deleteItem, bind, ret, read_store;
      cbn [fst snd]. by rewrite Hget.
Qed.

Lemma delete_removes_entry_and_timer_witness :
  wf_world demo_half /\
  fst (TempMap.delete 0%nat (VStr "a") demo_half) = VNum 1 /\
  kv (store_of (snd (TempMap.delete 0%nat (VStr "a") demo_half)) 0%nat)
    = [(VStr "b", VNum 2)] /\
  TempMap.delete 0%nat (VStr "zz") demo_half = (VUndefined, demo_half).
Proof.
  assert (wf_world demo_half) as Hwf
    by (apply (bool_decide_unpack _); vm_compute; reflexivity).
  destruct (delete_removes_entry_and_timer demo_half 0%nat (VStr "a") Hwf) as [H _].
  destruct (delete_removes_entry_and_timer demo_half 0%nat (VStr "zz") Hwf) as [_ H'].
  split; [exact Hwf|]. split; [|split].
  - exact (proj1 (H (mkItem (VNum 1) (Some (mkTimer 0 1000 0)))
                    ltac:(vm_compute; reflexivity))).
  - vm_compute. reflexivity.
  - apply H'. vm_compute. reflexivity.
Defined.

(** X4.  Making an entry permanent with [set(key, value, n)], [n <= 0],
    cancels its callback: run at any later time, the old callback changes
    nothing, and the entry stays. *)
Theorem set_permanent_cancels_callback
    (w : World) (self : nat) (key v : JsVal) (it : Item) (tm : Timer) (n : Z) :
  Map_get (store_of w self) key = Some it ->
  timer it = Some tm ->
  n <= 0 ->
  let w' := snd (TempMap.set self key v (TNumber n) w) in
  forall dt,
    fire (handle tm) (tick dt w') = tick dt w' /\
    forall rt, fst (TempMap.get self key rt (fire (handle tm) (tick dt w'))) = v.
Proof.
  intros Hget Htm Hn. cbn zeta. intros dt.
  assert (fire (handle tm) (tick dt (snd (TempMap.set self key v (TNumber n) w)))
          = tick dt (snd (TempMap.set self key v (TNumber n) w))) as Hf.
  { apply fire_cleared. apply Z.ltb_ge in Hn.
    run. rewrite Hget. cbn [timer value]. rewrite Htm. simpl. rewrite Hn. simpl.
    apply lookup_delete_eq. }
  split; [exact Hf|]. intros rt. rewrite Hf.
  pose proof (set_get self key v (TNumber n) rt w) as Hg.
  destruct (Map_get (store_of (snd (TempMap.set self key v (TNumber n) w)) self) key)
    as [it'|] eqn:E.
  - rewrite (get_value _ _ _ it' _ E) in Hg.
    rewrite (get_value self key rt it' (tick dt _)); [exact Hg | exact E].
  - rewrite (get_missing _ _ _ _ E) in Hg.
    rewrite (get_missing self key rt (tick dt _)); [exact Hg | exact E].
Qed.

Lemma set_permanent_cancels_callback_witness :
  let w' := snd (TempMap.set 0%nat (VStr "a") (VNum 5) (TNumber 0) demo_half) in
  fire 0%nat (tick 5000 w') = tick 5000 w' /\
  fst (TempMap.get 0%nat (VStr "a") false (fire 0%nat (tick 5000 w'))) = VNum 5.
Proof.
  cbn zeta.
  destruct (set_permanent_cancels_callback demo_half 0%nat (VStr "a") (VNum 5)
              (mkItem (VNum 1) (Some (mkTimer 0 1000 0))) (mkTimer 0 1000 0) 0
              ltac:(vm_compute; reflexivity) eq_refl ltac:(lia) 5000) as [H1 H2].
  split; [exact H1 | exact (H2 false)].
Defined.

(** ** Expiration *)

Lemma set_arms self key v d w :
  0 < d ->
  timeouts (snd (TempMap.set self key v (TNumber d) w)) !! next_handle w
  = Some (mkTimeout (host_delay d) (Some (now w + host_delay d)) self key).
Proof.
  intros Hd. apply Z.ltb_lt in Hd. run.
  destruct (Map_get (store_of w self) key) as [[v0 [tm|]]|]; simpl;
    rewrite Hd; simpl; apply lookup_insert_eq.
Qed.

(** X5.  An entry written with a duration [d > 0] is present until the
    delay [host_delay d] that the host gives its callback has elapsed, and
    gone once the host has run the callback: run earlier the callback
    changes nothing and [get] still returns the value; run from then on it
    removes the entry, [get] returns [undefined], and the other keys are as
    they were.  The delay is [d] itself up to [TIMEOUT_MAX] and 1 ms for a
    longer duration. *)
Theorem set_entry_expires
    (w : World) (self : nat) (key v : JsVal) (d : Z) :
  wf_world w -> (self < next_ref w)%nat -> 0 < d ->
  let w' := snd (TempMap.set self key v (TNumber d) w) in
  let h := next_handle w in
  (d <= TIMEOUT_MAX -> host_delay d = d) /\
  (TIMEOUT_MAX < d -> host_delay d = 1) /\
  forall dt,
    (0 <= dt < host_delay d ->
     fire h (tick dt w') = tick dt w' /\
     fst (TempMap.get self key false (tick dt w')) = v) /\
    (host_delay d <= dt ->
     let w'' := fire h (tick dt w') in
     (forall rt, TempMap.get self key rt w'' = (VUndefined, w'')) /\
     forall key', key <> key' ->
                  Map_get (store_of w'' self) key' = Map_get (store_of w' self) key').
Proof.
  intros Hwf Hs Hd. cbn zeta.
  split; [by apply host_delay_in_range|]. split; [apply host_delay_overflow|].
  intros dt.
  set (w' := snd (TempMap.set self key v (TNumber d) w)).
  pose proof (set_arms self key v d w Hd) as Harm. fold w' in Harm.
  assert (wf_world w') as Hwf'
    by (eapply touches_wf; [apply set_touches|done|done]).
  split.
  - intros [Hd0 Hd1]. split.
    + eapply fire_early; [exact Harm|reflexivity|].
      simpl. destruct (set_touches self key v (TNumber d) w) as (Hn & _).
      fold w' in Hn. lia.
    + exact (set_get self key v (TNumber d) false w).
  - intros Hdt. cbn zeta.
    pose proof (fire_due (next_handle w) _ (now w + host_delay d) (tick dt w')
                  Harm eq_refl) as Hf.
    simpl in Hf.
    destruct (set_touches self key v (TNumber d) w) as (Hn & _). fold w' in Hn.
    specialize (Hf ltac:(lia)).
    change (store_of (tick dt w') self) with (store_of w' self) in Hf.
    split.
    + intros rt. apply get_missing. rewrite Hf. apply Map_get_delete_eq.
      by destruct (wf_world_store w' self Hwf').
    + intros key' Hne. rewrite Hf. by apply Map_get_delete_ne.
Qed.

Lemma set_entry_expires_witness :
  let w' := snd (TempMap.set 0%nat (VStr "c") (VNum 3) (TNumber 50) demo0) in
  fire 1%nat (tick 49 w') = tick 49 w' /\
  TempMap.get 0%nat (VStr "c") true (fire 1%nat (tick 50 w'))
    = (VUndefined, fire 1%nat (tick 50 w')).
Proof.
  cbn zeta.
  assert (wf_world demo0) as Hwf
    by (apply (bool_decide_unpack _); vm_compute; reflexivity).
  pose proof (set_entry_expires demo0 0%nat (VStr "c") (VNum 3) 50 Hwf
                ltac:(vm_compute; lia) ltac:(lia)) as H.
  cbn zeta in H. destruct H as (_ & _ & H).
  change (host_delay 50) with 50 in H. split.
  - exact (proj1 (proj1 (H 49) ltac:(lia))).
  - exact (proj1 (proj2 (H 50) ltac:(lia)) true).
Defined.

(** ** [sweep] and [clear] *)

Lemma Map_delete_middle (pre l : Store) k it :
  k ∉ keys pre -> Map_delete (pre ++ (k, it) :: l) k = pre ++ l.
Proof.
  induction pre as [|[k0 i0] pre IH]; simpl; intros Hk.
  - by rewrite decide_True.
  - apply not_elem_of_cons in Hk as [Hne Hk].
    rewrite decide_False by done. by rewrite IH.
Qed.

Lemma Map_get_middle (pre l : Store) k it :
  k ∉ keys pre -> Map_get (pre ++ (k, it) :: l) k = Some it.
Proof.
  intros Hk. rewrite Map_get_app_None by (by apply Map_get_None).
  simpl. by rewrite decide_True.
Qed.

Lemma sweep_loop self (p : JsVal -> JsVal -> bool) (l : Store) :
  forall pre w,
    store_of w self = pre ++ l -> NoDup (keys (pre ++ l)) ->
    store_of
      (snd (for_each l
              (fun e => b <- ask ((fun v k (_ : nat) (_ : World) => p v k)
                                    (value (snd e)) (fst e) self) ;;
                        if b then TempMap.deleteItem self (fst e) (Some (snd e)) ;;; ret tt
                        else ret tt) w)) self
    = pre ++ List.filter (fun e => negb (p (value (snd e)) (fst e))) l.
Proof.
  induction l as [|[k it] l IH]; intros pre w Hs Hnd; [exact Hs|].
  rewrite for_each_cons. cbn [List.filter fst snd].
  assert (k ∉ keys pre) as Hk.
  { unfold keys in Hnd. rewrite map_app in Hnd. apply NoDup_app in Hnd as (_ & Hd & _).
    intros Hin. apply (Hd k Hin). simpl. apply list_elem_of_here. }
  unfold bind at 2, ask. cbn [fst snd].
  destruct (p (value it) k) eqn:Ep; cbn [negb].
  - apply IH.
    + run. rewrite Hs. unfold Map_has. rewrite Map_get_middle by done.
      cbn [fst snd]. rewrite Map_delete_middle by done.
      destruct (timer it); cbn [snd]; unfold store_of; simpl;
        by rewrite lookup_insert_eq.
    + unfold keys in *. rewrite map_app in *. simpl in Hnd.
      apply NoDup_app in Hnd as (H1 & H2 & H3). apply NoDup_cons in H3 as [_ H3].
      apply NoDup_app. split; [done|]. split; [|done].
      intros x Hx Hx'. apply (H2 x Hx). by apply list_elem_of_further.
  - cbn [ret snd].
    match goal with
    | |- _ = pre ++ (k, it) :: ?X =>
        replace (pre ++ (k, it) :: X) with ((pre ++ [(k, it)]) ++ X)
          by (by rewrite <- app_assoc)
    end.
    apply IH.
    + by rewrite <- app_assoc.
    + by rewrite <- app_assoc.
Qed.

Lemma sweep_result self (fn : Predicate) w :
  fst (TempMap.sweep self fn w)
  = Map_size (store_of w self)
    - Map_size (store_of (snd (TempMap.sweep self fn w)) self).
Proof. reflexivity. Qed.

Lemma filter_length_split {A} (q : A -> bool) (l : list A) :
  (length (List.filter q l) + length (List.filter (fun x => negb (q x)) l))%nat
  = length l.
Proof.
  induction l as [|x l IH]; simpl; [done|].
  destruct (q x); simpl; lia.
Qed.

(** X6.  [sweep(fn)] with a test that depends on the value and the key
    removes exactly the entries that pass it, keeps the others in their
    order, returns the number of entries removed and leaves the clock and
    the other containers alone. *)
Theorem sweep_removes_matching_entries
    (w : World) (self : nat) (p : JsVal -> JsVal -> bool) :
  wf_world w ->
  let r := TempMap.sweep self (fun v k _ _ => p v k) w in
  store_of (snd r) self
    = List.filter (fun e => negb (p (value (snd e)) (fst e))) (store_of w self) /\
  fst r
    = Z.of_nat (length (List.filter (fun e => p (value (snd e)) (fst e))
                          (store_of w self))) /\
  (forall r', r' <> self -> store_of (snd r) r' = store_of w r') /\
  now (snd r) = now w /\ wf_world (snd r).
Proof.
  intros Hwf. cbn zeta.
  assert (store_of (snd (TempMap.sweep self (fun v k _ _ => p v k) w)) self
          = List.filter (fun e => negb (p (value (snd e)) (fst e))) (store_of w self))
    as Hst.
  { rewrite sweep_world.
    apply (sweep_loop self p (store_of w self) [] w); [done|].
    by destruct (wf_world_store w self Hwf). }
  destruct (sweep_frame self (fun v k _ _ => p v k) w) as (F1 & _ & _ & F4 & F5).
  split; [exact Hst|]. split; [|split; [exact F4|split; [exact F1|by apply F5]]].
  rewrite sweep_result, Hst. unfold Map_size.
  pose proof (filter_length_split (fun e : JsVal * Item => p (value (snd e)) (fst e))
                (store_of w self)). lia.
Qed.

Lemma sweep_removes_matching_entries_witness :
  let r := TempMap.sweep 0%nat
             (fun v k _ _ => bool_decide (v = VNum 1)) demo0 in
  fst r = 1 /\ kv (store_of (snd r) 0%nat) = [(VStr "b", VNum 2)].
Proof.
  cbn zeta.
  assert (wf_world demo0) as Hwf
    by (apply (bool_decide_unpack _); vm_compute; reflexivity).
  destruct (sweep_removes_matching_entries demo0 0%nat
              (fun v _ => bool_decide (v = VNum 1)) Hwf) as (H1 & H2 & _).
  cbn zeta in H1, H2. split.
  - rewrite H2. vm_compute. reflexivity.
  - rewrite H1. vm_compute. reflexivity.
Defined.

Lemma sweep_step_cancelled self (fn : Predicate) e h w :
  timeouts w !! h = None ->
  timeouts
    (snd ((b <- ask (fn (value (snd e)) (fst e) self) ;;
           if b then TempMap.deleteItem self (fst e) (Some (snd e)) ;;; ret tt
           else ret tt) w)) !! h = None.
Proof.
  intros Hh. run. destruct (fn _ _ _ _); cbn [fst snd]; [|exact Hh].
  destruct (Map_has _ _); cbn [fst snd]; [|exact Hh].
  destruct (timer (snd e)) as [tm|]; simpl; [|exact Hh].
  rewrite lookup_delete. case_decide; done.
Qed.

Lemma clear_loop_cancels self (l : Store) :
  forall w k it tm,
    store_of w self = l -> (k, it) ∈ l -> timer it = Some tm ->
    timeouts
      (snd (for_each l
              (fun e => b <- ask ((fun _ _ _ _ => true) (value (snd e)) (fst e) self) ;;
                        if b then TempMap.deleteItem self (fst e) (Some (snd e)) ;;; ret tt
                        else ret tt) w)) !! handle tm = None.
Proof.
  induction l as [|[k0 it0] l IH]; intros w k it tm Hs Hin Htm.
  - by apply elem_of_nil in Hin.
  - rewrite for_each_cons.
    match goal with
    | |- timeouts (snd (for_each l _ ?W)) !! _ = _ => set (w1 := W)
    end.
    assert (store_of w1 self = l) as Hs1.
    { unfold w1. run. rewrite Hs. unfold Map_has. simpl. rewrite decide_True by done.
      cbn [fst snd]. rewrite decide_True by done.
      destruct (timer it0); cbn [snd]; unfold store_of; simpl;
        by rewrite lookup_insert_eq. }
    apply elem_of_cons in Hin as [[= -> ->]|Hin].
    + apply (for_each_inv (fun w' => timeouts w' !! handle tm = None)).
      * intros e w' _ Hw'.
        exact (sweep_step_cancelled self (fun _ _ _ _ => true) e (handle tm) w' Hw').
      * unfold w1. run. rewrite Hs. unfold Map_has. simpl.
        rewrite decide_True by done. cbn [fst snd]. rewrite Htm. simpl.
        apply lookup_delete_eq.
    + eapply IH; eauto.
Qed.

(** X7.  [clear()] returns the number of entries the container held and
    leaves it empty: every [get] then returns [undefined], [hasAny] is
    false for any keys, and a second [clear()] returns 0 and changes
    nothing.  The callbacks of the cleared entries are cancelled: run at
    any later time they change nothing.  The clock and the other
    containers are untouched. *)
Theorem clear_empties_and_cancels (w : World) (self : nat) :
  let w' := snd (TempMap.clear self w) in
  fst (TempMap.clear self w) = Map_size (store_of w self) /\
  store_of w' self = [] /\
  (forall key rt, TempMap.get self key rt w' = (VUndefined, w')) /\
  (forall ks, TempMap.hasAny self ks w' = (false, w')) /\
  TempMap.clear self w' = (0, w') /\
  (forall k it tm dt,
      (k, it) ∈ store_of w self -> timer it = Some tm ->
      fire (handle tm) (tick dt w') = tick dt w') /\
  (forall r, r <> self -> store_of w' r = store_of w r) /\
  now w' = now w.
Proof.
  cbn zeta. pose proof (clear_empties self w) as Hemp.
  destruct (sweep_frame self (fun _ _ _ _ => true) w) as (F1 & _ & _ & F4 & _).
  fold (TempMap.clear self w) in F1, F4.
  split; [|split; [exact Hemp|split; [|split; [|split; [|split; [|split]]]]]].
  - unfold TempMap.clear at 1. rewrite sweep_result.
    fold (TempMap.clear self w). rewrite Hemp. unfold Map_size. simpl. lia.
  - intros key rt. apply get_missing. by rewrite Hemp.
  - intros ks. unfold TempMap.hasAny, bind, ret, read_store; cbn [fst snd].
    rewrite Hemp. f_equal. induction ks as [|k ks IH]; [done|]. simpl. exact IH.
  - unfold TempMap.clear at 1, TempMap.sweep, bind, ret, read_store; cbn [fst snd].
    rewrite Hemp. cbn [for_each ret snd]. rewrite Hemp. reflexivity.
  - intros k it tm dt Hin Htm. apply fire_cleared. cbn [tick timeouts].
    unfold TempMap.clear. rewrite sweep_world.
    by apply (clear_loop_cancels self (store_of w self) w k it tm).
  - exact F4.
  - exact F1.
Qed.

(** ** [ensure] *)

Lemma kv_Map_set_same (s : Store) k it it' :
  Map_get s k = Some it -> value it' = value it -> kv (Map_set s k it') = kv s.
Proof.
  induction s as [|[k0 i0] s IH]; simpl; [done|].
  destruct (decide (k0 = k)); simpl.
  - intros [= ->] Hv. by rewrite Hv.
  - intros Hget Hv. by rewrite IH.
Qed.

Lemma getItem_refresh_store self key w :
  store_of (snd (TempMap.getItem self key true w)) self
  = match Map_get (store_of w self) key with
    | Some it => Map_set (store_of w self) key (refresh_at (now w) it)
    | None => store_of w self
    end.
Proof.
  run. destruct (Map_get (store_of w self) key) as [[v [tm|]]|] eqn:E; run; simpl;
    try rewrite store_of_set_store_eq; reflexivity.
Qed.

(** The value [ensure] inserts when the key is absent. *)
Lemma getValue_result d key self w :
  fst (getValue d key self w)
  = match d with DValue v => v | DFactory f => f key self w end.
Proof. by destruct d. Qed.

(** X8.  [ensure] on a key that is present returns the stored value and
    never replaces it: the key/value pairs and their order are as before,
    and with [refreshTimeout = false] nothing at all changes.  On a key
    that is absent it stores the default, or what the factory returns for
    [(key, map)], appends the key at the end and returns that value, which
    [get] then returns too. *)
Theorem ensure_gets_or_inserts
    (w : World) (self : nat) (key : JsVal) (d : DefaultValue) (t : TimeoutArg) :
  (forall it,
      Map_get (store_of w self) key = Some it ->
      (forall rt,
          fst (TempMap.ensure self key d t rt w) = value it /\
          kv (store_of (snd (TempMap.ensure self key d t rt w)) self)
            = kv (store_of w self)) /\
      TempMap.ensure self key d t false w = (value it, w)) /\
  (Map_get (store_of w self) key = None ->
   forall rt,
     let v := match d with DValue v => v | DFactory f => f key self w end in
     let w' := snd (TempMap.ensure self key d t rt w) in
     fst (TempMap.ensure self key d t rt w) = v /\
     (forall rt', fst (TempMap.get self key rt' w') = v) /\
     keys (store_of w' self) = keys (store_of w self) ++ [key]).
Proof.
  split.
  - intros it Hget.
    assert (TempMap.ensure self key d t false w = (value it, w)) as Hfalse.
    { unfold TempMap.ensure, bind; cbn [fst snd]. by rewrite getItem_keep, Hget. }
    split; [|exact Hfalse].
    intros [|]; [|by rewrite Hfalse].
    rewrite (ensure_hit _ _ _ _ _ _ Hget). cbn [fst snd]. split; [done|].
    rewrite getItem_refresh_store, Hget.
    apply (kv_Map_set_same _ _ it); [done|]. by destruct it.
  - intros Hget rt. cbn zeta.
    assert (TempMap.ensure self key d t rt w
            = TempMap.setItem self key None
                (match d with DValue v => v | DFactory f => f key self w end) t w)
      as Heq.
    { unfold TempMap.ensure, bind; cbn [fst snd].
      rewrite (getItem_miss _ _ _ _ Hget). cbn [fst snd].
      rewrite getValue_world, getValue_result. reflexivity. }
    rewrite Heq. split; [|split].
    + unfold TempMap.setItem, bind, ret; cbn [fst snd]. reflexivity.
    + intros rt'.
      destruct (setItem_stores self key None
                  (match d with DValue v => v | DFactory f => f key self w end) t w)
        as (it' & Hg & Hv); [done|].
      by rewrite (get_value _ _ _ _ _ Hg).
    + by apply setItem_new_keys.
Qed.

Lemma ensure_gets_or_inserts_witness :
  TempMap.ensure 0%nat (VStr "a") (DValue (VNum 9)) TUndefined false demo0
    = (VNum 1, demo0) /\
  fst (TempMap.ensure 0%nat (VStr "k") (DFactory (fun key _ _ => key)) TUndefined
         true demo0) = VStr "k" /\
  keys (store_of (snd (TempMap.ensure 0%nat (VStr "k") (DFactory (fun key _ _ => key))
                         TUndefined true demo0)) 0%nat)
    = [VStr "a"; VStr "b"; VStr "k"].
Proof.
  destruct (ensure_gets_or_inserts demo0 0%nat (VStr "a") (DValue (VNum 9)) TUndefined)
    as [H _].
  destruct (ensure_gets_or_inserts demo0 0%nat (VStr "k")
              (DFactory (fun key _ _ => key)) TUndefined) as [_ H'].
  split.
  - exact (proj2 (H (mkItem (VNum 1) (Some (mkTimer 0 1000 0)))
                    ltac:(vm_compute; reflexivity))).
  - specialize (H' ltac:(vm_compute; reflexivity) true). cbn zeta in H'.
    destruct H' as (H1 & _ & H3). split; [exact H1|].
    rewrite H3. vm_compute. reflexivity.
Defined.

(** ** [at] *)

Lemma at_loop_lookup (s : Store) :
  forall index i,
    i <= index -> TempMap.at_loop s index i = s !! Z.to_nat (index - i).
Proof.
  induction s as [|[k it] s IH]; intros index i Hi; simpl; [done|].
  destruct (index =? i) eqn:E.
  - apply Z.eqb_eq in E. subst. by rewrite Z.sub_diag.
  - apply Z.eqb_neq in E. rewrite IH by lia.
    replace (Z.to_nat (index - i)) with (S (Z.to_nat (index - (i + 1)))) by lia.
    done.
Qed.

Lemma kv_lookup (s : Store) n :
  kv s !! n = (fun e => (fst e, value (snd e))) <$> s !! n.
Proof.
  revert n. induction s as [|e s IH]; intros [|n]; simpl; try done.
Qed.

(** X9.  [at(index)] returns the key/value pair at that position of the
    iteration order, a negative index counting from the end ([-1] is the
    last entry), and [undefined] exactly when the position falls outside
    the container.  With [refreshTimeout = false] it changes nothing; with
    [true] it keeps every key/value pair and the order. *)
Theorem at_returns_positional_entry (w : World) (self : nat) (index : Z) :
  wf_world w ->
  let s := store_of w self in
  let i := if index <? 0 then Map_size s + index else index in
  let found := if 0 <=? i then kv s !! Z.to_nat i else None in
  TempMap.at_ self index false w = (found, w) /\
  fst (TempMap.at_ self index true w) = found /\
  kv (store_of (snd (TempMap.at_ self index true w)) self) = kv s /\
  (found = None <-> i < 0 \/ Map_size s <= i).
Proof.
  intros Hwf s i found.
  assert (TempMap.at_loop s i 0 = if 0 <=? i then s !! Z.to_nat i else None) as Hloop.
  { destruct (0 <=? i) eqn:E.
    - apply Z.leb_le in E. rewrite at_loop_lookup by done. by rewrite Z.sub_0_r.
    - apply Z.leb_gt in E. apply at_loop_None. lia. }
  assert ((fun e : JsVal * Item => (fst e, value (snd e))) <$> TempMap.at_loop s i 0
          = found) as Hfound.
  { rewrite Hloop. unfold found. destruct (0 <=? i); [|done]. by rewrite kv_lookup. }
  split; [|split; [|split]].
  - unfold TempMap.at_, bind, read_store, ret; cbn [fst snd]. fold s. fold i.
    rewrite <- Hfound. by destruct (TempMap.at_loop s i 0) as [[k it]|].
  - unfold TempMap.at_, bind, read_store, ret; cbn [fst snd]. fold s. fold i.
    rewrite <- Hfound. by destruct (TempMap.at_loop s i 0) as [[k it]|].
  - unfold TempMap.at_, bind, read_store, ret; cbn [fst snd]. fold s. fold i.
    destruct (TempMap.at_loop s i 0) as [[k it]|] eqn:E; [|done].
    apply at_loop_elem in E.
    pose proof (wf_world_store w self Hwf) as [Hnd _]. fold s in Hnd.
    pose proof (Map_get_unique _ _ _ Hnd E) as Hget.
    destruct it as [v [tm|]]; run; simpl; rewrite store_of_set_store_eq; fold s;
      by apply (kv_Map_set_same _ _ _ _ Hget).
  - unfold found, Map_size. destruct (0 <=? i) eqn:E.
    + apply Z.leb_le in E. rewrite lookup_ge_None.
      unfold kv. rewrite length_map. lia.
    + apply Z.leb_gt in E. split; [intros _; lia | done].
Qed.

Lemma at_returns_positional_entry_witness :
  TempMap.at_ 0%nat 1 false demo0 = (Some (VStr "b", VNum 2), demo0) /\
  TempMap.at_ 0%nat (-1) false demo0 = (Some (VStr "b", VNum 2), demo0) /\
  TempMap.at_ 0%nat (-2) false demo0 = (Some (VStr "a", VNum 1), demo0).
Proof.
  assert (wf_world demo0) as Hwf
    by (apply (bool_decide_unpack _); vm_compute; reflexivity).
  split; [|split].
  - rewrite (proj1 (at_returns_positional_entry demo0 0%nat 1 Hwf)).
    vm_compute. reflexivity.
  - rewrite (proj1 (at_returns_positional_entry demo0 0%nat (-1) Hwf)).
    vm_compute. reflexivity.
  - rewrite (proj1 (at_returns_positional_entry demo0 0%nat (-2) Hwf)).
    vm_compute. reflexivity.
Defined.

(** ** [hasAll], [hasAny], [every] and [find] *)

Lemma Map_has_get (s : Store) k : Map_has s k = true <-> is_Some (Map_get s k).
Proof.
  unfold Map_has. destruct (Map_get s k); split; try done;
    first [by eexists | by intros [? ?]].
Qed.

(** X10.  [hasAll] holds exactly when every given key is in the container
    and [hasAny] exactly when one of them is; neither changes anything.
    A key just written with [set] is there, a key just removed with
    [delete] is not. *)
Theorem has_follows_membership (w : World) (self : nat) (ks : list JsVal) :
  TempMap.hasAll self ks w
    = (bool_decide (Forall (fun k => k ∈ keys (store_of w self)) ks), w) /\
  TempMap.hasAny self ks w
    = (bool_decide (Exists (fun k => k ∈ keys (store_of w self)) ks), w) /\
  (forall k v t, TempMap.hasAll self [k] (snd (TempMap.set self k v t w))
                 = (true, snd (TempMap.set self k v t w))) /\
  (wf_world w ->
   forall k, TempMap.hasAny self [k] (snd (TempMap.delete self k w))
             = (false, snd (TempMap.delete self k w))).
Proof.
  assert (forall w0 ks0,
             forallb (Map_has (store_of w0 self)) ks0
             = bool_decide (Forall (fun k => k ∈ keys (store_of w0 self)) ks0)) as Hall.
  { intros w0 ks0. apply eq_true_iff_eq. rewrite bool_decide_eq_true, forallb_forall.
    rewrite Forall_forall. split; intros H k Hk.
    - apply Map_has_true, H. by apply list_elem_of_In.
    - apply Map_has_true, H. by apply list_elem_of_In. }
  assert (forall w0 ks0,
             existsb (Map_has (store_of w0 self)) ks0
             = bool_decide (Exists (fun k => k ∈ keys (store_of w0 self)) ks0)) as Hany.
  { intros w0 ks0. apply eq_true_iff_eq. rewrite bool_decide_eq_true, existsb_exists.
    rewrite Exists_exists. split; intros (k & Hk & H); exists k.
    - split; [by apply list_elem_of_In | by apply Map_has_true].
    - split; [by apply list_elem_of_In | by apply Map_has_true]. }
  split; [|split; [|split]].
  - unfold TempMap.hasAll, bind, ret, read_store; cbn [fst snd]. by rewrite Hall.
  - unfold TempMap.hasAny, bind, ret, read_store; cbn [fst snd]. by rewrite Hany.
  - intros k v t. unfold TempMap.hasAll, bind, ret, read_store; cbn [fst snd].
    f_equal. cbn [forallb]. rewrite andb_true_r. apply Map_has_get.
    destruct (setItem_stores self k (Map_get (store_of w self) k) v t w)
      as (it' & Hget & _); [by intros it ->|].
    change (snd (TempMap.setItem self k (Map_get (store_of w self) k) v t w))
      with (snd (TempMap.set self k v t w)) in Hget.
    rewrite Hget. by eexists.
  - intros Hwf k. unfold TempMap.hasAny, bind, ret, read_store; cbn [fst snd].
    f_equal. cbn [existsb]. rewrite orb_false_r. unfold Map_has.
    pose proof (removes_wf self k w _ (delete_removes self k w) Hwf) as Hwf'.
    destruct (delete_removes self k w) as (_ & _ & _ & [H|(_ & H)]).
    + rewrite (store_of_heap _ _ _ H).
      destruct (Map_get (store_of w self) k) as [it|] eqn:E; [|done].
      exfalso. rewrite (delete_present _ _ _ _ E) in H. cbn [snd] in H.
      assert (store_of (snd (host_clearTimeout (timer it)
                               (set_store self (Map_delete (store_of w self) k) w))) self
              = store_of w self) as Hs by (by apply store_of_heap).
      assert (store_of (snd (host_clearTimeout (timer it)
                               (set_store self (Map_delete (store_of w self) k) w))) self
              = Map_delete (store_of w self) k) as Hs'.
      { unfold host_clearTimeout. destruct (timer it); cbn [snd];
          unfold store_of; simpl; by rewrite lookup_insert_eq. }
      rewrite Hs in Hs'. pose proof (Map_delete_length _ _ _ E) as Hl.
      rewrite <- Hs' in Hl. lia.
    + rewrite (store_of_insert _ _ _ _ H).
      rewrite Map_get_delete_eq; [done|]. by destruct (wf_world_store w self Hwf).
Qed.

Lemma has_follows_membership_witness :
  TempMap.hasAll 0%nat [VStr "a"; VStr "b"] demo0 = (true, demo0) /\
  TempMap.hasAll 0%nat [VStr "a"; VStr "zz"] demo0 = (false, demo0) /\
  fst (TempMap.hasAny 0%nat [VStr "a"] (snd (TempMap.delete 0%nat (VStr "a") demo0)))
    = false.
Proof.
  assert (wf_world demo0) as Hwf
    by (apply (bool_decide_unpack _); vm_compute; reflexivity).
  split; [|split].
  - rewrite (proj1 (has_follows_membership demo0 0%nat [VStr "a"; VStr "b"])).
    vm_compute. reflexivity.
  - rewrite (proj1 (has_follows_membership demo0 0%nat [VStr "a"; VStr "zz"])).
    vm_compute. reflexivity.
  - destruct (has_follows_membership demo0 0%nat []) as (_ & _ & _ & H).
    by rewrite (H Hwf (VStr "a")).
Defined.

Lemma find_loop_spec (s : Store) self (fn : Predicate) w :
  match TempMap.find_loop s self fn w with
  | Some (k, v) =>
      exists pre it post,
        s = pre ++ (k, it) :: post /\ v = value it /\
        fn (value it) k self w = true /\
        forall e, e ∈ pre -> fn (value (snd e)) (fst e) self w = false
  | None => forall e, e ∈ s -> fn (value (snd e)) (fst e) self w = false
  end.
Proof.
  induction s as [|[k it] s IH]; simpl.
  - intros e He. by apply elem_of_nil in He.
  - destruct (fn (value it) k self w) eqn:E.
    + exists [], it, s. split; [done|]. split; [done|]. split; [done|].
      intros e He. by apply elem_of_nil in He.
    + destruct (TempMap.find_loop s self fn w) as [[k' v']|].
      * destruct IH as (pre & it' & post & -> & Hv & Hf & Hpre).
        exists ((k, it) :: pre), it', post. split; [done|]. split; [done|].
        split; [done|]. intros e He. apply elem_of_cons in He as [->|He]; auto.
      * intros e He. apply elem_of_cons in He as [->|He]; auto.
Qed.

(** X11.  [find(fn)] returns the first entry, in iteration order, that
    passes the test: every entry before it fails; it returns [undefined]
    exactly when [every] entry fails the test.  [every(fn)] holds exactly
    when all entries pass, so it holds for an empty container.  Neither
    changes anything. *)
Theorem find_returns_first_match (w : World) (self : nat) (fn : Predicate) :
  let s := store_of w self in
  snd (TempMap.find self fn w) = w /\ snd (TempMap.every self fn w) = w /\
  (forall k v,
      fst (TempMap.find self fn w) = Some (k, v) ->
      exists pre it post,
        s = pre ++ (k, it) :: post /\ v = value it /\
        fn v k self w = true /\
        forall e, e ∈ pre -> fn (value (snd e)) (fst e) self w = false) /\
  (fst (TempMap.find self fn w) = None <->
   fst (TempMap.every self (fun v k m w0 => negb (fn v k m w0)) w) = true) /\
  (fst (TempMap.every self fn w) = true <->
   forall e, e ∈ s -> fn (value (snd e)) (fst e) self w = true).
Proof.
  intros s. split; [done|]. split; [done|].
  unfold TempMap.find, TempMap.every, bind, read_store, ask; cbn [fst snd]. fold s.
  pose proof (find_loop_spec s self fn w) as Hspec.
  split; [|split].
  - intros k v Hf. rewrite Hf in Hspec.
    destruct Hspec as (pre & it & post & H1 & H2 & H3 & H4).
    exists pre, it, post. subst v. done.
  - rewrite forallb_forall. split.
    + intros Hf. rewrite Hf in Hspec. intros e He.
      apply negb_true_iff, Hspec. by apply list_elem_of_In.
    + intros Hall. destruct (TempMap.find_loop s self fn w) as [[k v]|]; [|done].
      destruct Hspec as (pre & it & post & H1 & _ & H3 & _).
      assert ((k, it) ∈ s) as Hin.
      { rewrite H1. apply elem_of_app. right. apply list_elem_of_here. }
      apply list_elem_of_In in Hin. specialize (Hall _ Hin). simpl in Hall.
      rewrite H3 in Hall. done.
  - rewrite forallb_forall. split; intros H e He.
    + apply H. by apply list_elem_of_In.
    + apply H. by apply list_elem_of_In.
Qed.

Lemma find_returns_first_match_witness :
  fst (TempMap.find 0%nat (fun v _ _ _ => bool_decide (v = VNum 2)) demo0)
    = Some (VStr "b", VNum 2) /\
  exists pre it post,
    store_of demo0 0%nat = pre ++ (VStr "b", it) :: post /\ VNum 2 = value it.
Proof.
  assert (fst (TempMap.find 0%nat (fun v _ _ _ => bool_decide (v = VNum 2)) demo0)
          = Some (VStr "b", VNum 2)) as Hf by (vm_compute; reflexivity).
  split; [exact Hf|].
  destruct (find_returns_first_match demo0 0%nat
              (fun v _ _ _ => bool_decide (v = VNum 2))) as (_ & _ & H & _).
  destruct (H _ _ Hf) as (pre & it & post & H1 & H2 & _).
  exists pre, it, post. done.
Defined.

(** ** [equals] *)

Lemma NoDup_kv (s : Store) : NoDup (keys s) -> NoDup (kv s).
Proof.
  intros H. apply (NoDup_fmap_1 fst).
  change (NoDup (List.map fst (kv s))). by rewrite kv_keys.
Qed.

Lemma Map_get_kv (s : Store) k v :
  NoDup (keys s) ->
  ((k, v) ∈ kv s <-> exists it, Map_get s k = Some it /\ value it = v).
Proof.
  intros Hnd. rewrite elem_kv. split; intros (it & H & Hv); exists it.
  - split; [by apply Map_get_unique | done].
  - split; [by apply Map_get_elem | done].
Qed.

Lemma equals_loop_spec (s o : Store) :
  NoDup (keys o) ->
  forallb
    (fun e =>
       match Map_get o (fst e) with
       | Some otherItem => bool_decide (value otherItem = value (snd e))
       | None => false
       end) s = true <->
  forall x, x ∈ kv s -> x ∈ kv o.
Proof.
  intros Hnd. rewrite forallb_forall. split.
  - intros H [k v] Hin. apply elem_kv in Hin as (it & Hin & <-).
    apply list_elem_of_In in Hin. specialize (H _ Hin). simpl in H.
    destruct (Map_get o k) as [oi|] eqn:E; [|done].
    apply bool_decide_eq_true_1 in H. apply Map_get_kv; [done|]. eauto.
  - intros H [k it] Hin. apply list_elem_of_In in Hin. simpl.
    assert ((k, value it) ∈ kv o) as Ho by (apply H, elem_kv; eauto).
    apply Map_get_kv in Ho as (oi & -> & Hv); [|done].
    by apply bool_decide_eq_true_2.
Qed.

Lemma equals_iff w a b :
  wf_world w ->
  fst (TempMap.equals a b w) = true <->
  kv (store_of w a) ≡ₚ kv (store_of w b).
Proof.
  intros Hwf. unfold TempMap.equals.
  destruct (decide (a = b)) as [->|Hne]; [done|].
  unfold bind, ret, read_store; cbn [fst snd].
  pose proof (wf_world_store w a Hwf) as [Hna _].
  pose proof (wf_world_store w b Hwf) as [Hnb _].
  destruct (Map_size (store_of w b) =? Map_size (store_of w a)) eqn:Es; cbn [negb fst].
  - apply Z.eqb_eq in Es. unfold Map_size in Es.
    rewrite (equals_loop_spec _ _ Hnb). split.
    + intros Hsub. apply submseteq_length_Permutation.
      * apply NoDup_submseteq; [by apply NoDup_kv | exact Hsub].
      * unfold kv. rewrite !length_map. lia.
    + intros Hp x Hx. by rewrite <- Hp.
  - apply Z.eqb_neq in Es. split; [done|]. intros Hp. exfalso. apply Es.
    apply Permutation_length in Hp. unfold kv in Hp. rewrite !length_map in Hp.
    unfold Map_size. lia.
Qed.

Lemma equals_world a b w : snd (TempMap.equals a b w) = w.
Proof.
  unfold TempMap.equals. destruct (decide (a = b)); [done|].
  unfold bind, ret, read_store; cbn [fst snd].
  by destruct (negb (Map_size (store_of w b) =? Map_size (store_of w a))).
Qed.

(** X12.  [equals(other)] changes nothing and holds exactly when the two
    containers hold the same key/value pairs, whatever their order and
    their timers; it is therefore symmetric, and a container equals
    itself. *)
Theorem equals_compares_key_value_pairs (w : World) (self other : nat) :
  wf_world w ->
  snd (TempMap.equals self other w) = w /\
  (fst (TempMap.equals self other w) = true <->
   kv (store_of w self) ≡ₚ kv (store_of w other)) /\
  fst (TempMap.equals self other w) = fst (TempMap.equals other self w) /\
  TempMap.equals self self w = (true, w).
Proof.
  intros Hwf.
  split; [apply equals_world|split; [by apply equals_iff|split]].
  - apply eq_true_iff_eq. rewrite !equals_iff by done. split; intros H; by symmetry.
  - unfold TempMap.equals. by rewrite decide_True.
Qed.

Lemma equals_compares_key_value_pairs_witness :
  fst (TempMap.equals 0%nat 1%nat demo_sets) = false /\
  fst (TempMap.equals 0%nat 1%nat demo_sets)
    = fst (TempMap.equals 1%nat 0%nat demo_sets).
Proof.
  assert (wf_world demo_sets) as Hwf
    by (apply (bool_decide_unpack _); vm_compute; reflexivity).
  destruct (equals_compares_key_value_pairs demo_sets 0%nat 1%nat Hwf)
    as (_ & _ & Hsym & _).
  split; [vm_compute; reflexivity | exact Hsym].
Defined.

(** ** [clone] as a copy *)

(** X13.  [clone(refreshTimeout)] returns a new container and leaves the
    source as it was.  The clone holds, in order, the key/value pairs of
    the source that the copy does not skip, all of them with
    [refreshTimeout = true], in which case the clone [equals] the source.
    The two are independent: writing to the clone does not change the
    source. *)
Theorem clone_is_an_independent_copy
    (w : World) (self : nat) (rt : bool) :
  wf_world w -> (self < next_ref w)%nat ->
  let m := fst (TempMap.clone self rt w) in
  let w' := snd (TempMap.clone self rt w) in
  m = next_ref w /\
  store_of w m = [] /\
  store_of w' self = store_of w self /\
  kv (store_of w' m) = kv (List.filter (copied rt (now w)) (store_of w self)) /\
  (rt = true ->
   kv (store_of w' m) = kv (store_of w self) /\
   fst (TempMap.equals self m w') = true /\
   fst (TempMap.equals m self w') = true) /\
  (forall key v t,
      store_of (snd (TempMap.set m key v t w')) self = store_of w self /\
      store_of (snd (TempMap.delete m key w')) self = store_of w self).
Proof.
  intros Hwf Hs. cbn zeta. rewrite clone_eq by done. cbn [fst snd].
  pose proof (wf_world_store w self Hwf) as [Hnd _].
  destruct (build_spec (store_of w self) rt w Hwf Hnd)
    as (_ & Hst & Hfr & _ & Hwf' & _). cbn zeta in *.
  set (w' := snd (for_each (store_of w self)
                    (TempMap.copy_entry (next_ref w) false rt)
                    (snd (new_TempMap w)))) in *.
  assert (store_of w' self = store_of w self) as Hself by (apply Hfr; lia).
  assert (kv (store_of w' (next_ref w))
          = kv (List.filter (copied rt (now w)) (store_of w self))) as Hkv
    by (rewrite Hst; apply kv_copy_items).
  split; [done|]. split; [|split; [exact Hself|split; [exact Hkv|split]]].
  - unfold store_of. by rewrite wf_world_fresh_ref.
  - intros ->. rewrite filter_all in Hkv by done. split; [exact Hkv|].
    split; apply equals_iff; try done; by rewrite Hself, Hkv.
  - intros key v t. split.
    + rewrite (touches_other _ _ _ _ self (set_touches (next_ref w) key v t w'))
        by lia. exact Hself.
    + rewrite (removes_other _ _ _ _ self (delete_removes (next_ref w) key w'))
        by lia. exact Hself.
Qed.

Lemma clone_is_an_independent_copy_witness :
  let m := fst (TempMap.clone 0%nat true demo_half) in
  let w' := snd (TempMap.clone 0%nat true demo_half) in
  m = 2%nat /\
  kv (store_of w' m) = [(VStr "a", VNum 1); (VStr "b", VNum 2)] /\
  fst (TempMap.equals 0%nat m w') = true.
Proof.
  cbn zeta.
  assert (wf_world demo_half) as Hwf
    by (apply (bool_decide_unpack _); vm_compute; reflexivity).
  destruct (clone_is_an_independent_copy demo_half 0%nat true Hwf
              ltac:(vm_compute; lia)) as (H1 & _ & _ & _ & H5 & _).
  destruct (H5 eq_refl) as (H6 & H7 & _).
  split; [rewrite H1; vm_compute; reflexivity|].
  split; [rewrite H6; vm_compute; reflexivity | exact H7].
Defined.

(** ** [filter], [partition] and [concat], entry by entry *)

Lemma copy_entry_fresh_kv dest ens rt e w :
  Map_get (store_of w dest) (fst e) = None ->
  kv (store_of (snd (TempMap.copy_entry dest ens rt e w)) dest)
  = kv (store_of w dest)
    ++ (if copied rt (now w) e then [(fst e, value (snd e))] else []).
Proof.
  intros Hget. unfold TempMap.copy_entry, bind, ret; cbn [fst snd].
  rewrite (copyItem_fresh _ _ _ _ _ _ Hget).
  rewrite (copy_item_copied rt (now w) (next_handle w) e).
  destruct (copy_item rt (now w) (next_handle w) (snd e)) as [it'|] eqn:E.
  - unfold store_of at 1. cbn [heap]. rewrite lookup_insert_eq. simpl.
    rewrite kv_app. simpl. by rewrite (copy_item_value _ _ _ _ _ E).
  - by rewrite app_nil_r.
Qed.

(** X14.  [filter(fn)] with a test on the value and the key returns a new
    container that holds, in the order of the source, the entries that
    pass the test and that the copy does not skip (with
    [refreshTimeout = true], all that pass); the source is as it was. *)
Theorem filter_keeps_passing_entries
    (w : World) (self : nat) (p : JsVal -> JsVal -> bool) (rt : bool) :
  wf_world w -> (self < next_ref w)%nat ->
  let r := TempMap.filter self (fun v k _ _ => p v k) rt w in
  fst r = next_ref w /\
  kv (store_of (snd r) (fst r))
    = List.filter (fun e => p (snd e) (fst e))
        (kv (List.filter (copied rt (now w)) (store_of w self))) /\
  (rt = true ->
   kv (store_of (snd r) (fst r))
     = List.filter (fun e => p (snd e) (fst e)) (kv (store_of w self))) /\
  store_of (snd r) self = store_of w self.
Proof.
  intros Hwf Hs. cbn zeta.
  rewrite (filter_eq self _ rt (fun e => p (value (snd e)) (fst e)) w Hwf)
    by done.
  cbn [fst snd].
  destruct (build_spec (List.filter (fun e => p (value (snd e)) (fst e))
                          (store_of w self)) rt w Hwf)
    as (_ & Hst & Hfr & _).
  { apply NoDup_keys_filter. by destruct (wf_world_store w self Hwf). }
  cbn zeta in *.
  assert (forall q (l : Store),
             kv (List.filter q (List.filter (fun e => p (value (snd e)) (fst e)) l))
             = List.filter (fun e => p (snd e) (fst e)) (kv (List.filter q l))) as Hcomm.
  { intros q l. unfold kv. induction l as [|e l IH]; simpl; [done|].
    destruct (p (value (snd e)) (fst e)) eqn:Ep; simpl;
      destruct (q e); simpl; rewrite ?Ep, ?IH; done. }
  split; [done|]. split; [|split].
  - rewrite Hst, kv_copy_items. apply Hcomm.
  - intros ->. rewrite Hst, kv_copy_items, Hcomm.
    by rewrite (filter_all (copied true (now w))).
  - apply Hfr. lia.
Qed.

Lemma filter_keeps_passing_entries_witness :
  let r := TempMap.filter 0%nat (fun v _ _ _ => bool_decide (v = VNum 2)) true
             demo_due in
  kv (store_of (snd r) (fst r)) = [(VStr "b", VNum 2)].
Proof.
  cbn zeta.
  assert (wf_world demo_due) as Hwf
    by (apply (bool_decide_unpack _); vm_compute; reflexivity).
  destruct (filter_keeps_passing_entries demo_due 0%nat
              (fun v _ => bool_decide (v = VNum 2)) true Hwf ltac:(vm_compute; lia))
    as (_ & _ & H & _).
  cbn zeta in H. rewrite (H eq_refl). vm_compute. reflexivity.
Defined.

Lemma partition_loop m0 m1 self (p : JsVal -> JsVal -> bool) rt (l : Store) :
  m0 <> m1 ->
  forall w,
    NoDup (keys l) ->
    (forall k, k ∈ keys l -> Map_get (store_of w m0) k = None /\
                             Map_get (store_of w m1) k = None) ->
    let w' :=
      snd (for_each l
             (fun e => b <- ask ((fun v k (_ : nat) (_ : World) => p v k)
                                   (value (snd e)) (fst e) self) ;;
                       TempMap.copy_entry (if b then m0 else m1) false rt e) w) in
    kv (store_of w' m0)
      = kv (store_of w m0)
        ++ kv (List.filter (fun e => p (value (snd e)) (fst e) && copied rt (now w) e) l) /\
    kv (store_of w' m1)
      = kv (store_of w m1)
        ++ kv (List.filter
                 (fun e => negb (p (value (snd e)) (fst e)) && copied rt (now w) e) l) /\
    forall r, r <> m0 -> r <> m1 -> store_of w' r = store_of w r.
Proof.
  intros Hne. induction l as [|[k it] l IH]; intros w Hnd Hfresh; cbn zeta.
  - simpl. rewrite !app_nil_r. done.
  - rewrite for_each_cons. simpl in Hnd. apply NoDup_cons in Hnd as [Hk Hnd].
    destruct (Hfresh k) as [Hk0 Hk1]; [simpl; apply list_elem_of_here|].
    set (d := if p (value it) k then m0 else m1).
    set (w1 := snd (TempMap.copy_entry d false rt (k, it) w)).
    match goal with
    | |- context [for_each l _ ?W] => change W with w1
    end.
    pose proof (copy_entry_touches d false rt (k, it) w) as Ht. fold w1 in Ht.
    assert (now w1 = now w) as Hnow by apply Ht.
    destruct (IH w1 Hnd) as (H0 & H1 & H2).
    { intros k' Hk'. assert (k <> k') as Hkk by (intros ->; done).
      rewrite !(touches_get_ne _ _ _ _ _ _ Ht Hkk).
      apply Hfresh. simpl. by apply list_elem_of_further. }
    cbn zeta in H0, H1, H2. rewrite Hnow in H0, H1.
    cbn [List.filter fst snd].
    assert (Map_get (store_of w d) (fst (k, it)) = None) as Hd
      by (unfold d; by destruct (p (value it) k)).
    pose proof (copy_entry_fresh_kv d false rt (k, it) w Hd) as Hkv. fold w1 in Hkv.
    cbn [fst snd] in Hkv.
    split; [|split].
    + rewrite H0. unfold d in *. destruct (p (value it) k); cbn [andb negb].
      * rewrite Hkv. destruct (copied rt (now w) (k, it)); simpl;
          by rewrite <- app_assoc.
      * by rewrite (touches_other _ _ _ _ m0 Ht).
    + rewrite H1. unfold d in *. destruct (p (value it) k); cbn [andb negb].
      * rewrite (touches_other _ _ _ _ m1 Ht); [done|]. by intros ->.
      * rewrite Hkv. destruct (copied rt (now w) (k, it)); simpl;
          by rewrite <- app_assoc.
    + intros r Hr0 Hr1. rewrite H2 by done.
      apply (touches_other _ _ _ _ r Ht). unfold d. by destruct (p (value it) k).
Qed.

(** X15.  [partition(fn)] with a test on the value and the key returns
    two new containers: the first holds the entries that pass, the second
    those that fail, each in the order of the source and without the
    entries the copy skips (none with [refreshTimeout = true]); the source
    is as it was. *)
Theorem partition_splits_in_order
    (w : World) (self : nat) (p : JsVal -> JsVal -> bool) (rt : bool) :
  wf_world w -> (self < next_ref w)%nat ->
  let r := TempMap.partition self (fun v k _ _ => p v k) rt w in
  let live := kv (List.filter (copied rt (now w)) (store_of w self)) in
  fst r = (next_ref w, S (next_ref w)) /\
  kv (store_of (snd r) (fst (fst r)))
    = List.filter (fun e => p (snd e) (fst e)) live /\
  kv (store_of (snd r) (snd (fst r)))
    = List.filter (fun e => negb (p (snd e) (fst e))) live /\
  (rt = true -> live = kv (store_of w self)) /\
  store_of (snd r) self = store_of w self.
Proof.
  intros Hwf Hs. cbn zeta.
  pose proof (new_TempMap_wf w Hwf) as Hwf0.
  assert (TempMap.partition self (fun v k _ _ => p v k) rt w
          = ((next_ref w, S (next_ref w)),
             snd (for_each (store_of w self)
                    (fun e => b <- ask ((fun v k (_ : nat) (_ : World) => p v k)
                                          (value (snd e)) (fst e) self) ;;
                              TempMap.copy_entry
                                (if b then next_ref w else S (next_ref w)) false rt e)
                    (snd (new_TempMap (snd (new_TempMap w))))))) as Heq.
  { unfold TempMap.partition. unfold bind at 1 2 3 4, ret, read_store.
    cbn [fst snd]. rewrite !new_TempMap_store by done. reflexivity. }
  rewrite Heq. cbn [fst snd].
  set (w0 := snd (new_TempMap (snd (new_TempMap w)))).
  assert (store_of w0 (next_ref w) = []) as E0.
  { unfold w0, new_TempMap, store_of; simpl.
    rewrite lookup_insert_ne by lia. by rewrite lookup_insert_eq. }
  assert (store_of w0 (S (next_ref w)) = []) as E1.
  { unfold w0, new_TempMap, store_of; simpl. by rewrite lookup_insert_eq. }
  destruct (partition_loop (next_ref w) (S (next_ref w)) self p rt
              (store_of w self) ltac:(lia) w0) as (H0 & H1 & H2).
  { by destruct (wf_world_store w self Hwf). }
  { intros k _. by rewrite E0, E1. }
  cbn zeta in H0, H1, H2. rewrite E0 in H0. rewrite E1 in H1.
  change (now w0) with (now w) in *. simpl in H0, H1.
  assert (forall (q : JsVal -> JsVal -> bool) (l : Store),
             kv (List.filter (fun e => q (value (snd e)) (fst e) && copied rt (now w) e) l)
             = List.filter (fun e => q (snd e) (fst e))
                 (kv (List.filter (copied rt (now w)) l))) as Hcomm.
  { intros q l. unfold kv. induction l as [|e l IH]; simpl; [done|].
    destruct (q (value (snd e)) (fst e)) eqn:Eq, (copied rt (now w) e);
      simpl; rewrite ?Eq, ?IH; done. }
  split; [done|]. split; [|split; [|split]].
  - rewrite H0. apply Hcomm.
  - rewrite H1. apply (Hcomm (fun v k => negb (p v k))).
  - intros ->. by rewrite (filter_all (copied true (now w))).
  - rewrite H2 by lia. unfold w0. by rewrite !new_TempMap_store.
Qed.

Lemma partition_splits_in_order_witness :
  let r := TempMap.partition 0%nat (fun v k _ _ => is_even v k) true demo_four in
  kv (store_of (snd r) (fst (fst r))) = [(VStr "b", VNum 2); (VStr "d", VNum 4)] /\
  kv (store_of (snd r) (snd (fst r))) = [(VStr "a", VNum 1); (VStr "c", VNum 3)].
Proof.
  cbn zeta.
  assert (wf_world demo_four) as Hwf
    by (apply (bool_decide_unpack _); vm_compute; reflexivity).
  destruct (partition_splits_in_order demo_four 0%nat is_even true Hwf
              ltac:(vm_compute; lia)) as (_ & H0 & H1 & _).
  cbn zeta in H0, H1. split.
  - rewrite H0. vm_compute. reflexivity.
  - rewrite H1. vm_compute. reflexivity.
Defined.

Lemma not_in_keys (s1 s2 : Store) e :
  keys s1 = keys s2 -> not_in s1 e = not_in s2 e.
Proof.
  intros Hk. unfold not_in. f_equal. apply eq_true_iff_eq.
  rewrite !Map_has_true. by rewrite Hk.
Qed.

Lemma not_in_snoc (s : Store) k it e :
  fst e <> k -> not_in (s ++ [(k, it)]) e = not_in s e.
Proof.
  intros Hne. unfold not_in. f_equal. apply eq_true_iff_eq.
  rewrite !Map_has_true. unfold keys. rewrite map_app. simpl.
  rewrite elem_of_app, list_elem_of_singleton. split; [|by left].
  intros [H|H]; [done|]. by destruct Hne.
Qed.

Lemma filter_ext_elem {A} (f g : A -> bool) (l : list A) :
  (forall x, x ∈ l -> f x = g x) -> List.filter f l = List.filter g l.
Proof.
  intros H. apply filter_ext_in. intros x Hx. apply H. by apply list_elem_of_In.
Qed.

Lemma concat_loop_kv dest rt (l : Store) :
  forall w,
    NoDup (keys l) ->
    kv (store_of (snd (for_each l (TempMap.copy_entry dest true rt) w)) dest)
    = kv (store_of w dest)
      ++ kv (List.filter (fun e => not_in (store_of w dest) e && copied rt (now w) e) l).
Proof.
  induction l as [|[k it] l IH]; intros w Hnd.
  - simpl. by rewrite app_nil_r.
  - rewrite for_each_cons. simpl in Hnd. apply NoDup_cons in Hnd as [Hk Hnd].
    set (w1 := snd (TempMap.copy_entry dest true rt (k, it) w)).
    pose proof (copy_entry_touches dest true rt (k, it) w) as Ht. fold w1 in Ht.
    assert (now w1 = now w) as Hnow by apply Ht.
    rewrite (IH w1 Hnd). rewrite Hnow. cbn [List.filter].
    destruct (Map_get (store_of w dest) k) as [it0|] eqn:Eg.
    + assert (not_in (store_of w dest) (k, it) = false) as Hni.
      { unfold not_in, Map_has. simpl. by rewrite Eg. }
      rewrite Hni. cbn [andb].
      assert (kv (store_of w1 dest) = kv (store_of w dest)) as Hkv.
      { destruct Ht as (_ & _ & _ & [H|(it' & H & _)]).
        - by rewrite (store_of_heap _ _ _ H).
        - rewrite (store_of_insert _ _ _ _ H).
          apply (kv_Map_set_same _ _ it0); [done|].
          pose proof (concat_step dest rt (k, it) k it0 w Eg) as Hstep.
          fold w1 in Hstep. rewrite (store_of_insert _ _ _ _ H) in Hstep.
          rewrite Map_get_set_eq in Hstep. injection Hstep as ->.
          by destruct (_ && _), it0. }
      rewrite Hkv. f_equal. f_equal. apply filter_ext_elem. intros e _.
      f_equal. apply not_in_keys. by rewrite <- !kv_keys, Hkv.
    + assert (not_in (store_of w dest) (k, it) = true) as Hni.
      { unfold not_in, Map_has. simpl. by rewrite Eg. }
      rewrite Hni. cbn [andb].
      pose proof (copy_entry_fresh_kv dest true rt (k, it) w Eg) as Hkv.
      fold w1 in Hkv. cbn [fst snd] in Hkv. rewrite Hkv.
      assert (forall e, e ∈ l ->
                        not_in (store_of w1 dest) e = not_in (store_of w dest) e) as Hsame.
      { intros e He. assert (fst e <> k) as Hne.
        { intros <-. apply Hk. destruct e. eapply elem_keys; eauto. }
        destruct Ht as (_ & _ & _ & [H|(it' & H & _)]).
        - by rewrite (store_of_heap _ _ _ H).
        - rewrite (store_of_insert _ _ _ _ H). rewrite Map_set_absent by done.
          by apply not_in_snoc. }
      rewrite (filter_ext_elem
                 (fun e => not_in (store_of w1 dest) e && copied rt (now w) e)
                 (fun e => not_in (store_of w dest) e && copied rt (now w) e))
        by (intros e He; by rewrite Hsame).
      destruct (copied rt (now w) (k, it)); simpl; by rewrite <- app_assoc.
Qed.

(** X16.  [concat(other)] into a different container keeps every
    key/value pair the destination holds, in place, and appends, in the
    order of [other], the entries of [other] whose key the destination
    lacks and that the copy does not skip; it returns the destination and
    leaves [other] as it was. *)
Theorem concat_appends_missing_keys
    (w : World) (self other : nat) (rt : bool) :
  wf_world w -> self <> other ->
  let r := TempMap.concat self other rt w in
  fst r = self /\
  kv (store_of (snd r) self)
    = kv (store_of w self)
      ++ kv (List.filter
               (fun e => not_in (store_of w self) e && copied rt (now w) e)
               (store_of w other)) /\
  store_of (snd r) other = store_of w other.
Proof.
  intros Hwf Hne. cbn zeta. rewrite concat_eq by done. cbn [fst snd].
  split; [done|]. split.
  - apply concat_loop_kv. by destruct (wf_world_store w other Hwf).
  - destruct (copy_loop_same_but self true rt (store_of w other) w) as [_ H].
    apply H. done.
Qed.

Lemma concat_appends_missing_keys_witness :
  kv (store_of (snd (TempMap.concat 0%nat 1%nat true demo_sets)) 0%nat)
    = [(VStr "x", VNum 1); (VStr "y", VNum 2); (VStr "z", VNum 3)].
Proof.
  assert (wf_world demo_sets) as Hwf
    by (apply (bool_decide_unpack _); vm_compute; reflexivity).
  destruct (concat_appends_missing_keys demo_sets 0%nat 1%nat true Hwf ltac:(lia))
    as (_ & H & _).
  cbn zeta in H. rewrite H. vm_compute. reflexivity.
Defined.

Lemma filter_none {A} (q : A -> bool) (l : list A) :
  (forall x, x ∈ l -> q x = false) -> List.filter q l = [].
Proof.
  induction l as [|x l IH]; intros H; simpl; [done|].
  rewrite H by apply list_elem_of_here.
  apply IH. intros y Hy. apply H. by apply list_elem_of_further.
Qed.

Lemma filter_every {A} (q : A -> bool) (l : list A) :
  (forall x, x ∈ l -> q x = true) -> List.filter q l = l.
Proof.
  induction l as [|x l IH]; intros H; simpl; [done|].
  rewrite H by apply list_elem_of_here. f_equal.
  apply IH. intros y Hy. apply H. by apply list_elem_of_further.
Qed.

(** X17.  With the default flag, the difference of a container with
    itself is empty and its intersection with itself holds the same
    key/value pairs in the same order; both are new containers. *)
Theorem difference_and_intersect_with_self (w : World) (self : nat) :
  wf_world w -> (self < next_ref w)%nat ->
  let d := TempMap.difference self self true w in
  let i := TempMap.intersect self self true w in
  fst d = next_ref w /\ store_of (snd d) (fst d) = [] /\
  fst i = next_ref w /\ kv (store_of (snd i) (fst i)) = kv (store_of w self).
Proof.
  intros Hwf Hs. cbn zeta.
  pose proof (wf_world_store w self Hwf) as [Hnd _].
  destruct (difference_spec self self true w Hwf Hs Hs) as (Hd1 & Hd2 & _).
  destruct (intersect_spec self self true w Hwf Hs) as (Hi1 & Hi2 & _).
  cbn zeta in *.
  split; [exact Hd1|]. split; [|split; [exact Hi1|]].
  - assert (List.filter (not_in (store_of w self)) (store_of w self) = []) as Hno.
    { apply filter_none. intros [k it] Hin. unfold not_in, Map_has. simpl.
      by rewrite (Map_get_unique _ _ _ Hnd Hin). }
    rewrite Hno in Hd2. apply (f_equal length) in Hd2.
    unfold kv in Hd2. rewrite length_map in Hd2. simpl in Hd2.
    by apply nil_length_inv.
  - rewrite Hi2, kv_copy_items_refresh. f_equal. apply filter_every.
    intros [k it] Hin. unfold in_both. simpl.
    rewrite (Map_get_unique _ _ _ Hnd Hin). by apply bool_decide_eq_true_2.
Qed.

Lemma difference_and_intersect_with_self_witness :
  store_of (snd (TempMap.difference 0%nat 0%nat true demo_sets))
    (fst (TempMap.difference 0%nat 0%nat true demo_sets)) = [] /\
  kv (store_of (snd (TempMap.intersect 0%nat 0%nat true demo_sets))
        (fst (TempMap.intersect 0%nat 0%nat true demo_sets)))
    = [(VStr "x", VNum 1); (VStr "y", VNum 2)].
Proof.
  assert (wf_world demo_sets) as Hwf
    by (apply (bool_decide_unpack _); vm_compute; reflexivity).
  destruct (difference_and_intersect_with_self demo_sets 0%nat Hwf
              ltac:(vm_compute; lia)) as (_ & H1 & _ & H2).
  cbn zeta in H1, H2. split; [exact H1|]. rewrite H2. vm_compute. reflexivity.
Defined.

(** ** [sort] orders the entries *)

Lemma sort_insert_HdRel {A} (cmp : A -> A -> Z) (x y : A) (l : list A) :
  cmp y x <= 0 -> HdRel (fun a b => cmp a b <= 0) y l ->
  HdRel (fun a b => cmp a b <= 0) y (sort_insert cmp x l).
Proof.
  intros Hyx Hl. destruct l as [|z l]; simpl.
  - by constructor.
  - destruct (0 <? cmp x z); constructor; [by inversion Hl | done].
Qed.

Lemma sort_insert_map {A B} (f : A -> B) (c : B -> B -> Z) x (l : list A) :
  List.map f (sort_insert (fun a b => c (f a) (f b)) x l)
  = sort_insert c (f x) (List.map f l).
Proof.
  induction l as [|y l IH]; simpl; [done|].
  destruct (0 <? c (f x) (f y)); simpl; [by rewrite IH | done].
Qed.

Lemma Array_sort_map {A B} (f : A -> B) (c : B -> B -> Z) (l : list A) :
  List.map f (Array_sort (fun a b => c (f a) (f b)) l)
  = Array_sort c (List.map f l).
Proof.
  induction l as [|x l IH]; simpl; [done|].
  by rewrite sort_insert_map, IH.
Qed.


Section Consistent.
Context {A : Type} (cmp : A -> A -> Z) (L : list A).
Hypothesis HC : consistent_on cmp L.

Lemma consistent_refl a : a ∈ L -> cmp a a = 0.
Proof. destruct HC as (H & _). rewrite Forall_forall in H. apply H. Qed.

Lemma consistent_sym a b : a ∈ L -> b ∈ L -> cmp a b = 0 -> cmp b a = 0.
Proof.
  destruct HC as (_ & H & _). rewrite Forall_forall in H.
  intros Ha Hb. specialize (H a Ha). rewrite Forall_forall in H. by apply H.
Qed.

Lemma consistent_trans a b c :
  a ∈ L -> b ∈ L -> c ∈ L ->
  (cmp a b = 0 -> cmp b c = 0 -> cmp a c = 0) /\
  (cmp a b < 0 -> cmp b c < 0 -> cmp a c < 0) /\
  (0 < cmp a b -> 0 < cmp b c -> 0 < cmp a c).
Proof.
  destruct HC as (_ & _ & H). rewrite Forall_forall in H.
  intros Ha Hb Hc. specialize (H a Ha). rewrite Forall_forall in H.
  specialize (H b Hb). rewrite Forall_forall in H. by apply H.
Qed.

Lemma consistent_gt_lt a b : a ∈ L -> b ∈ L -> 0 < cmp a b -> cmp b a < 0.
Proof.
  intros Ha Hb Hab. destruct (Z.lt_trichotomy (cmp b a) 0) as [H|[H|H]]; [done| |].
  - pose proof (consistent_sym b a Hb Ha H). lia.
  - destruct (consistent_trans a b a Ha Hb Ha) as (_ & _ & Ht).
    specialize (Ht Hab H). rewrite consistent_refl in Ht by done. lia.
Qed.

Lemma consistent_lt_gt a b : a ∈ L -> b ∈ L -> cmp a b < 0 -> 0 < cmp b a.
Proof.
  intros Ha Hb Hab. destruct (Z.lt_trichotomy (cmp b a) 0) as [H|[H|H]]; [| |done].
  - destruct (consistent_trans a b a Ha Hb Ha) as (_ & Ht & _).
    specialize (Ht Hab H). rewrite consistent_refl in Ht by done. lia.
  - pose proof (consistent_sym b a Hb Ha H). lia.
Qed.

Lemma consistent_antisym a b :
  a ∈ L -> b ∈ L -> cmp a b <= 0 -> cmp b a <= 0 -> cmp a b = 0.
Proof.
  intros Ha Hb Hab Hba. destruct (decide (cmp a b = 0)) as [|Hne]; [done|].
  assert (cmp a b < 0) as Hlt by lia.
  pose proof (consistent_lt_gt a b Ha Hb Hlt). lia.
Qed.

Lemma consistent_le_trans a b c :
  a ∈ L -> b ∈ L -> c ∈ L -> cmp a b <= 0 -> cmp b c <= 0 -> cmp a c <= 0.
Proof.
  intros Ha Hb Hc Hab Hbc.
  destruct (Z.lt_trichotomy (cmp a c) 0) as [H|[H|H]]; [lia|lia|]. exfalso.
  pose proof (consistent_gt_lt a c Ha Hc H) as Hca.
  destruct (decide (cmp a b = 0)) as [Eab|Nab].
  - (* c < a, a = b, so b and c: cmp b c <= 0 *)
    destruct (decide (cmp b c = 0)) as [Ebc|Nbc].
    + destruct (consistent_trans a b c Ha Hb Hc) as (Ht & _).
      specialize (Ht Eab Ebc). lia.
    + assert (cmp b c < 0) as Hlt by lia.
      destruct (consistent_trans b c a Hb Hc Ha) as (_ & Ht & _).
      specialize (Ht Hlt Hca).
      pose proof (consistent_sym a b Ha Hb Eab). lia.
  - assert (cmp a b < 0) as Hlt by lia.
    destruct (consistent_trans c a b Hc Ha Hb) as (_ & Ht & _).
    specialize (Ht Hca Hlt).
    pose proof (consistent_lt_gt c b Hc Hb Ht). lia.
Qed.

(** What stability needs: a class never holds two elements that are ranked
    apart. *)
Lemma consistent_class z x y :
  z ∈ L -> x ∈ L -> y ∈ L -> cmp z x = 0 -> 0 < cmp x y -> cmp z y <> 0.
Proof.
  intros Hz Hx Hy Hzx Hxy Hzy.
  pose proof (consistent_sym z x Hz Hx Hzx) as Hxz.
  destruct (consistent_trans x z y Hx Hz Hy) as (Ht & _).
  specialize (Ht Hxz Hzy). lia.
Qed.

End Consistent.

Lemma consistent_on_subseteq {A} (cmp : A -> A -> Z) (l l' : list A) :
  l' ⊆ l -> consistent_on cmp l -> consistent_on cmp l'.
Proof.
  intros Hsub HC. unfold consistent_on. repeat split.
  - apply Forall_forall. intros a Ha. apply (consistent_refl cmp l HC). by apply Hsub.
  - apply Forall_forall. intros a Ha. apply Forall_forall. intros b Hb.
    apply (consistent_sym cmp l HC); by apply Hsub.
  - apply Forall_forall. intros a Ha. apply Forall_forall. intros b Hb.
    apply Forall_forall. intros c Hc.
    apply (consistent_trans cmp l HC); by apply Hsub.
Qed.

Lemma sort_insert_elem {A} (cmp : A -> A -> Z) x (l : list A) y :
  y ∈ sort_insert cmp x l <-> y = x \/ y ∈ l.
Proof.
  rewrite (sort_insert_perm cmp x l). apply elem_of_cons.
Qed.

Lemma Array_sort_elem {A} (cmp : A -> A -> Z) (l : list A) y :
  y ∈ Array_sort cmp l <-> y ∈ l.
Proof. by rewrite (Array_sort_perm cmp l). Qed.

Lemma sort_insert_sorted_on {A} (cmp : A -> A -> Z) (x : A) (l : list A) :
  (forall y, y ∈ l -> 0 < cmp x y -> cmp y x <= 0) ->
  Sorted (fun a b => cmp a b <= 0) l ->
  Sorted (fun a b => cmp a b <= 0) (sort_insert cmp x l).
Proof.
  intros Hc Hs. induction Hs as [|y l Hs IH Hhd]; simpl.
  - by repeat constructor.
  - destruct (0 <? cmp x y) eqn:E.
    + apply Z.ltb_lt in E. constructor.
      * apply IH. intros z Hz. apply Hc. by apply list_elem_of_further.
      * apply sort_insert_HdRel; [|exact Hhd].
        apply Hc; [apply list_elem_of_here|exact E].
    + apply Z.ltb_ge in E. constructor; [by constructor|]. by constructor.
Qed.

Lemma Array_sort_sorted_on {A} (cmp : A -> A -> Z) (l : list A) :
  (forall a b, a ∈ l -> b ∈ l -> 0 < cmp a b -> cmp b a <= 0) ->
  Sorted (fun a b => cmp a b <= 0) (Array_sort cmp l).
Proof.
  induction l as [|x l IH]; intros Hc; simpl; [constructor|].
  apply sort_insert_sorted_on.
  - intros y Hy. apply Hc; [apply list_elem_of_here|].
    apply list_elem_of_further. by apply Array_sort_elem in Hy.
  - apply IH. intros a b Ha Hb. apply Hc; by apply list_elem_of_further.
Qed.

Lemma sort_insert_filter_on {A} (cmp : A -> A -> Z) (z x : A) (l : list A) :
  (forall y, y ∈ l -> cmp z x = 0 -> 0 < cmp x y -> cmp z y <> 0) ->
  List.filter (fun y => cmp z y =? 0) (sort_insert cmp x l)
  = List.filter (fun y => cmp z y =? 0) (x :: l).
Proof.
  induction l as [|y l IH]; intros Hc; [done|].
  cbn [sort_insert]. destruct (0 <? cmp x y) eqn:E; [|done].
  apply Z.ltb_lt in E. cbn [List.filter] in *.
  rewrite IH by (intros y' Hy'; apply Hc; by apply list_elem_of_further).
  destruct (cmp z x =? 0) eqn:Ex, (cmp z y =? 0) eqn:Ey; try done.
  apply Z.eqb_eq in Ex, Ey.
  by destruct (Hc y (list_elem_of_here _ _) Ex E).
Qed.

Lemma Array_sort_stable_on {A} (cmp : A -> A -> Z) (z : A) (l : list A) :
  (forall x y, x ∈ l -> y ∈ l -> cmp z x = 0 -> 0 < cmp x y -> cmp z y <> 0) ->
  List.filter (fun y => cmp z y =? 0) (Array_sort cmp l)
  = List.filter (fun y => cmp z y =? 0) l.
Proof.
  induction l as [|x l IH]; intros Hc; [done|].
  cbn [Array_sort]. rewrite sort_insert_filter_on.
  - cbn [List.filter]. rewrite IH; [done|].
    intros a b Ha Hb. apply Hc; by apply list_elem_of_further.
  - intros y Hy. apply Hc; [apply list_elem_of_here|].
    apply list_elem_of_further. by apply Array_sort_elem in Hy.
Qed.

Lemma Sorted_strongly_on {A} (cmp : A -> A -> Z) (L l : list A) :
  consistent_on cmp L -> l ⊆ L ->
  Sorted (fun a b => cmp a b <= 0) l ->
  StronglySorted (fun a b => cmp a b <= 0) l.
Proof.
  intros HC Hsub Hs. induction Hs as [|h t Hs IH Hhd]; [constructor|].
  assert (t ⊆ L) as Ht by (intros y Hy; apply Hsub; by apply list_elem_of_further).
  specialize (IH Ht). constructor; [exact IH|].
  destruct Hhd as [|y t' Hhy]; [constructor|].
  apply StronglySorted_inv in IH as [_ Hall].
  constructor; [exact Hhy|].
  rewrite Forall_forall in Hall |- *. intros z Hz.
  apply (consistent_le_trans cmp L HC h y z).
  - apply Hsub, list_elem_of_here.
  - apply Ht, list_elem_of_here.
  - apply Ht. by apply list_elem_of_further.
  - exact Hhy.
  - by apply Hall.
Qed.

Lemma strongly_head_le {A} (cmp : A -> A -> Z) (L : list A) h t y :
  consistent_on cmp L -> h ∈ L ->
  StronglySorted (fun a b => cmp a b <= 0) (h :: t) ->
  y ∈ h :: t -> cmp h y <= 0.
Proof.
  intros HC Hh Hs Hy. apply StronglySorted_inv in Hs as [_ Hall].
  apply elem_of_cons in Hy as [->|Hy].
  - rewrite (consistent_refl cmp L HC h Hh). lia.
  - rewrite Forall_forall in Hall. by apply Hall.
Qed.

(** For a consistent comparator a list has one stable sorted arrangement. *)
Lemma stable_sort_unique {A} (cmp : A -> A -> Z) (l1 : list A) :
  forall l2,
    consistent_on cmp l1 -> l2 ≡ₚ l1 ->
    Sorted (fun a b => cmp a b <= 0) l1 ->
    Sorted (fun a b => cmp a b <= 0) l2 ->
    (forall z, z ∈ l1 ->
       List.filter (fun y => cmp z y =? 0) l1
       = List.filter (fun y => cmp z y =? 0) l2) ->
    l1 = l2.
Proof.
  induction l1 as [|h1 t1 IH]; intros l2 HC Hp Hs1 Hs2 Hf.
  - by apply Permutation_nil_r in Hp.
  - destruct l2 as [|h2 t2]; [by apply Permutation_nil_cons in Hp|].
    assert (h1 ∈ h1 :: t1) as Hh1 by apply list_elem_of_here.
    assert (h2 ∈ h1 :: t1) as Hh2 by (rewrite <- Hp; apply list_elem_of_here).
    assert (h2 :: t2 ⊆ h1 :: t1) as Hsub by (intros y Hy; by rewrite <- Hp).
    pose proof (Sorted_strongly_on cmp _ _ HC (reflexivity _) Hs1) as Hss1.
    pose proof (Sorted_strongly_on cmp _ _ HC Hsub Hs2) as Hss2.
    pose proof (strongly_head_le cmp _ h1 t1 h2 HC Hh1 Hss1 Hh2) as H12.
    assert (h1 ∈ h2 :: t2) as Hh1' by (rewrite Hp; apply list_elem_of_here).
    pose proof (strongly_head_le cmp _ h2 t2 h1 HC Hh2 Hss2 Hh1') as H21.
    pose proof (consistent_antisym cmp _ HC h1 h2 Hh1 Hh2 H12 H21) as E12.
    pose proof (Hf h1 Hh1) as Hf1. cbn [List.filter] in Hf1.
    rewrite (consistent_refl cmp _ HC h1 Hh1), E12 in Hf1. cbn in Hf1.
    injection Hf1 as <- _. f_equal.
    apply IH.
    + eapply consistent_on_subseteq; [|exact HC].
      intros y Hy. by apply list_elem_of_further.
    + by apply Permutation_cons_inv in Hp.
    + by apply Sorted_inv in Hs1 as [? _].
    + by apply Sorted_inv in Hs2 as [? _].
    + intros z Hz. pose proof (Hf z (list_elem_of_further _ _ _ Hz)) as Hz'.
      cbn [List.filter] in Hz'. destruct (cmp z h1 =? 0); [|exact Hz'].
      by injection Hz'.
Qed.

(** X18.  [sort(fn, true)] with a comparator that is consistent on the
    entries of the container returns the container itself, holding the
    same key/value pairs in an order in which no entry is ranked after its
    successor, the entries that compare equal keeping their relative
    order.  That arrangement is the only one with these properties, so it
    is the one every stable sort produces.  The other containers are as
    they were. *)
Theorem sort_orders_entries
    (w : World) (self : nat) (stn : string -> option Z) (fn : Comparator) :
  wf_world w -> (self < next_ref w)%nat ->
  consistent_on (fun a b : JsVal * JsVal => fn (snd a) (snd b) (fst a) (fst b))
    (kv (store_of w self)) ->
  let r := TempMap.sort stn (Some fn) self true w in
  let c := fun a b : JsVal * JsVal => fn (snd a) (snd b) (fst a) (fst b) in
  let before := kv (store_of w self) in
  let after := kv (store_of (snd r) self) in
  fst r = self /\
  after = Array_sort c before /\
  after ≡ₚ before /\
  Sorted (fun a b => c a b <= 0) after /\
  (forall z,
      z ∈ before ->
      List.filter (fun y => c z y =? 0) after
      = List.filter (fun y => c z y =? 0) before) /\
  (forall l',
      l' ≡ₚ before ->
      Sorted (fun a b => c a b <= 0) l' ->
      (forall z,
          z ∈ before ->
          List.filter (fun y => c z y =? 0) l'
          = List.filter (fun y => c z y =? 0) before) ->
      l' = after) /\
  (forall r', r' <> self -> store_of (snd r) r' = store_of w r').
Proof.
  intros Hwf Hs HC. cbn zeta.
  set (c := fun a b : JsVal * JsVal => fn (snd a) (snd b) (fst a) (fst b)) in *.
  set (before := kv (store_of w self)) in *.
  assert (kv (store_of (snd (TempMap.sort stn (Some fn) self true w)) self)
          = Array_sort c before) as Hkv.
  { rewrite (sort_order stn (Some fn) self w Hwf Hs). unfold kv.
    apply (Array_sort_map (fun e : JsVal * Item => (fst e, value (snd e))) c). }
  assert (Sorted (fun a b => c a b <= 0) (Array_sort c before)) as Hsorted.
  { apply Array_sort_sorted_on. intros a b Ha Hb Hab.
    pose proof (consistent_gt_lt c before HC a b Ha Hb Hab). lia. }
  assert (forall z, z ∈ before ->
            List.filter (fun y => c z y =? 0) (Array_sort c before)
            = List.filter (fun y => c z y =? 0) before) as Hstable.
  { intros z Hz. apply Array_sort_stable_on. intros x y Hx Hy.
    by apply (consistent_class c before HC). }
  split; [done|]. split; [exact Hkv|]. rewrite Hkv.
  split; [apply Array_sort_perm|]. split; [exact Hsorted|].
  split; [exact Hstable|]. split.
  - intros l' Hp Hs' Hf. apply (stable_sort_unique c).
    + eapply consistent_on_subseteq; [|exact HC]. intros y Hy. by rewrite <- Hp.
    + rewrite Hp. apply Array_sort_perm.
    + exact Hs'.
    + exact Hsorted.
    + intros z Hz. rewrite Hp in Hz. rewrite Hf by done. by rewrite Hstable.
  - intros r' Hr'. by apply (sort_spec stn (Some fn) self true w Hwf Hs).
Qed.

Lemma sort_orders_entries_witness :
  consistent_on
    (fun a b : JsVal * JsVal => by_number (snd a) (snd b) (fst a) (fst b))
    (kv (store_of demo_numbers 0%nat)) /\
  kv (store_of (snd (TempMap.sort (fun _ => None) (Some by_number) 0%nat true
                       demo_numbers)) 0%nat)
    = [(VStr "q", VNum 9); (VStr "p", VNum 10)].
Proof.
  assert (wf_world demo_numbers) as Hwf
    by (apply (bool_decide_unpack _); vm_compute; reflexivity).
  assert (consistent_on
            (fun a b : JsVal * JsVal => by_number (snd a) (snd b) (fst a) (fst b))
            (kv (store_of demo_numbers 0%nat))) as HC
    by (apply (bool_decide_unpack _); vm_compute; reflexivity).
  split; [exact HC|].
  pose proof (sort_orders_entries demo_numbers 0%nat (fun _ => None) by_number Hwf
                ltac:(vm_compute; lia) HC) as H.
  cbn zeta in H. destruct H as (_ & H & _).
  etrans; [exact H|]. vm_compute. reflexivity.
Defined.

(** ** [toString] *)

Lemma str_app_cons x (a b : string) :
  (String x a ++ b)%string = String x (a ++ b).
Proof. reflexivity. Qed.

Lemma str_app_assoc (a b c : string) : ((a ++ b) ++ c = a ++ b ++ c)%string.
Proof.
  induction a as [|x a IH]; [done|]. rewrite !str_app_cons. f_equal. exact IH.
Qed.

Lemma str_app_nil_r (a : string) : (a ++ "")%string = a.
Proof.
  induction a as [|x a IH]; [done|]. rewrite str_app_cons. f_equal. exact IH.
Qed.

Lemma str_length_app (a b : string) :
  String.length (a ++ b) = (String.length a + String.length b)%nat.
Proof.
  induction a as [|x a IH]; [done|]. rewrite str_app_cons. simpl. f_equal. exact IH.
Qed.

Lemma substring_zero (s : string) : String.substring 0 0 s = EmptyString.
Proof. by destruct s. Qed.

Lemma substring_prefix (a b : string) :
  String.substring 0 (String.length a) (a ++ b) = a.
Proof.
  induction a as [|x a IH]; [apply substring_zero|].
  rewrite str_app_cons. simpl. f_equal. exact IH.
Qed.

Lemma slice_off_app (a sep : string) :
  TempMap.slice_off (a ++ sep) (String.length sep) = a.
Proof.
  unfold TempMap.slice_off. rewrite str_length_app.
  replace (String.length a + String.length sep - String.length sep)%nat
    with (String.length a) by lia.
  apply substring_prefix.
Qed.

(** Every piece followed by the separator, as the loop of [toString]
    builds it. *)
Lemma toString_loop (sep : string) (sel : JsVal * JsVal -> bool)
    (item : JsVal * JsVal -> string) (es : list (JsVal * JsVal)) :
  forall acc,
    fold_left (fun str e => if sel e then (str ++ item e ++ sep)%string else str)
      es acc
    = (acc ++ fold_right (fun e r => (item e ++ sep ++ r)%string) EmptyString
                (List.filter sel es))%string.
Proof.
  induction es as [|e es IH]; intros acc; simpl.
  - by rewrite str_app_nil_r.
  - rewrite IH. destruct (sel e); simpl; [|done].
    by rewrite !str_app_assoc.
Qed.

Lemma pieces_concat (sep : string) (item : JsVal * JsVal -> string)
    (l : list (JsVal * JsVal)) :
  l <> [] ->
  fold_right (fun e r => (item e ++ sep ++ r)%string) EmptyString l
  = (String.concat sep (List.map item l) ++ sep)%string.
Proof.
  induction l as [|e l IH]; intros Hne; [done|].
  destruct l as [|e' l].
  - simpl. by rewrite str_app_nil_r.
  - change (fold_right _ _ (e :: e' :: l))
      with (item e ++ sep ++ fold_right (fun e r => (item e ++ sep ++ r)%string)
                               EmptyString (e' :: l))%string.
    rewrite IH by done.
    change (String.concat sep (List.map item (e :: e' :: l)))
      with (item e ++ sep ++ String.concat sep (List.map item (e' :: l)))%string.
    by rewrite !str_app_assoc.
Qed.

Lemma pieces_concat_nosep (item : JsVal * JsVal -> string)
    (l : list (JsVal * JsVal)) :
  fold_right (fun e r => (item e ++ "" ++ r)%string) EmptyString l
  = String.concat "" (List.map item l).
Proof.
  induction l as [|e l IH]; [done|].
  destruct l as [|e' l].
  - simpl. by rewrite str_app_nil_r.
  - change (fold_right _ _ (e :: e' :: l))
      with (item e ++ "" ++ fold_right (fun e r => (item e ++ "" ++ r)%string)
                              EmptyString (e' :: l))%string.
    by rewrite IH.
Qed.

(** X19.  [toString(sep, filter, map)] changes nothing and returns the
    string conversions of the selected values (of what [map] returns for
    them, when given), in iteration order, joined by [sep]: no separator
    at either end, the empty string for nothing selected. *)
Theorem toString_joins_values
    (w : World) (self : nat) (sep : string) (filter : option Predicate)
    (map : option (JsVal -> JsVal -> nat -> World -> JsVal)) :
  let sel := fun e : JsVal * JsVal =>
               match filter with
               | Some f => f (snd e) (fst e) self w
               | None => true
               end in
  let item := fun e : JsVal * JsVal =>
                ToString match map with
                         | Some m => m (snd e) (fst e) self w
                         | None => snd e
                         end in
  TempMap.toString self sep filter map w
  = (String.concat sep (List.map item (List.filter sel (kv (store_of w self)))), w).
Proof.
  intros sel item.
  unfold TempMap.toString, TempMap.entries, bind, ret, read_store, ask; cbn [fst snd].
  fold (kv (store_of w self)). f_equal.
  rewrite (toString_loop sep sel item).
  change (EmptyString ++ ?x)%string with x.
  destruct (0 <? String.length sep)%nat eqn:E.
  - destruct (List.filter sel (kv (store_of w self))) as [|e l] eqn:El; [done|].
    rewrite pieces_concat by done. apply slice_off_app.
  - apply Nat.ltb_ge in E. destruct sep; [|simpl in E; lia].
    apply pieces_concat_nosep.
Qed.

(** ** Entries and pending callbacks correspond *)

Lemma timer_at_Some w r k tm :
  timer_at w r k = Some tm <->
  exists it, Map_get (store_of w r) k = Some it /\ timer it = Some tm.
Proof.
  unfold timer_at. destruct (Map_get (store_of w r) k) as [it|]; split.
  - intros H. by exists it.
  - by intros (it' & [= <-] & H).
  - done.
  - by intros (it' & H & _).
Qed.

Lemma timers_ok_distinct w r k tm r' k' tm' :
  timers_ok w ->
  timer_at w r k = Some tm -> timer_at w r' k' = Some tm' ->
  handle tm = handle tm' -> r = r' /\ k = k'.
Proof.
  intros (T1 & _) H H' Hh.
  apply timer_at_Some in H as (it & Hg & Ht).
  apply timer_at_Some in H' as (it' & Hg' & Ht').
  pose proof (T1 _ _ _ _ Hg Ht) as A. pose proof (T1 _ _ _ _ Hg' Ht') as A'.
  unfold armed in *. rewrite Hh in A. rewrite A in A'. by injection A' as _ _ ? ?.
Qed.

(** A change confined to one entry keeps the correspondence, provided the
    table changes only at the handle that entry held and at new handles,
    and the entry as it is afterwards is armed. *)
Lemma timers_ok_change w w' self key :
  timers_ok w ->
  (forall r, r <> self -> store_of w' r = store_of w r) ->
  (forall k, k <> key ->
             Map_get (store_of w' self) k = Map_get (store_of w self) k) ->
  (forall h, (h < next_handle w)%nat ->
             (forall tm, timer_at w self key = Some tm -> handle tm <> h) ->
             timeouts w' !! h = timeouts w !! h) ->
  (forall tm, timer_at w' self key = Some tm -> armed w' self key tm) ->
  (forall h t d,
      timeouts w' !! h = Some t -> due t = Some d ->
      (next_handle w <= h)%nat \/
      (exists tm, timer_at w self key = Some tm /\ handle tm = h) ->
      owner t = self /\ target t = key /\
      exists tm, timer_at w' self key = Some tm /\ handle tm = h) ->
  (forall h t, timeouts w' !! h = Some t -> (h < next_handle w')%nat) ->
  timers_ok w'.
Proof.
  intros HT Hother Hkeys Hframe Harmed Hnew Hfresh.
  pose proof HT as (T1 & T2 & T3).
  assert (forall r k, (r, k) <> (self, key) ->
                      Map_get (store_of w' r) k = Map_get (store_of w r) k) as Hsame.
  { intros r k Hne. destruct (decide (r = self)) as [->|Hr].
    - apply Hkeys. intros ->. done.
    - by rewrite Hother. }
  split; [|split; [|exact Hfresh]].
  - intros r k it tm Hg Ht.
    destruct (decide ((r, k) = (self, key))) as [[= -> ->]|Hne].
    + apply Harmed. apply timer_at_Some. eauto.
    + rewrite Hsame in Hg by done. pose proof (T1 _ _ _ _ Hg Ht) as A.
      unfold armed in *. rewrite Hframe; [exact A| |].
      * eapply T3; eauto.
      * intros tm0 H0 Hh.
        destruct (timers_ok_distinct w self key tm0 r k tm HT H0) as [-> ->];
          [apply timer_at_Some; eauto|done|done].
  - intros h t d Hh Hd.
    destruct (decide (next_handle w <= h)%nat) as [Hge|Hlt].
    + destruct (Hnew h t d Hh Hd (or_introl Hge)) as (-> & -> & tm & Htm & Hhd).
      apply timer_at_Some in Htm as (it & Hg & Ht). eauto.
    + destruct (timer_at w self key) as [tm0|] eqn:E0.
      * destruct (decide (handle tm0 = h)) as [Heq|Hneq].
        -- destruct (Hnew h t d Hh Hd) as (-> & -> & tm & Htm & Hhd);
             [right; eauto|].
           apply timer_at_Some in Htm as (it & Hg & Ht). eauto.
        -- rewrite Hframe in Hh; [|lia|by intros tm [= <-]].
           destruct (T2 h t d Hh Hd) as (it & tm & Hg & Ht & Hhd).
           exists it, tm. split; [|done]. rewrite Hsame; [done|].
           intros [= Ho Hta]. rewrite Ho, Hta in Hg.
           unfold timer_at in E0. rewrite Hg in E0. rewrite Ht in E0.
           injection E0 as <-. done.
      * rewrite Hframe in Hh; [|lia|done].
        destruct (T2 h t d Hh Hd) as (it & tm & Hg & Ht & Hhd).
        exists it, tm. split; [|done]. rewrite Hsame; [done|].
        intros [= Ho Hta]. rewrite Ho, Hta in Hg.
        unfold timer_at in E0. rewrite Hg in E0. congruence.
Qed.

Lemma timer_at_insert w w' self key it' :
  heap w' = <[self := Map_set (store_of w self) key it']> (heap w) ->
  timer_at w' self key = timer it'.
Proof.
  intros H. unfold timer_at. rewrite (store_of_insert _ _ _ _ H).
  by rewrite Map_get_set_eq.
Qed.

Lemma stores_insert_frame w w' self key it' :
  heap w' = <[self := Map_set (store_of w self) key it']> (heap w) ->
  (forall r, r <> self -> store_of w' r = store_of w r) /\
  (forall k, k <> key ->
             Map_get (store_of w' self) k = Map_get (store_of w self) k).
Proof.
  intros H. split.
  - intros r Hr. eapply store_of_insert_ne; eauto.
  - intros k Hk. rewrite (store_of_insert _ _ _ _ H). by apply Map_get_set_ne.
Qed.

(** The entry is rewritten and keeps its timer; the table is untouched. *)
Lemma timers_keep w w' self key it' :
  timers_ok w ->
  heap w' = <[self := Map_set (store_of w self) key it']> (heap w) ->
  timer it' = timer_at w self key ->
  timeouts w' = timeouts w -> next_handle w' = next_handle w ->
  timers_ok w'.
Proof.
  intros HT Hh Ht Htab Hnh. pose proof HT as (T1 & T2 & T3).
  destruct (stores_insert_frame _ _ _ _ _ Hh) as [F1 F2].
  pose proof (timer_at_insert _ _ _ _ _ Hh) as Hat. rewrite Ht in Hat.
  apply (timers_ok_change w w' self key HT F1 F2).
  - intros h _ _. by rewrite Htab.
  - intros tm Htm. rewrite Hat in Htm. apply timer_at_Some in Htm as (it & Hg & Hti).
    unfold armed. rewrite Htab. by apply (T1 _ _ _ _ Hg Hti).
  - intros h t d Hl Hd [Hge|(tm & Htm & Hhd)]; rewrite Htab in Hl.
    + pose proof (T3 _ _ Hl). lia.
    + apply timer_at_Some in Htm as Htm'. destruct Htm' as (it & Hg & Hti).
      pose proof (T1 _ _ _ _ Hg Hti) as A. unfold armed in A.
      rewrite Hhd, Hl in A. injection A as ->. simpl.
      split; [done|]. split; [done|]. exists tm. by rewrite Hat.
  - intros h t Hl. rewrite Htab in Hl. rewrite Hnh. eauto.
Qed.

(** The entry's timer is restarted at the instant [t0]: [refresh()] on the
    host side, a new start instant on the entry. *)
Lemma timers_refresh w w' self key tm it' t0 :
  timers_ok w ->
  timer_at w self key = Some tm ->
  heap w' = <[self := Map_set (store_of w self) key it']> (heap w) ->
  timer it' = Some (mkTimer (handle tm) (timeout tm) t0) ->
  timeouts w'
    = alter (fun t => mkTimeout (after t) (Some (t0 + after t)) (owner t) (target t))
        (handle tm) (timeouts w) ->
  next_handle w' = next_handle w ->
  timers_ok w'.
Proof.
  intros HT Hold Hh Ht Htab Hnh. pose proof HT as (T1 & T2 & T3).
  destruct (stores_insert_frame _ _ _ _ _ Hh) as [F1 F2].
  pose proof (timer_at_insert _ _ _ _ _ Hh) as Hat. rewrite Ht in Hat.
  apply timer_at_Some in Hold as Hold'. destruct Hold' as (it & Hg & Hti).
  pose proof (T1 _ _ _ _ Hg Hti) as A. unfold armed in A.
  apply (timers_ok_change w w' self key HT F1 F2).
  - intros h _ Hne. rewrite Htab. apply lookup_alter_ne. by apply Hne.
  - intros tm' Htm'. rewrite Hat in Htm'. injection Htm' as <-.
    unfold armed. simpl. rewrite Htab, lookup_alter_eq, A. reflexivity.
  - intros h t d Hl Hd [Hge|(tm' & Htm' & Hhd)].
    + exfalso. rewrite Htab in Hl.
      destruct (decide (handle tm = h)) as [<-|Hne].
      * pose proof (T3 _ _ A). lia.
      * rewrite lookup_alter_ne in Hl by done. pose proof (T3 _ _ Hl). lia.
    + rewrite Hold in Htm'. injection Htm' as <-. subst h.
      rewrite Htab, lookup_alter_eq, A in Hl. injection Hl as <-. simpl.
      split; [done|]. split; [done|]. eexists. split; [exact Hat|done].
  - intros h t Hl. rewrite Htab in Hl. rewrite Hnh.
    destruct (decide (handle tm = h)) as [<-|Hne].
    + eapply T3; eauto.
    + rewrite lookup_alter_ne in Hl by done. eauto.
Qed.

(** The entry's callback, if any, is cancelled and the entry gets the
    timer [newt]: none, or a new one armed under the next handle. *)
Lemma timers_replace w w' self key it' (newt : option Timer) :
  timers_ok w ->
  heap w' = <[self := Map_set (store_of w self) key it']> (heap w) ->
  timer it' = newt ->
  timeouts w'
    = match newt with
      | Some tn =>
          <[handle tn := mkTimeout (host_delay (timeout tn))
                           (Some (timestamp tn + host_delay (timeout tn)))
                           self key]>
      | None => fun m => m
      end
        (match timer_at w self key with
         | Some tm => delete (handle tm) (timeouts w)
         | None => timeouts w
         end) ->
  match newt with
  | Some tn => handle tn = next_handle w /\ next_handle w' = S (next_handle w)
  | None => next_handle w' = next_handle w
  end ->
  timers_ok w'.
Proof.
  intros HT Hh Ht Htab Hnh. pose proof HT as (T1 & T2 & T3).
  destruct (stores_insert_frame _ _ _ _ _ Hh) as [F1 F2].
  pose proof (timer_at_insert _ _ _ _ _ Hh) as Hat. rewrite Ht in Hat.
  assert (forall h, (forall tm, timer_at w self key = Some tm -> handle tm <> h) ->
                    match timer_at w self key with
                    | Some tm => delete (handle tm) (timeouts w)
                    | None => timeouts w
                    end !! h = timeouts w !! h) as Hdel.
  { intros h Hne. destruct (timer_at w self key) as [tm|]; [|done].
    apply lookup_delete_ne. by apply Hne. }
  assert (forall h t,
             match timer_at w self key with
             | Some tm => delete (handle tm) (timeouts w)
             | None => timeouts w
             end !! h = Some t -> timeouts w !! h = Some t /\
                                  forall tm, timer_at w self key = Some tm ->
                                             handle tm <> h) as Hdel'.
  { intros h t. destruct (timer_at w self key) as [tm|].
    - rewrite lookup_delete. case_decide; [done|]. intros Hl. split; [done|].
      by intros tm' [= <-].
    - intros Hl. split; [done|]. done. }
  apply (timers_ok_change w w' self key HT F1 F2).
  - intros h Hlt Hne. rewrite Htab. destruct newt as [tn|].
    + destruct Hnh as [Hn _]. rewrite lookup_insert_ne by lia. by apply Hdel.
    + by apply Hdel.
  - intros tm Htm. rewrite Hat in Htm. destruct newt as [tn|]; [|done].
    injection Htm as <-. unfold armed. rewrite Htab. by rewrite lookup_insert_eq.
  - intros h t d Hl Hd Hcase. rewrite Htab in Hl. destruct newt as [tn|].
    + destruct Hnh as [Hn _].
      destruct (decide (handle tn = h)) as [<-|Hne].
      * rewrite lookup_insert_eq in Hl. injection Hl as <-. simpl.
        split; [done|]. split; [done|]. exists tn. by rewrite Hat.
      * exfalso. rewrite lookup_insert_ne in Hl by done.
        apply Hdel' in Hl as [Hl Hno]. pose proof (T3 _ _ Hl).
        destruct Hcase as [Hge|(tm & Htm & Hhd)]; [lia|]. by apply (Hno tm).
    + exfalso. apply Hdel' in Hl as [Hl Hno]. pose proof (T3 _ _ Hl).
      destruct Hcase as [Hge|(tm & Htm & Hhd)]; [lia|]. by apply (Hno tm).
  - intros h t Hl. rewrite Htab in Hl. destruct newt as [tn|].
    + destruct Hnh as [Hn ->].
      destruct (decide (handle tn = h)) as [<-|Hne]; [lia|].
      rewrite lookup_insert_ne in Hl by done.
      apply Hdel' in Hl as [Hl _]. pose proof (T3 _ _ Hl). lia.
    + rewrite Hnh. apply Hdel' in Hl as [Hl _]. eauto.
Qed.

(** The entry is removed and its callback, if any, cancelled. *)
Lemma timers_remove w w' self key :
  timers_ok w -> NoDup (keys (store_of w self)) ->
  heap w' = <[self := Map_delete (store_of w self) key]> (heap w) ->
  timeouts w'
    = match timer_at w self key with
      | Some tm => delete (handle tm) (timeouts w)
      | None => timeouts w
      end ->
  next_handle w' = next_handle w ->
  timers_ok w'.
Proof.
  intros HT Hnd Hh Htab Hnh. pose proof HT as (T1 & T2 & T3).
  assert (timer_at w' self key = None) as Hat.
  { unfold timer_at. rewrite (store_of_insert _ _ _ _ Hh).
    by rewrite Map_get_delete_eq. }
  apply (timers_ok_change w w' self key HT).
  - intros r Hr. eapply store_of_insert_ne; eauto.
  - intros k Hk. rewrite (store_of_insert _ _ _ _ Hh). by apply Map_get_delete_ne.
  - intros h _ Hne. rewrite Htab. destruct (timer_at w self key) as [tm|]; [|done].
    apply lookup_delete_ne. by apply Hne.
  - intros tm Htm. by rewrite Hat in Htm.
  - intros h t d Hl Hd Hcase. exfalso. rewrite Htab in Hl.
    destruct (timer_at w self key) as [tm|] eqn:E.
    + rewrite lookup_delete in Hl. case_decide as Hc; [done|].
      pose proof (T3 _ _ Hl). destruct Hcase as [?|(tm' & [= <-] & ?)]; [lia|done].
    + pose proof (T3 _ _ Hl). destruct Hcase as [?|(tm' & ? & ?)]; [lia|done].
  - intros h t Hl. rewrite Htab in Hl. rewrite Hnh.
    destruct (timer_at w self key) as [tm|]; [|eauto].
    rewrite lookup_delete in Hl. case_decide; [done|]. eauto.
Qed.

Lemma timer_at_get w self key it :
  Map_get (store_of w self) key = Some it -> timer_at w self key = timer it.
Proof. intros H. unfold timer_at. by rewrite H. Qed.

Lemma timer_at_none w self key :
  Map_get (store_of w self) key = None -> timer_at w self key = None.
Proof. intros H. unfold timer_at. by rewrite H. Qed.

Lemma setItem_timers self key v t w :
  timers_ok w ->
  timers_ok (snd (TempMap.setItem self key (Map_get (store_of w self) key) v t w)).
Proof.
  intros HT.
  destruct (Map_get (store_of w self) key) as [[v0 tmo]|] eqn:Hget.
  - pose proof (timer_at_get _ _ _ _ Hget) as Hat. simpl in Hat.
    destruct t as [| |n].
    + destruct tmo as [tm|].
      * eapply (timers_refresh w _ self key tm _ (now w) HT Hat); reflexivity.
      * eapply (timers_keep w _ self key _ HT); try reflexivity. by rewrite Hat.
    + eapply (timers_keep w _ self key _ HT); try reflexivity. by rewrite Hat.
    + destruct (0 <? n) eqn:En.
      * eapply (timers_replace w _ self key _
                  (Some (mkTimer (next_handle w) n (now w))) HT).
        -- run. rewrite ?En. destruct tmo; reflexivity.
        -- run. rewrite ?En. destruct tmo; reflexivity.
        -- run. rewrite ?En. rewrite Hat. destruct tmo; reflexivity.
        -- run. rewrite ?En. destruct tmo; split; reflexivity.
      * eapply (timers_replace w _ self key _ None HT).
        -- run. rewrite ?En. destruct tmo; reflexivity.
        -- run. rewrite ?En. destruct tmo; reflexivity.
        -- run. rewrite ?En. rewrite Hat. destruct tmo; reflexivity.
        -- run. rewrite ?En. destruct tmo; reflexivity.
  - pose proof (timer_at_none _ _ _ Hget) as Hat.
    destruct (0 <? match t with TNumber n => n | _ => 0 end) eqn:En.
    + eapply (timers_replace w _ self key _
                (Some (mkTimer (next_handle w)
                         (match t with TNumber n => n | _ => 0 end) (now w))) HT).
      * run. rewrite ?En. reflexivity.
      * run. rewrite ?En. reflexivity.
      * run. rewrite ?En, ?Hat. reflexivity.
      * run. rewrite ?En. split; reflexivity.
    + eapply (timers_replace w _ self key _ None HT).
      * run. rewrite ?En. reflexivity.
      * run. rewrite ?En. reflexivity.
      * run. rewrite ?En, ?Hat. reflexivity.
      * run. rewrite ?En. reflexivity.
Qed.

Lemma refresh_put_timers self key it w :
  timers_ok w ->
  Map_get (store_of w self) key = Some it ->
  timers_ok
    (snd ((item' <- refreshItemTimeout (Some it) ;; put_item self key item') w)).
Proof.
  intros HT Hget. pose proof (timer_at_get _ _ _ _ Hget) as Hat.
  destruct it as [v0 [tm|]]; simpl in Hat.
  - eapply (timers_refresh w _ self key tm _ (now w) HT Hat); reflexivity.
  - eapply (timers_keep w _ self key _ HT); try reflexivity. by rewrite Hat.
Qed.

Lemma getItem_timers self key rt w :
  timers_ok w -> timers_ok (snd (TempMap.getItem self key rt w)).
Proof.
  intros HT. destruct rt; [|exact HT].
  destruct (Map_get (store_of w self) key) as [it|] eqn:Hget.
  - pose proof (refresh_put_timers self key it w HT Hget) as H.
    unfold TempMap.getItem, bind, ret, read_store in *; cbn [fst snd] in *.
    by rewrite Hget.
  - by rewrite (getItem_miss _ _ _ _ Hget).
Qed.

Lemma at_timers self index rt w :
  wf_world w -> timers_ok w -> timers_ok (snd (TempMap.at_ self index rt w)).
Proof.
  intros Hwf HT. unfold TempMap.at_, bind, read_store, ret; cbn [fst snd].
  destruct (TempMap.at_loop _ _ _) as [[k it]|] eqn:E; [|exact HT].
  destruct rt; [|exact HT].
  apply at_loop_elem in E.
  pose proof (wf_world_store w self Hwf) as [Hnd _].
  pose proof (Map_get_unique _ _ _ Hnd E) as Hget.
  exact (refresh_put_timers self k it w HT Hget).
Qed.

Lemma deleteItem_timers self key w :
  wf_world w -> timers_ok w ->
  timers_ok (snd (TempMap.deleteItem self key (Map_get (store_of w self) key) w)).
Proof.
  intros Hwf HT. pose proof (wf_world_store w self Hwf) as [Hnd _].
  destruct (Map_get (store_of w self) key) as [it|] eqn:Hget; [|exact HT].
  pose proof (timer_at_get _ _ _ _ Hget) as Hat.
  unfold TempMap.deleteItem, bind, ret, read_store, write_store; cbn [fst snd].
  unfold Map_has. rewrite Hget. cbn [fst snd].
  eapply (timers_remove w _ self key HT Hnd).
  - unfold host_clearTimeout. destruct (timer it); reflexivity.
  - rewrite Hat. unfold host_clearTimeout. destruct (timer it); reflexivity.
  - unfold host_clearTimeout. destruct (timer it); reflexivity.
Qed.

Lemma new_TempMap_timers w :
  wf_world w -> timers_ok w -> timers_ok (snd (new_TempMap w)).
Proof.
  intros Hwf (T1 & T2 & T3).
  split; [|split].
  - intros r k it tm. rewrite new_TempMap_store by done. apply T1.
  - intros h t d Hl Hd. destruct (T2 h t d Hl Hd) as (it & tm & ? & ? & ?).
    exists it, tm. by rewrite new_TempMap_store.
  - exact T3.
Qed.

Lemma tick_timers dt w : timers_ok w -> timers_ok (tick dt w).
Proof. intros H. exact H. Qed.

Lemma fire_timers h w : wf_world w -> timers_ok w -> timers_ok (fire h w).
Proof.
  intros Hwf HT. pose proof HT as (T1 & T2 & T3). unfold fire.
  destruct (timeouts w !! h) as [t|] eqn:Hl; [|exact HT].
  destruct (due t) as [d|] eqn:Hd; [|exact HT].
  destruct (d <=? now w); [|exact HT].
  destruct (T2 h t d Hl Hd) as (it & tm & Hg & Hti & Hh).
  pose proof (timer_at_get _ _ _ _ Hg) as Hat. rewrite Hti in Hat.
  pose proof (wf_world_store w (owner t) Hwf) as [Hnd _].
  set (w' := mkWorld _ _ _ _ _).
  assert (store_of w' (owner t) = Map_delete (store_of w (owner t)) (target t)) as Hs.
  { unfold w', store_of. cbn [heap]. rewrite lookup_alter_eq.
    destruct (heap w !! owner t); reflexivity. }
  assert (timer_at w' (owner t) (target t) = None) as Hat'.
  { unfold timer_at. rewrite Hs. by rewrite Map_get_delete_eq. }
  apply (timers_ok_change w w' (owner t) (target t) HT).
  - intros r Hr. unfold w', store_of. cbn [heap]. by rewrite lookup_alter_ne.
  - intros k Hk. rewrite Hs. by apply Map_get_delete_ne.
  - intros h' _ Hne. unfold w'. cbn [timeouts]. apply lookup_insert_ne.
    rewrite <- Hh. by apply Hne.
  - intros tm' Htm'. by rewrite Hat' in Htm'.
  - intros h' t' d' Hl' Hd' Hcase. exfalso. unfold w' in Hl'. cbn [timeouts] in Hl'.
    destruct (decide (h = h')) as [<-|Hne].
    + rewrite lookup_insert_eq in Hl'. injection Hl' as <-. done.
    + rewrite lookup_insert_ne in Hl' by done. pose proof (T3 _ _ Hl').
      destruct Hcase as [?|(tm' & Htm' & ?)]; [lia|].
      rewrite Hat in Htm'. injection Htm' as <-. congruence.
  - intros h' t' Hl'. unfold w' in *. cbn [timeouts next_handle] in *.
    destruct (decide (h = h')) as [<-|Hne]; [eauto|].
    rewrite lookup_insert_ne in Hl' by done. eauto.
Qed.

Lemma set_timers self key v t w :
  timers_ok w -> timers_ok (snd (TempMap.set self key v t w)).
Proof. intros HT. exact (setItem_timers self key v t w HT). Qed.

Lemma add_timers self key v t w :
  timers_ok w -> timers_ok (snd (TempMap.add self key v t w)).
Proof.
  intros HT. unfold TempMap.add, bind, read_store; cbn [fst snd].
  destruct (Map_get (store_of w self) key) as [it|] eqn:Hget; [exact HT|].
  pose proof (setItem_timers self key v t w HT) as H. by rewrite Hget in H.
Qed.

Lemma update_timers self key v t w :
  timers_ok w -> timers_ok (snd (TempMap.update self key v t w)).
Proof.
  intros HT. unfold TempMap.update, bind, read_store; cbn [fst snd].
  destruct (Map_get (store_of w self) key) as [it|] eqn:Hget; [|exact HT].
  pose proof (setItem_timers self key v t w HT) as H. by rewrite Hget in H.
Qed.

Lemma get_timers self key rt w :
  timers_ok w -> timers_ok (snd (TempMap.get self key rt w)).
Proof. intros HT. exact (getItem_timers self key rt w HT). Qed.

Lemma ensure_timers self key d t rt w :
  timers_ok w -> timers_ok (snd (TempMap.ensure self key d t rt w)).
Proof.
  intros HT. unfold TempMap.ensure. unfold bind at 1.
  destruct (Map_get (store_of w self) key) as [it|] eqn:Hget.
  - pose proof (getItem_timers self key rt w HT) as H.
    assert (is_Some (fst (TempMap.getItem self key rt w))) as [it' E].
    { unfold TempMap.getItem, bind, read_store, ret; cbn [fst snd]. rewrite Hget.
      destruct rt; [|eauto]. destruct it as [v0 [tm|]]; simpl; eauto. }
    rewrite E. exact H.
  - rewrite (getItem_miss _ _ _ _ Hget). cbn [fst snd].
    unfold bind, getValue. destruct d; unfold ask, ret; cbn [fst snd].
    + pose proof (setItem_timers self key v t w HT) as H. by rewrite Hget in H.
    + pose proof (setItem_timers self key (f key self w) t w HT) as H.
      by rewrite Hget in H.
Qed.

Lemma delete_timers self key w :
  wf_world w -> timers_ok w -> timers_ok (snd (TempMap.delete self key w)).
Proof. intros Hwf HT. exact (deleteItem_timers self key w Hwf HT). Qed.

Lemma copyItem_timers dest key it ens rt w :
  timers_ok w -> timers_ok (snd (TempMap.copyItem dest key it ens rt w)).
Proof.
  intros HT. unfold TempMap.copyItem. unfold bind at 1.
  assert (snd (getItemTimeout (Some it) (negb rt) w) = w) as ->.
  { destruct it as [v0 [tm|]]; simpl; [|done]. by destruct (negb rt). }
  destruct (fst (getItemTimeout (Some it) (negb rt) w)); destruct ens;
    first [exact HT | by apply ensure_timers | by apply set_timers].
Qed.

Lemma copy_entry_timers dest ens rt e w :
  timers_ok w -> timers_ok (snd (TempMap.copy_entry dest ens rt e w)).
Proof. intros HT. exact (copyItem_timers dest (fst e) (snd e) ens rt w HT). Qed.

Lemma copy_loop_timers dest ens rt (l : Store) w :
  timers_ok w -> timers_ok (snd (for_each l (TempMap.copy_entry dest ens rt) w)).
Proof.
  apply (for_each_inv timers_ok). intros e w1 _. apply copy_entry_timers.
Qed.

Lemma removes_get_ne self k k' w w' :
  removes self k w w' -> k <> k' ->
  Map_get (store_of w' self) k' = Map_get (store_of w self) k'.
Proof.
  intros (_ & _ & _ & [H | (_ & H)]) Hne.
  - by rewrite (store_of_heap _ _ _ H).
  - rewrite (store_of_insert _ _ _ _ H). by apply Map_get_delete_ne.
Qed.

Lemma sweep_loop_timers self (fn : Predicate) (l : Store) :
  NoDup (keys l) ->
  forall w,
    wf_world w -> timers_ok w ->
    (forall e, e ∈ l -> Map_get (store_of w self) (fst e) = Some (snd e)) ->
    timers_ok
      (snd (for_each l
              (fun e => b <- ask (fn (value (snd e)) (fst e) self) ;;
                        if b then TempMap.deleteItem self (fst e) (Some (snd e)) ;;; ret tt
                        else ret tt) w)).
Proof.
  induction l as [|[k it] l IH]; intros Hnd w Hwf HT Hl; [exact HT|].
  rewrite for_each_cons.
  change (keys ((k, it) :: l)) with (k :: keys l) in Hnd.
  apply NoDup_cons in Hnd as [Hnotin Hnd].
  pose proof (sweep_step self fn (k, it) w) as Hrm.
  apply IH; [exact Hnd| | |].
  - eapply removes_wf; [exact Hrm|exact Hwf].
  - unfold bind at 1, ask. cbn [fst snd].
    destruct (fn it.(value) k self w); [|exact HT].
    unfold bind, ret. cbn [fst snd].
    pose proof (deleteItem_timers self k w Hwf HT) as H.
    pose proof (Hl (k, it) (list_elem_of_here _ _)) as Hk. cbn [fst snd] in Hk.
    rewrite Hk in H. exact H.
  - intros e He. rewrite (removes_get_ne _ _ _ _ _ Hrm).
    + apply Hl. by apply list_elem_of_further.
    + cbn [fst]. intros ->. apply Hnotin. unfold keys.
      apply list_elem_of_fmap. by exists e.
Qed.

Lemma sweep_timers self (fn : Predicate) w :
  wf_world w -> timers_ok w -> timers_ok (snd (TempMap.sweep self fn w)).
Proof.
  intros Hwf HT. rewrite sweep_world.
  pose proof (wf_world_store w self Hwf) as [Hnd _].
  apply sweep_loop_timers; [exact Hnd|exact Hwf|exact HT|].
  intros [k it] He. by apply Map_get_unique.
Qed.

Lemma clone_timers self rt w :
  wf_world w -> timers_ok w -> timers_ok (snd (TempMap.clone self rt w)).
Proof.
  intros Hwf HT. unfold TempMap.clone, bind, ret, read_store. cbn [fst snd].
  apply copy_loop_timers. by apply new_TempMap_timers.
Qed.

Lemma filter_timers self (fn : Predicate) rt w :
  wf_world w -> timers_ok w -> timers_ok (snd (TempMap.filter self fn rt w)).
Proof.
  intros Hwf HT. unfold TempMap.filter, bind, ret, read_store, ask. cbn [fst snd].
  apply (for_each_inv timers_ok); [|by apply new_TempMap_timers].
  intros e w1 _ H1. destruct (fn _ _ _ _); [|exact H1].
  by apply copy_entry_timers.
Qed.

Lemma partition_timers self (fn : Predicate) rt w :
  wf_world w -> timers_ok w -> timers_ok (snd (TempMap.partition self fn rt w)).
Proof.
  intros Hwf HT. unfold TempMap.partition, bind, ret, read_store, ask.
  cbn [fst snd].
  apply (for_each_inv timers_ok).
  - intros e w1 _ H1. by apply copy_entry_timers.
  - apply new_TempMap_timers; [by apply new_TempMap_wf|].
    by apply new_TempMap_timers.
Qed.

Lemma concat_timers self other rt w :
  timers_ok w -> timers_ok (snd (TempMap.concat self other rt w)).
Proof.
  intros HT. unfold TempMap.concat. destruct (decide (self = other)); [exact HT|].
  unfold bind, ret, read_store. cbn [fst snd]. by apply copy_loop_timers.
Qed.

Lemma difference_timers self other rt w :
  wf_world w -> timers_ok w -> timers_ok (snd (TempMap.difference self other rt w)).
Proof.
  intros Hwf HT. unfold TempMap.difference. unfold bind. cbn [fst snd].
  apply concat_timers. apply filter_timers; [by apply filter_wf|].
  by apply filter_timers.
Qed.

Lemma intersect_timers self other rt w :
  wf_world w -> timers_ok w -> timers_ok (snd (TempMap.intersect self other rt w)).
Proof. intros Hwf HT. by apply filter_timers. Qed.

Lemma sort_timers stn fn self rt w :
  wf_world w -> timers_ok w -> timers_ok (snd (TempMap.sort stn fn self rt w)).
Proof.
  intros Hwf HT. unfold TempMap.sort. cbn zeta. unfold bind, ret, read_store.
  cbn [fst snd]. apply copy_loop_timers. by apply sweep_timers.
Qed.

Lemma timers_empty t0 : timers_ok (empty_world t0).
Proof.
  split; [|split].
  - intros r k it tm H. unfold store_of, empty_world in H. simpl in H.
    rewrite lookup_empty in H. done.
  - intros h t d H. unfold empty_world in H. simpl in H.
    by rewrite lookup_empty in H.
  - intros h t H. unfold empty_world in H. simpl in H.
    by rewrite lookup_empty in H.
Qed.

Lemma step_timers w w' : wf_world w -> timers_ok w -> step w w' -> timers_ok w'.
Proof.
  intros Hwf HT Hstep. destruct Hstep.
  - by apply new_TempMap_timers.
  - by apply set_timers.
  - by apply add_timers.
  - by apply update_timers.
  - by apply ensure_timers.
  - by apply get_timers.
  - by apply at_timers.
  - by apply delete_timers.
  - by apply sweep_timers.
  - by apply (sweep_timers self (fun _ _ _ _ => true)).
  - by apply clone_timers.
  - by apply filter_timers.
  - by apply partition_timers.
  - by apply concat_timers.
  - by apply difference_timers.
  - by apply intersect_timers.
  - by apply sort_timers.
  - exact HT.
  - by apply fire_timers.
Qed.

Lemma reachable_timers w : reachable w -> timers_ok w.
Proof.
  intros [t0 Hr].
  enough (wf_world w /\ timers_ok w) as [_ H]; [exact H|].
  revert w Hr. apply (rtc_ind_r (fun w => wf_world w /\ timers_ok w)).
  - split; [apply wf_empty | apply timers_empty].
  - intros y z _ Hstep [Hy HT]. split.
    + eapply step_wf; eauto.
    + eapply step_timers; eauto.
Qed.

(** ** Entries and pending callbacks in the worlds a program can reach *)

Lemma demo_due_reachable : reachable demo_due.
Proof.
  destruct demo0_reachable as [t0 H]. exists t0. unfold demo_due.
  eapply rtc_r; [exact H|]. apply step_tick. lia.
Defined.

Lemma stored_timer_positive w r k it tm :
  wf_world w -> Map_get (store_of w r) k = Some it -> timer it = Some tm ->
  0 < timeout tm.
Proof.
  intros Hwf Hg Ht. pose proof (wf_world_store w r Hwf) as [_ Hok].
  rewrite Forall_forall in Hok. specialize (Hok _ (Map_get_elem _ _ _ Hg)).
  unfold timer_ok in Hok. simpl in Hok. by rewrite Ht in Hok.
Qed.

(** X20.  In every world that a program whose callbacks write to no
    container can reach, the stored timers and the pending callbacks of the
    host correspond one to one: the handle of a stored timer is that of a
    pending callback of its own container and key, due [host_delay timeout]
    after the timer's [timestamp], which is [timeout] after it for a
    timeout up to [TIMEOUT_MAX]; a pending callback targets an entry that
    holds its handle; and no two entries share a handle.  So no method
    leaves a callback running for an entry that was deleted, replaced or
    made permanent. *)
Theorem stored_timers_match_pending_callbacks (w : World) (Hr : reachable w) :
  (forall r k it tm,
      Map_get (store_of w r) k = Some it -> timer it = Some tm ->
      timeouts w !! handle tm
        = Some (mkTimeout (host_delay (timeout tm))
                  (Some (timestamp tm + host_delay (timeout tm))) r k) /\
      (timeout tm <= TIMEOUT_MAX -> host_delay (timeout tm) = timeout tm)) /\
  (forall h t d,
      timeouts w !! h = Some t -> due t = Some d ->
      exists it tm,
        Map_get (store_of w (owner t)) (target t) = Some it /\
        timer it = Some tm /\ handle tm = h) /\
  (forall r k it tm r' k' it' tm',
      Map_get (store_of w r) k = Some it -> timer it = Some tm ->
      Map_get (store_of w r') k' = Some it' -> timer it' = Some tm' ->
      handle tm = handle tm' -> r = r' /\ k = k').
Proof.
  pose proof (reachable_timers w Hr) as HT. pose proof HT as (T1 & T2 & _).
  pose proof (reachable_wf w Hr) as Hwf.
  split; [|split; [exact T2|]].
  - intros r k it tm Hg Ht. split; [exact (T1 r k it tm Hg Ht)|].
    apply host_delay_in_range. eapply stored_timer_positive; eauto.
  - intros r k it tm r' k' it' tm' Hg Ht Hg' Ht' Hh.
    apply (timers_ok_distinct w r k tm r' k' tm' HT); [| |exact Hh].
    + apply timer_at_Some. eauto.
    + apply timer_at_Some. eauto.
Qed.

Lemma stored_timers_match_pending_callbacks_witness :
  reachable demo0 /\
  timeouts demo0 !! 0%nat
    = Some (mkTimeout 1000 (Some 1000) 0%nat (VStr "a")).
Proof.
  split; [exact demo0_reachable|].
  destruct (stored_timers_match_pending_callbacks demo0 demo0_reachable)
    as (H1 & _).
  exact (proj1 (H1 0%nat (VStr "a") (mkItem (VNum 1) (Some (mkTimer 0 1000 0)))
                  (mkTimer 0 1000 0) ltac:(vm_compute; reflexivity) eq_refl)).
Defined.

(** X21.  In every world that a program whose callbacks write to no
    container can reach, running a timer callback changes an entry only by
    removing the entry that holds the callback's handle, and only once the
    delay [host_delay timeout] that the host gave the timer has elapsed
    since its [timestamp]; for a timeout up to [TIMEOUT_MAX] the remaining
    time of the entry has then reached zero.  Conversely the callback of a
    stored timer removes its entry from that instant on, and changes
    nothing before. *)
Theorem callback_removes_only_its_expired_entry (w : World) (Hr : reachable w) :
  (forall h r k,
      Map_get (store_of (fire h w) r) k <> Map_get (store_of w r) k ->
      exists it tm,
        Map_get (store_of w r) k = Some it /\ timer it = Some tm /\
        handle tm = h /\
        timestamp tm + host_delay (timeout tm) <= now w /\
        (timeout tm <= TIMEOUT_MAX -> remaining_time (now w) tm <= 0) /\
        Map_get (store_of (fire h w) r) k = None) /\
  (forall r k it tm,
      Map_get (store_of w r) k = Some it -> timer it = Some tm ->
      if timestamp tm + host_delay (timeout tm) <=? now w
      then Map_get (store_of (fire (handle tm) w) r) k = None
      else fire (handle tm) w = w).
Proof.
  pose proof (reachable_timers w Hr) as (T1 & T2 & _).
  pose proof (reachable_wf w Hr) as Hwf.
  assert (forall t r, store_of
            (mkWorld (now w) (next_handle w)
               (<[r := t]> (timeouts w)) (next_ref w)
               (alter (fun s => Map_delete s (target t)) (owner t) (heap w)))
            (owner t)
          = Map_delete (store_of w (owner t)) (target t)) as Hs.
  { intros t r. unfold store_of. cbn [heap]. rewrite lookup_alter_eq.
    destruct (heap w !! owner t); reflexivity. }
  split.
  - intros h r k Hch. unfold fire in *.
    destruct (timeouts w !! h) as [t|] eqn:Hl; [|done].
    destruct (due t) as [d|] eqn:Hd; [|done].
    destruct (d <=? now w) eqn:Hle; [|done].
    destruct (T2 h t d Hl Hd) as (it & tm & Hg & Hti & Hh).
    pose proof (T1 _ _ _ _ Hg Hti) as Ha. unfold armed in Ha. rewrite Hh, Hl in Ha.
    injection Ha as Ha. rewrite Ha in Hd. cbn [due] in Hd. injection Hd as Hd.
    apply Z.leb_le in Hle.
    pose proof (stored_timer_positive w _ _ it tm Hwf Hg Hti) as Hpos.
    destruct (decide (r = owner t)) as [->|Hr'].
    + pose proof (Hs (mkTimeout (after t) None (owner t) (target t)) h) as Hs'.
      cbn [owner target] in Hs'. rewrite Hs' in Hch |- *.
      destruct (decide (k = target t)) as [->|Hk].
      * exists it, tm. split; [done|]. split; [done|]. split; [done|].
        split; [lia|]. split.
        -- intros Hmax. rewrite host_delay_in_range in Hd by done.
           unfold remaining_time. lia.
        -- apply Map_get_delete_eq. by destruct (wf_world_store w (owner t) Hwf).
      * exfalso. apply Hch. by apply Map_get_delete_ne.
    + exfalso. apply Hch. unfold store_of. cbn [heap].
      by rewrite lookup_alter_ne.
  - intros r k it tm Hg Hti. pose proof (T1 _ _ _ _ Hg Hti) as Ha.
    unfold armed in Ha. unfold fire. rewrite Ha. cbn [due after owner target].
    destruct (timestamp tm + host_delay (timeout tm) <=? now w) eqn:E.
    + pose proof (Hs (mkTimeout (host_delay (timeout tm)) None r k) (handle tm))
        as Hs'.
      cbn [owner target] in Hs'. rewrite Hs'.
      apply Map_get_delete_eq. by destruct (wf_world_store w r Hwf).
    + reflexivity.
Qed.

Lemma callback_removes_only_its_expired_entry_witness :
  reachable demo_due /\
  Map_get (store_of (fire 0%nat demo_due) 0%nat) (VStr "a") = None.
Proof.
  split; [exact demo_due_reachable|].
  destruct (callback_removes_only_its_expired_entry demo_due demo_due_reachable)
    as (_ & H2).
  exact (H2 0%nat (VStr "a") (mkItem (VNum 1) (Some (mkTimer 0 1000 0)))
           (mkTimer 0 1000 0) ltac:(vm_compute; reflexivity) eq_refl).
Defined.

(** ** A factory that writes to the container *)

Lemma ensure_with_reader self key d t rt :
  TempMap.ensure self key d t rt
  = TempMap.ensure_with self key (getValue d) t rt.
Proof. reflexivity. Qed.

(** X22.  [ensure] with a factory that itself sets the key with a timeout:
    the lookup missed, so [#setItem] replaces the entry of the factory
    without clearing its callback.  The result of the factory is stored as
    a permanent entry, the callback armed by the factory stays pending for
    that key, and once the host runs it the permanent entry is removed. *)
Theorem ensure_factory_leaves_stale_callback
    (w : World) (self : nat) (key v1 v2 : JsVal) (n : Z) (rt : bool) :
  reachable w -> (self < next_ref w)%nat ->
  Map_get (store_of w self) key = None -> 0 < n ->
  let factory :=
    fun k m => TempMap.set m k v1 (TNumber n) ;;; ret v2 in
  let r := TempMap.ensure_with self key factory TUndefined rt w in
  let w' := snd r in
  let h := next_handle w in
  fst r = v2 /\
  Map_get (store_of w' self) key = Some (mkItem v2 None) /\
  timeouts w' !! h
    = Some (mkTimeout (host_delay n) (Some (now w + host_delay n)) self key) /\
  (forall r' k' it tm,
      Map_get (store_of w' r') k' = Some it -> timer it = Some tm ->
      handle tm <> h) /\
  forall dt,
    (0 <= dt < host_delay n -> fire h (tick dt w') = tick dt w') /\
    (host_delay n <= dt ->
     Map_get (store_of (fire h (tick dt w')) self) key = None).
Proof.
  intros Hreach Hself Hget Hn. cbn zeta.
  pose proof (reachable_wf w Hreach) as Hwf.
  pose proof (reachable_timers w Hreach) as (T1 & _ & T3).
  set (it1 := mkItem v1 (Some (mkTimer (next_handle w) n (now w)))).
  set (w2 := snd (TempMap.setItem self key None v1 (TNumber n) w)).
  set (w3 := set_store self (Map_set (store_of w2 self) key (mkItem v2 None)) w2).
  assert (TempMap.ensure_with self key
            (fun k m => TempMap.set m k v1 (TNumber n) ;;; ret v2)
            TUndefined rt w = (v2, w3)) as Heq.
  { unfold TempMap.ensure_with. unfold bind at 1.
    rewrite (getItem_miss _ _ _ _ Hget). cbn [fst snd].
    cbv beta. unfold bind, ret. cbn [fst snd].
    rewrite set_fresh by done. fold w2.
    reflexivity. }
  rewrite Heq. cbn [fst snd].
  assert (w2 = mkWorld (now w) (S (next_handle w))
            (<[next_handle w :=
                 mkTimeout (host_delay n) (Some (now w + host_delay n)) self key]>
               (timeouts w))
            (next_ref w)
            (<[self := Map_set (store_of w self) key it1]> (heap w))) as Hw2
    by (by apply setItem_new_timer).
  assert (wf_world w2) as Hwf2.
  { eapply touches_wf; [|exact Hself|exact Hwf].
    apply setItem_touches. by intros it [=]. }
  clearbody w2.
  assert (timeouts w3 = <[next_handle w :=
                 mkTimeout (host_delay n) (Some (now w + host_delay n)) self key]>
               (timeouts w)) as Htab by (unfold w3; simpl; by rewrite Hw2).
  assert (now w3 = now w) as Hnow by (unfold w3; simpl; by rewrite Hw2).
  assert (next_ref w2 = next_ref w) as Href2 by (by rewrite Hw2).
  assert (store_of w3 self = Map_set (store_of w2 self) key (mkItem v2 None))
    as Hst3 by apply store_of_set_store_eq.
  assert (forall r', r' <> self -> store_of w3 r' = store_of w r') as Hother.
  { intros r' Hr'. unfold w3, store_of, set_store. cbn [heap].
    rewrite lookup_insert_ne by done. rewrite Hw2. cbn [heap].
    by rewrite lookup_insert_ne. }
  assert (forall k', k' <> key ->
            Map_get (store_of w3 self) k' = Map_get (store_of w self) k') as Hkeys.
  { intros k' Hk'. rewrite Hst3. rewrite Map_get_set_ne by done.
    rewrite Hw2. unfold store_of at 1. cbn [heap]. rewrite lookup_insert_eq.
    by apply Map_get_set_ne. }
  assert (wf_world w3) as Hwf3.
  { unfold w3. unfold wf_world, set_store. cbn [heap next_ref].
    apply map_Forall_insert_2; [|exact Hwf2].
    split; [lia|]. apply wf_store_Map_set; [by apply wf_world_store|done]. }
  split; [done|]. split; [rewrite Hst3; apply Map_get_set_eq|].
  split; [rewrite Htab; apply lookup_insert_eq|]. split.
  - intros r' k' it tm Hg Ht Hh.
    assert (exists it0, Map_get (store_of w r') k' = Some it0 /\ timer it0 = Some tm)
      as (it0 & Hg0 & Ht0).
    { destruct (decide (r' = self)) as [->|Hr'].
      - destruct (decide (k' = key)) as [->|Hk'].
        + rewrite Hst3, Map_get_set_eq in Hg. injection Hg as <-. done.
        + rewrite Hkeys in Hg by done. eauto.
      - rewrite Hother in Hg by done. eauto. }
    pose proof (T1 _ _ _ _ Hg0 Ht0) as Ha. unfold armed in Ha.
    pose proof (T3 _ _ Ha). lia.
  - intros dt. split.
    + intros [Hd0 Hd1]. eapply fire_early.
      * change (timeouts (tick dt w3)) with (timeouts w3). rewrite Htab.
        apply lookup_insert_eq.
      * reflexivity.
      * change (now (tick dt w3)) with (now w3 + dt). rewrite Hnow. lia.
    + intros Hdt.
      assert (timeouts (tick dt w3) !! next_handle w
              = Some (mkTimeout (host_delay n) (Some (now w + host_delay n)) self key))
        as Hl by (change (timeouts (tick dt w3)) with (timeouts w3);
                  rewrite Htab; apply lookup_insert_eq).
      pose proof (fire_due _ _ (now w + host_delay n) (tick dt w3) Hl eq_refl) as Hf.
      cbn [owner target] in Hf.
      change (now (tick dt w3)) with (now w3 + dt) in Hf. rewrite Hnow in Hf.
      rewrite Hf by lia.
      change (store_of (tick dt w3) self) with (store_of w3 self).
      apply Map_get_delete_eq. by destruct (wf_world_store w3 self Hwf3).
Qed.

Lemma ensure_factory_leaves_stale_callback_witness :
  let factory :=
    fun k m => TempMap.set m k (VStr "inner") (TNumber 1000) ;;; ret (VStr "outer") in
  let w' := snd (TempMap.ensure_with 0%nat (VStr "k") factory TUndefined true demo0) in
  Map_get (store_of w' 0%nat) (VStr "k") = Some (mkItem (VStr "outer") None) /\
  Map_get (store_of (fire 1%nat (tick 1000 w')) 0%nat) (VStr "k") = None.
Proof.
  cbn zeta.
  pose proof (ensure_factory_leaves_stale_callback demo0 0%nat (VStr "k")
                (VStr "inner") (VStr "outer") 1000 true demo0_reachable
                ltac:(vm_compute; lia) ltac:(vm_compute; reflexivity) ltac:(lia))
    as H.
  cbn zeta in H. destruct H as (_ & H2 & _ & _ & H5).
  split; [exact H2|].
  apply (proj2 (H5 1000)). change (host_delay 1000) with 1000. lia.
Defined.
Lemma set_then_get_witness :
  fst (TempMap.get 0%nat (VStr "a") true
         (snd (TempMap.set 0%nat (VStr "a") (VNum 9) TNull demo0))) = VNum 9 /\
  Map_get (store_of (snd (TempMap.set 0%nat (VStr "a") (VNum 9) TNull demo0)) 0%nat)
    (VStr "b")
  = Map_get (store_of demo0 0%nat) (VStr "b").
Proof.
  destruct (set_then_get demo0 0%nat (VStr "a") (VNum 9) TNull) as (H1 & H2 & _).
  split; [apply H1|]. apply H2. discriminate.
Defined.

Lemma clear_empties_and_cancels_witness :
  store_of (snd (TempMap.clear 0%nat demo0)) 0%nat = [] /\
  fire 0%nat (tick 1000 (snd (TempMap.clear 0%nat demo0)))
    = tick 1000 (snd (TempMap.clear 0%nat demo0)).
Proof.
  destruct (clear_empties_and_cancels demo0 0%nat)
    as (_ & H2 & _ & _ & _ & H6 & _).
  split; [exact H2|].
  apply (H6 (VStr "a") (mkItem (VNum 1) (Some (mkTimer 0 1000 0)))
           (mkTimer 0 1000 0) 1000); [|reflexivity].
  vm_compute. apply list_elem_of_here.
Defined.
